(** * Regulatory impact chain: cache, propagation engine, timeline and risk index

    A shallow embedding of [src/lib/cache.ts] (class [MemoryCache]) and of
    [src/lib/propagation.ts] (functions [buildDependencyGraph] and
    [propagateImpact], classes [PropagationEngine], [TimelineSimulationEngine]
    and [RiskIndexCalculator]), with the summaries the risks and propagation
    routes compute from their results, followed by the properties proved about
    them.

    Conventions of the embedding.
    - A JavaScript [number] is a rational [Q]: arithmetic is exact, and NaN and
      the infinities are not represented.  Concrete scenarios below use values
      on which binary64 arithmetic is exact as well.
    - A JavaScript [Map<string, V>] is an association list in insertion order
      ([OMap]); a [Set<string>] is a duplicate-free list in insertion order.
    - [Date.now()] is an explicit argument [now] (milliseconds, in [Z]).
    - [async] functions run sequentially; the store ([db]) is a record that is
      read, never written, by the code embedded here.  A column the record of a
      row leaves out is passed as a function on the rows where it is read. *)

From Stdlib Require Import List String Ascii Bool Arith ZArith QArith Qabs Lia Lqa.
From Stdlib Require Import Permutation Sorted.
Import ListNotations.

Local Open Scope string_scope.
Local Open Scope list_scope.

(* ===================================================================== *)
(** * Part I. The embedding                                               *)
(* ===================================================================== *)

(** ** JavaScript numbers *)

(** [a < b] on numbers. *)
Definition Qlt_bool (a b : Q) : bool := negb (Qle_bool b a).

(** [Math.max(a, b)]. *)
Definition js_max (a b : Q) : Q := if Qlt_bool a b then b else a.

(** [Math.abs(a)]. *)
Definition js_abs (a : Q) : Q := if Qlt_bool a 0 then Qopp a else a.

(** ** [Map<string, V>] in insertion order *)

Module OMap.
Section Defs.
Context {V : Type}.

Definition t : Type := list (string * V).

Definition empty : t := [].

(** [m.get(k)]; [None] is [undefined]. *)
Fixpoint get (k : string) (m : t) : option V :=
  match m with
  | [] => None
  | (k', v) :: m' => if String.eqb k k' then Some v else get k m'
  end.

Definition has (k : string) (m : t) : bool :=
  match get k m with Some _ => true | None => false end.

(** [m.set(k, v)]: an existing key keeps its position, a new key goes last. *)
Fixpoint set (k : string) (v : V) (m : t) : t :=
  match m with
  | [] => [(k, v)]
  | (k', v') :: m' =>
      if String.eqb k k' then (k', v) :: m' else (k', v') :: set k v m'
  end.

(** [m.delete(k)]. *)
Definition delete (k : string) (m : t) : t :=
  filter (fun kv => negb (String.eqb k (fst kv))) m.

Definition keys (m : t) : list string := map fst m.

Definition values (m : t) : list V := map snd m.

Definition size (m : t) : nat := List.length m.
End Defs.
Arguments t : clear implicits.
End OMap.

(** ** [Set<string>] in insertion order *)

Module StrSet.
Definition t : Type := list string.

Definition has (x : string) (s : t) : bool := existsb (String.eqb x) s.

(** [s.add(x)]. *)
Definition add (x : string) (s : t) : t := if has x s then s else s ++ [x].

(** [new Set(xs)]. *)
Definition of_list (xs : list string) : t :=
  fold_left (fun s x => add x s) xs [].
End StrSet.

(** ** [Array.prototype.sort(compareFn)]

    The sort is stable; with a consistent comparator every stable sort returns
    the same array, which is the one computed here by insertion: an element
    moves behind its right neighbour exactly when the comparator is positive. *)

Section Sort.
Context {A : Type} (compareFn : A -> A -> Q).

Fixpoint sort_insert (x : A) (l : list A) : list A :=
  match l with
  | [] => [x]
  | y :: l' =>
      if Qlt_bool 0 (compareFn x y) then y :: sort_insert x l' else x :: l
  end.

Definition js_sort (l : list A) : list A := fold_right sort_insert [] l.
End Sort.

(* --------------------------------------------------------------------- *)
(** ** [cache.ts]: class [MemoryCache]                                    *)
(* --------------------------------------------------------------------- *)

Record CacheEntry (V : Type) : Type := mkCacheEntry {
  ce_data : V;
  ce_expiresAt : Z;
  ce_createdAt : Z;
  ce_version : Z;
  ce_tags : list string
}.
Arguments mkCacheEntry {V}.
Arguments ce_data {V}.
Arguments ce_expiresAt {V}.
Arguments ce_createdAt {V}.
Arguments ce_version {V}.
Arguments ce_tags {V}.

Record CacheStats : Type := mkCacheStats {
  hits : nat;
  misses : nat;
  evictions : nat;
  size : nat
}.

(** The fields of a [MemoryCache].  [mc_notified] records, in order, the
    arguments of every call of [notifyInvalidation]: each registered callback
    is invoked with exactly these pairs. *)
Record MemoryCache (V : Type) : Type := mkMemoryCache {
  mc_cache : OMap.t (CacheEntry V);
  mc_stats : CacheStats;
  mc_notified : list (string * list string)
}.
Arguments mkMemoryCache {V}.
Arguments mc_cache {V}.
Arguments mc_stats {V}.
Arguments mc_notified {V}.

Module Cache.
Section Ops.
Context {V : Type}.

Definition new : MemoryCache V :=
  mkMemoryCache OMap.empty (mkCacheStats 0 0 0 0) [].

(** [generateKey]: [`${tenantId}:${key}`]. *)
Definition generateKey (tenantId key : string) : string :=
  (tenantId ++ ":" ++ key)%string.

Definition with_size (c : OMap.t (CacheEntry V)) (s : CacheStats) : CacheStats :=
  mkCacheStats (hits s) (misses s) (evictions s) (OMap.size c).

(** [options?.ttl ?? 30 * 60 * 1000]. *)
Definition ttlOrDefault (ttl : option Z) : Z :=
  match ttl with Some x => x | None => (30 * 60 * 1000)%Z end.

(** [set(tenantId, key, data, options)]; [ttl] and [tags] are the optional
    fields of [options]. *)
Definition set (c : MemoryCache V) (now : Z) (tenantId key : string) (data : V)
    (ttl : option Z) (tags : option (list string)) : MemoryCache V :=
  let fullKey := generateKey tenantId key in
  let ttl' := ttlOrDefault ttl in
  let tags' := match tags with Some x => x | None => [] end in
  let entry := mkCacheEntry data (now + ttl')%Z now 1%Z (tenantId :: tags') in
  let cache' := OMap.set fullKey entry (mc_cache c) in
  mkMemoryCache cache' (with_size cache' (mc_stats c)) (mc_notified c).

(** [get(tenantId, key)]; [None] is the [null] returned for a key that is
    absent or whose entry has expired, [Some data] the stored data of a live
    entry, which may itself be [null]. *)
Definition get (c : MemoryCache V) (now : Z) (tenantId key : string)
    : option V * MemoryCache V :=
  let fullKey := generateKey tenantId key in
  let s := mc_stats c in
  match OMap.get fullKey (mc_cache c) with
  | None =>
      (None,
       mkMemoryCache (mc_cache c)
         (mkCacheStats (hits s) (S (misses s)) (evictions s) (size s))
         (mc_notified c))
  | Some entry =>
      if (ce_expiresAt entry <? now)%Z then
        let cache' := OMap.delete fullKey (mc_cache c) in
        (None,
         mkMemoryCache cache'
           (mkCacheStats (hits s) (S (misses s)) (S (evictions s))
              (OMap.size cache'))
           (mc_notified c))
      else
        (Some (ce_data entry),
         mkMemoryCache (mc_cache c)
           (mkCacheStats (S (hits s)) (misses s) (evictions s) (size s))
           (mc_notified c))
  end.

(** [has(tenantId, key)]: [this.get(tenantId, key) !== null].  The data that
    [get] returns for a live entry may itself be [null], and [has] is then
    [false]; [isNull] tells which values of [V] are [null]. *)
Definition has (isNull : V -> bool) (c : MemoryCache V) (now : Z)
    (tenantId key : string) : bool * MemoryCache V :=
  let '(r, c') := get c now tenantId key in
  (match r with Some data => negb (isNull data) | None => false end, c').

(** [delete(tenantId, key)]. *)
Definition delete (c : MemoryCache V) (tenantId key : string)
    : bool * MemoryCache V :=
  let fullKey := generateKey tenantId key in
  match OMap.get fullKey (mc_cache c) with
  | Some entry =>
      let cache' := OMap.delete fullKey (mc_cache c) in
      (true,
       mkMemoryCache cache' (with_size cache' (mc_stats c))
         (mc_notified c ++ [(fullKey, ce_tags entry)]))
  | None => (false, c)
  end.

(** The second loop of the three invalidation methods:
    [keysToDelete.forEach(key => { const entry = cache.get(key);
    cache.delete(key); if (entry) notifyInvalidation(key, entry.tags) })]. *)
Definition deleteKeys (keysToDelete : list string)
    (cache : OMap.t (CacheEntry V)) (notified : list (string * list string))
    : OMap.t (CacheEntry V) * list (string * list string) :=
  fold_left
    (fun acc key =>
       let '(m, n) := acc in
       match OMap.get key m with
       | Some entry => (OMap.delete key m, n ++ [(key, ce_tags entry)])
       | None => (OMap.delete key m, n)
       end)
    keysToDelete (cache, notified).

(** The body shared, word for word, by [invalidateTenant], [invalidateByTag]
    and [invalidateByTags]; [selected] is the test of the first loop. *)
Definition invalidateWhere (selected : CacheEntry V -> bool) (c : MemoryCache V)
    : nat * MemoryCache V :=
  let keysToDelete :=
    map fst (filter (fun kv => selected (snd kv)) (mc_cache c)) in
  let count := List.length keysToDelete in
  let '(cache', notified') :=
    deleteKeys keysToDelete (mc_cache c) (mc_notified c) in
  let s := mc_stats c in
  (count,
   mkMemoryCache cache'
     (mkCacheStats (hits s) (misses s) (evictions s + count) (OMap.size cache'))
     notified').

(** [entry.tags.includes(tag)]. *)
Definition includes (tag : string) (tags : list string) : bool :=
  existsb (String.eqb tag) tags.

Definition invalidateTenant (c : MemoryCache V) (tenantId : string)
    : nat * MemoryCache V :=
  invalidateWhere (fun entry => includes tenantId (ce_tags entry)) c.

Definition invalidateByTag (c : MemoryCache V) (tag : string)
    : nat * MemoryCache V :=
  invalidateWhere (fun entry => includes tag (ce_tags entry)) c.

(** [tags.some(tag => entry.tags.includes(tag))]. *)
Definition invalidateByTags (c : MemoryCache V) (tags : list string)
    : nat * MemoryCache V :=
  invalidateWhere
    (fun entry => existsb (fun tag => includes tag (ce_tags entry)) tags) c.

(** [invalidateRegulation(tenantId, regulationId)]: the tenant argument is
    not used by the body. *)
Definition invalidateRegulation (c : MemoryCache V)
    (tenantId regulationId : string) : MemoryCache V :=
  snd (invalidateByTags c
         [("regulation:" ++ regulationId)%string; "dependency-graph"; "risk-scores";
          "impact-analysis"]).

(** [invalidateEntity(tenantId, entityType, entityId)]. *)
Definition invalidateEntity (c : MemoryCache V)
    (tenantId entityType entityId : string) : MemoryCache V :=
  snd (invalidateByTags c
         [("entity:" ++ entityType ++ ":" ++ entityId)%string; "dependency-graph";
          "risk-scores"]).

(** [invalidateEdge(tenantId)]. *)
Definition invalidateEdge (c : MemoryCache V) (tenantId : string)
    : MemoryCache V :=
  snd (invalidateByTag c "dependency-graph").

(** [cleanup()], the periodic sweep of expired entries. *)
Definition cleanup (c : MemoryCache V) (now : Z) : MemoryCache V :=
  let keysToDelete :=
    map fst (filter (fun kv => (ce_expiresAt (snd kv) <? now)%Z) (mc_cache c)) in
  let cache' := fold_left (fun m key => OMap.delete key m) keysToDelete (mc_cache c) in
  let s := mc_stats c in
  match keysToDelete with
  | [] => mkMemoryCache cache' s (mc_notified c)
  | _ :: _ =>
      mkMemoryCache cache'
        (mkCacheStats (hits s) (misses s)
           (evictions s + List.length keysToDelete) (OMap.size cache'))
        (mc_notified c)
  end.

Definition getStats (c : MemoryCache V) : CacheStats := mc_stats c.
End Ops.
End Cache.

Module CacheKeys.
Definition dependencyGraph (tenantId : string) : string :=
  ("dependency-graph:" ++ tenantId)%string.
End CacheKeys.

Module CacheTags.
Definition dependencyGraph : string := "dependency-graph".
Definition riskScores : string := "risk-scores".
Definition impactAnalysis : string := "impact-analysis".
Definition regulation (id : string) : string := ("regulation:" ++ id)%string.
Definition entity (type id : string) : string :=
  ("entity:" ++ type ++ ":" ++ id)%string.
End CacheTags.

(* --------------------------------------------------------------------- *)
(** ** [propagation.ts]: data                                             *)
(* --------------------------------------------------------------------- *)

(** The Prisma enum [EntityType]. *)
Inductive EntityType : Type := REGULATION | DEPARTMENT | BUDGET | SERVICE | KPI.

Definition entityTypeName (t : EntityType) : string :=
  match t with
  | REGULATION => "REGULATION"
  | DEPARTMENT => "DEPARTMENT"
  | BUDGET => "BUDGET"
  | SERVICE => "SERVICE"
  | KPI => "KPI"
  end.

(** The node key [`${type}:${id}`]. *)
Definition entityKey (t : EntityType) (id : string) : string :=
  (entityTypeName t ++ ":" ++ id)%string.

(** A JSON value as a condition object may hold it under [required]; arrays
    and objects are only ever tested for truthiness, so they share one
    constructor. *)
Inductive JsValue : Type :=
| JsNull
| JsBool (b : bool)
| JsNum (q : Q)
| JsStr (s : string)
| JsObject.

(** Truthiness, as tested by [if (v)]. *)
Definition truthy (v : JsValue) : bool :=
  match v with
  | JsNull => false
  | JsBool b => b
  | JsNum q => negb (Qeq_bool q 0)
  | JsStr s => negb (String.eqb s "")
  | JsObject => true
  end.

(** [v === true]. *)
Definition is_true (v : JsValue) : bool :=
  match v with JsBool true => true | _ => false end.

(** The condition object of an edge, reduced to the two properties the code
    reads; [None] is an absent key.  [threshold] has the type the source casts
    it to ([conditions.threshold as number]). *)
Record Conditions : Type := mkConditions {
  required : option JsValue;
  threshold : option Q
}.

(** A row of the Prisma model [ImpactEdge]. *)
Record ImpactEdge : Type := mkImpactEdge {
  ie_id : string;
  ie_tenantId : string;
  ie_sourceType : EntityType;
  ie_sourceId : string;
  ie_targetType : EntityType;
  ie_targetId : string;
  ie_impactWeight : Q;
  ie_impactType : string;
  ie_conditions : option Conditions;
  ie_isActive : bool
}.

(** A row of the Prisma model [Regulation], with the fields the code reads;
    [reg_severity = None] is [null]. *)
Record Regulation : Type := mkRegulation {
  reg_id : string;
  reg_tenantId : string;
  reg_status : string;
  reg_severity : option string
}.

(** The store.  [db_entityName t id] is the [name] that the [findUnique] of
    [getEntityInfo] selects, [None] when the row is missing or the query
    throws. *)
Record Db : Type := mkDb {
  db_impactEdges : list ImpactEdge;
  db_regulations : list Regulation;
  db_entityName : EntityType -> string -> option string
}.

Record PropagationPath : Type := mkPropagationPath {
  pp_sourceType : EntityType;
  pp_sourceId : string;
  pp_targetType : EntityType;
  pp_targetId : string;
  pp_weight : Q;
  pp_impactType : string
}.

Record PropagationNode : Type := mkPropagationNode {
  pn_id : string;
  pn_type : EntityType;
  pn_name : string;
  pn_impactScore : Q;
  pn_depth : nat;
  pn_path : list PropagationPath
}.

(** [PropagationResult]; [executionTime], a difference of two clock readings,
    is left out. *)
Record PropagationResult : Type := mkPropagationResult {
  pr_sourceId : string;
  pr_sourceType : EntityType;
  pr_totalAffected : Z;
  pr_maxDepth : nat;
  pr_nodes : OMap.t PropagationNode;
  pr_edges : list PropagationPath
}.

(** [PropagationConfig]; [None] is an omitted optional field. *)
Record PropagationConfig : Type := mkPropagationConfig {
  cfg_tenantId : string;
  cfg_sourceType : EntityType;
  cfg_sourceId : string;
  cfg_initialImpact : option Q;
  cfg_maxDepth : option Q;
  cfg_impactThreshold : option Q;
  cfg_includeIndirect : option bool
}.

Record DependencyGraph : Type := mkDependencyGraph {
  outgoing : OMap.t (list ImpactEdge);
  incoming : OMap.t (list ImpactEdge);
  allEdges : list ImpactEdge
}.

(** [SEVERITY_WEIGHTS[targetType] ?? 1.0]; every member of the enum has an
    entry. *)
Definition SEVERITY_WEIGHTS (t : EntityType) : Q :=
  match t with
  | DEPARTMENT => 1
  | BUDGET => 9 # 10
  | SERVICE => 8 # 10
  | KPI => 7 # 10
  | REGULATION => 12 # 10
  end.

(** [IMPACT_TYPE_MULTIPLIERS[impactType] ?? 1.0]. *)
Definition IMPACT_TYPE_MULTIPLIERS (impactType : string) : Q :=
  if String.eqb impactType "Direct" then 1
  else if String.eqb impactType "Indirect" then 6 # 10
  else if String.eqb impactType "Conditional" then 3 # 10
  else 1.

(* --------------------------------------------------------------------- *)
(** ** [buildDependencyGraph]                                             *)
(* --------------------------------------------------------------------- *)

(** [if (!m.has(key)) m.set(key, []); m.get(key)!.push(edge)]. *)
Definition pushEdge (key : string) (edge : ImpactEdge)
    (m : OMap.t (list ImpactEdge)) : OMap.t (list ImpactEdge) :=
  let m1 := if OMap.has key m then m else OMap.set key [] m in
  match OMap.get key m1 with
  | Some bucket => OMap.set key (bucket ++ [edge]) m1
  | None => m1
  end.

(** The adjacency lists built from the fetched edges. *)
Definition buildGraph (edges : list ImpactEdge) : DependencyGraph :=
  let '(out, inc) :=
    fold_left
      (fun acc edge =>
         let '(out, inc) := acc in
         (pushEdge (entityKey (ie_sourceType edge) (ie_sourceId edge)) edge out,
          pushEdge (entityKey (ie_targetType edge) (ie_targetId edge)) edge inc))
      edges (OMap.empty, OMap.empty) in
  mkDependencyGraph out inc edges.

(** [db.impactEdge.findMany({ where: { tenantId, isActive: true } })]. *)
Definition findActiveEdges (db : Db) (tenantId : string) : list ImpactEdge :=
  filter (fun e => String.eqb (ie_tenantId e) tenantId && ie_isActive e)
    (db_impactEdges db).

Definition buildDependencyGraph (db : Db) (c : MemoryCache DependencyGraph)
    (now : Z) (tenantId : string) : DependencyGraph * MemoryCache DependencyGraph :=
  let '(cached, c1) := Cache.get c now tenantId (CacheKeys.dependencyGraph tenantId) in
  match cached with
  | Some graph => (graph, c1)
  | None =>
      let graph := buildGraph (findActiveEdges db tenantId) in
      (graph,
       Cache.set c1 now tenantId (CacheKeys.dependencyGraph tenantId) graph
         (Some (60 * 60 * 1000)%Z) (Some [CacheTags.dependencyGraph; tenantId]))
  end.

(* --------------------------------------------------------------------- *)
(** ** class [PropagationEngine]                                          *)
(* --------------------------------------------------------------------- *)

(** The fields of an engine apart from [visited], which [propagate] clears on
    entry and which therefore travels with the traversal state below. *)
Record PropagationEngine : Type := mkPropagationEngine {
  eng_tenantId : string;
  eng_graph : option DependencyGraph;
  eng_maxDepth : Q;
  eng_impactThreshold : Q;
  eng_includeIndirect : bool
}.

(** The constructor; the three options may each be omitted. *)
Definition newEngine (tenantId : string) (maxDepth impactThreshold : option Q)
    (includeIndirect : option bool) : PropagationEngine :=
  mkPropagationEngine tenantId None
    (match maxDepth with Some d => d | None => 10 end)
    (match impactThreshold with Some x => x | None => 1 # 100 end)
    (match includeIndirect with Some b => b | None => true end).

(** [evaluateConditions]: each [if] tests the truthiness of the property, and
    an absent property is [undefined]. *)
Definition evaluateConditions (conditions : Conditions) : bool :=
  if match required conditions with Some r => truthy r | None => false end
  then match required conditions with Some r => is_true r | None => false end
  else
    match threshold conditions with
    | Some th => if negb (Qeq_bool th 0) then Qlt_bool 0 th else true
    | None => true
    end.

(** [getEntityInfo(type, id)?.name ?? id]. *)
Definition entityNameOrId (db : Db) (t : EntityType) (id : string) : string :=
  match db_entityName db t id with Some name => name | None => id end.

(** What a traversal mutates: [this.visited], and the [nodes] map and [edges]
    array that [propagate] passes down by reference. *)
Record TraversalState : Type := mkTraversalState {
  ts_visited : StrSet.t;
  ts_nodes : OMap.t PropagationNode;
  ts_edges : list PropagationPath
}.

(** [for (const x of l) body], where the body may run out of fuel. *)
Fixpoint forOf {A S : Type} (body : A -> S -> option S) (l : list A) (s : S)
    : option S :=
  match l with
  | [] => Some s
  | x :: l' =>
      match body x s with
      | Some s' => forOf body l' s'
      | None => None
      end
  end.

(** [`${currentKey}->${targetKey}`]. *)
Definition visitedKeyOf (currentKey targetKey : string) : string :=
  (currentKey ++ "->" ++ targetKey)%string.

Definition targetKeyOf (edge : ImpactEdge) : string :=
  entityKey (ie_targetType edge) (ie_targetId edge).

(** [currentImpact * edge.impactWeight * impactMultiplier * severityWeight]. *)
Definition propagatedImpactOf (currentImpact : Q) (edge : ImpactEdge) : Q :=
  currentImpact * ie_impactWeight edge
  * IMPACT_TYPE_MULTIPLIERS (ie_impactType edge)
  * SEVERITY_WEIGHTS (ie_targetType edge).

(** The three tests at the head of the loop body that [continue] without
    touching any state. *)
Definition skipped (eng : PropagationEngine) (edge : ImpactEdge) : bool :=
  negb (ie_isActive edge)
  || (String.eqb (ie_impactType edge) "Indirect" && negb (eng_includeIndirect eng))
  || (String.eqb (ie_impactType edge) "Conditional"
      && match ie_conditions edge with
         | Some conditions => negb (evaluateConditions conditions)
         | None => false
         end).

(** The update of the target node once an edge is accepted. *)
Definition touchNode (db : Db) (edge : ImpactEdge) (propagatedImpact : Q)
    (depth : nat) (pathEntry : PropagationPath) (nodes : OMap.t PropagationNode)
    : OMap.t PropagationNode :=
  let targetKey := targetKeyOf edge in
  match OMap.get targetKey nodes with
  | Some existingNode =>
      OMap.set targetKey
        (mkPropagationNode (pn_id existingNode) (pn_type existingNode)
           (pn_name existingNode)
           (js_max (pn_impactScore existingNode) propagatedImpact)
           (pn_depth existingNode)
           (pn_path existingNode ++ [pathEntry]))
        nodes
  | None =>
      OMap.set targetKey
        (mkPropagationNode (ie_targetId edge) (ie_targetType edge)
           (entityNameOrId db (ie_targetType edge) (ie_targetId edge))
           propagatedImpact (depth + 1)%nat [pathEntry])
        nodes
  end.

(** One turn of the loop of [propagateBFS] over the outgoing edges of the
    current node; [recur] is the recursive call. *)
Definition visitEdge (eng : PropagationEngine) (db : Db)
    (recur : EntityType -> string -> Q -> nat -> TraversalState -> option TraversalState)
    (currentType : EntityType) (currentId : string) (currentImpact : Q)
    (depth : nat) (edge : ImpactEdge) (st : TraversalState)
    : option TraversalState :=
  if skipped eng edge then Some st
  else
    let currentKey := entityKey currentType currentId in
    let targetKey := targetKeyOf edge in
    let visitedKey := visitedKeyOf currentKey targetKey in
    if StrSet.has visitedKey (ts_visited st) then Some st
    else
      let visited' := StrSet.add visitedKey (ts_visited st) in
      let propagatedImpact := propagatedImpactOf currentImpact edge in
      if Qlt_bool propagatedImpact (eng_impactThreshold eng) then
        Some (mkTraversalState visited' (ts_nodes st) (ts_edges st))
      else
        let pathEntry :=
          mkPropagationPath currentType currentId (ie_targetType edge)
            (ie_targetId edge) (ie_impactWeight edge) (ie_impactType edge) in
        recur (ie_targetType edge) (ie_targetId edge) propagatedImpact (depth + 1)%nat
          (mkTraversalState visited'
             (touchNode db edge propagatedImpact depth pathEntry (ts_nodes st))
             (ts_edges st ++ [pathEntry])).

(** [this.graph.outgoing.get(currentKey) ?? []]. *)
Definition outgoingEdges (graph : DependencyGraph) (currentKey : string)
    : list ImpactEdge :=
  match OMap.get currentKey (outgoing graph) with
  | Some es => es
  | None => []
  end.

(** [propagateBFS], for an engine whose graph is loaded.  The recursion of the
    source is not structural; [fuel] bounds its depth, and [None] means the
    bound was reached.  [propagateBFS_total] below shows that the fuel
    [propagate] supplies is never used up. *)
Fixpoint propagateBFS (fuel : nat) (eng : PropagationEngine) (db : Db)
    (graph : DependencyGraph) (currentType : EntityType) (currentId : string)
    (currentImpact : Q) (depth : nat) (st : TraversalState)
    : option TraversalState :=
  match fuel with
  | O => None
  | S fuel' =>
      if Qle_bool (eng_maxDepth eng) (inject_Z (Z.of_nat depth)) then Some st
      else if Qlt_bool currentImpact (eng_impactThreshold eng) then Some st
      else
        forOf
          (visitEdge eng db (propagateBFS fuel' eng db graph)
             currentType currentId currentImpact depth)
          (outgoingEdges graph (entityKey currentType currentId)) st
  end.

(** Every (bucket key, edge) pair of the outgoing index. *)
Definition graphPairs (graph : DependencyGraph) : list (string * ImpactEdge) :=
  flat_map (fun kes => map (fun e => (fst kes, e)) (snd kes)) (outgoing graph).

(** The recursion depth never exceeds the number of distinct visited keys plus
    one. *)
Definition fuelFor (graph : DependencyGraph) : nat :=
  S (List.length (graphPairs graph)).

(** The body of [propagate] once [this.graph] is set. *)
Definition propagateOn (eng : PropagationEngine) (db : Db)
    (graph : DependencyGraph) (config : PropagationConfig)
    : option PropagationResult :=
  let sourceType := cfg_sourceType config in
  let sourceId := cfg_sourceId config in
  let initialImpact :=
    match cfg_initialImpact config with Some i => i | None => 1 end in
  let sourceKey := entityKey sourceType sourceId in
  let nodes :=
    OMap.set sourceKey
      (mkPropagationNode sourceId sourceType
         (entityNameOrId db sourceType sourceId) initialImpact 0 [])
      OMap.empty in
  match
    propagateBFS (fuelFor graph) eng db graph sourceType sourceId
      initialImpact 0 (mkTraversalState [] nodes [])
  with
  | None => None
  | Some st =>
      Some
        (mkPropagationResult sourceId sourceType
           (Z.of_nat (OMap.size (ts_nodes st)) - 1)%Z
           (fold_right Nat.max 0%nat (map pn_depth (OMap.values (ts_nodes st))))
           (ts_nodes st) (ts_edges st))
  end.

(** [initialize]. *)
Definition initialize (eng : PropagationEngine) (db : Db)
    (c : MemoryCache DependencyGraph) (now : Z)
    : PropagationEngine * MemoryCache DependencyGraph :=
  let '(graph, c') := buildDependencyGraph db c now (eng_tenantId eng) in
  (mkPropagationEngine (eng_tenantId eng) (Some graph) (eng_maxDepth eng)
     (eng_impactThreshold eng) (eng_includeIndirect eng),
   c').

(** [propagate(config)].  Only [sourceType], [sourceId] and [initialImpact] of
    the configuration are read: depth cap, threshold and indirect switch are
    those of the engine. *)
Definition propagate (eng : PropagationEngine) (db : Db)
    (c : MemoryCache DependencyGraph) (now : Z) (config : PropagationConfig)
    : option PropagationResult * PropagationEngine * MemoryCache DependencyGraph :=
  let '(eng1, c1) :=
    match eng_graph eng with
    | Some _ => (eng, c)
    | None => initialize eng db c now
    end in
  match eng_graph eng1 with
  | Some graph => (propagateOn eng1 db graph config, eng1, c1)
  | None => (None, eng1, c1)
  end.

(** [PropagationEngine.getRiskLevel]. *)
Definition getRiskLevel (impactScore : Q) : string :=
  if Qle_bool (9 # 10) impactScore then "Critical"
  else if Qle_bool (7 # 10) impactScore then "High"
  else if Qle_bool (5 # 10) impactScore then "Medium"
  else "Low".

(** [getInitialImpactFromSeverity]. *)
Definition getInitialImpactFromSeverity (severity : option string) : Q :=
  match severity with
  | Some s =>
      if String.eqb s "Critical" then 1
      else if String.eqb s "High" then 8 # 10
      else if String.eqb s "Medium" then 5 # 10
      else if String.eqb s "Low" then 3 # 10
      else 5 # 10
  | None => 5 # 10
  end.

(* --------------------------------------------------------------------- *)
(** ** class [TimelineSimulationEngine]: [calculateDeltas]                *)
(* --------------------------------------------------------------------- *)

Record SimulationState : Type := mkSimulationState {
  ss_timestamp : Z;
  ss_entityImpacts : OMap.t Q;
  ss_regulationCount : nat
}.

Record SimulationDelta : Type := mkSimulationDelta {
  sd_entityKey : string;
  sd_beforeValue : Q;
  sd_afterValue : Q;
  sd_delta : Q;
  sd_percentChange : Q
}.

(** [m.get(key) ?? 0]. *)
Definition impactOr0 (key : string) (m : OMap.t Q) : Q :=
  match OMap.get key m with Some v => v | None => 0 end.

(** The body of [allKeys.forEach]: the entry pushed for [key], if any. *)
Definition deltaFor (before after : SimulationState) (key : string)
    : list SimulationDelta :=
  let beforeValue := impactOr0 key (ss_entityImpacts before) in
  let afterValue := impactOr0 key (ss_entityImpacts after) in
  let delta := afterValue - beforeValue in
  if Qlt_bool (1 # 100) (js_abs delta) then
    [mkSimulationDelta key beforeValue afterValue delta
       (if negb (Qeq_bool beforeValue 0) then (delta / beforeValue) * 100
        else 100)]
  else [].

Definition calculateDeltas (before after : SimulationState)
    : list SimulationDelta :=
  let allKeys :=
    StrSet.of_list
      (OMap.keys (ss_entityImpacts before) ++ OMap.keys (ss_entityImpacts after)) in
  let deltas := flat_map (deltaFor before after) allKeys in
  js_sort (fun a b => js_abs (sd_delta b) - js_abs (sd_delta a)) deltas.

(* --------------------------------------------------------------------- *)
(** ** class [RiskIndexCalculator]                                        *)
(* --------------------------------------------------------------------- *)

(** A value of the map [entityRisks]. *)
Record EntityRisk : Type := mkEntityRisk {
  er_totalRisk : Q;
  er_factors : OMap.t Q
}.

(** [RiskCalculationResult].  [rr_entityType] and [rr_entityId] are the first
    two pieces of [key.split(":")]; the second is [None] when there is none. *)
Record RiskCalculationResult : Type := mkRiskCalculationResult {
  rr_entityType : string;
  rr_entityId : option string;
  rr_baseRiskScore : Q;
  rr_adjustedRiskScore : Q;
  rr_riskLevel : string;
  rr_riskFactors : OMap.t Q
}.

(** [getSeverityMultiplier]. *)
Definition getSeverityMultiplier (severity : option string) : Q :=
  match severity with
  | Some s =>
      if String.eqb s "Critical" then 2
      else if String.eqb s "High" then 15 # 10
      else if String.eqb s "Medium" then 1
      else if String.eqb s "Low" then 5 # 10
      else 1
  | None => 1
  end.

(** [key.split(":")]: [splitColon acc s] returns the pieces of [s], the first
    one prefixed by the characters of [acc] in reverse. *)
Fixpoint splitColon (acc : string) (s : string) : list string :=
  match s with
  | EmptyString => [acc]
  | String c s' =>
      if Ascii.eqb c ":"%char then acc :: splitColon EmptyString s'
      else splitColon (acc ++ String c EmptyString)%string s'
  end.

Definition split (key : string) : list string := splitColon EmptyString key.

(** [db.regulation.findMany({ where: { tenantId, status: "Active" } })]. *)
Definition findActiveRegulations (db : Db) (tenantId : string) : list Regulation :=
  filter
    (fun r => String.eqb (reg_tenantId r) tenantId && String.eqb (reg_status r) "Active")
    (db_regulations db).

(** The body of [result.nodes.forEach] for one node of one regulation. *)
Definition addNodeRisk (regulation : Regulation) (risks : OMap.t EntityRisk)
    (kn : string * PropagationNode) : OMap.t EntityRisk :=
  let '(key, node) := kn in
  let risks1 :=
    if OMap.has key risks then risks
    else OMap.set key (mkEntityRisk 0 OMap.empty) risks in
  match OMap.get key risks1 with
  | Some entity =>
      OMap.set key
        (mkEntityRisk
           (er_totalRisk entity
            + pn_impactScore node * getSeverityMultiplier (reg_severity regulation))
           (OMap.set (reg_id regulation) (pn_impactScore node) (er_factors entity)))
        risks1
  | None => risks1
  end.

(** The configuration [calculateAllRisks] hands to [propagate]. *)
Definition riskConfig (tenantId : string) (regulation : Regulation)
    : PropagationConfig :=
  mkPropagationConfig tenantId REGULATION (reg_id regulation) None (Some 10)
    None None.

(** The loop [for (const regulation of regulations)]; each turn builds a new
    engine, so each turn loads the graph through the cache. *)
Fixpoint aggregateRisks (tenantId : string) (db : Db)
    (c : MemoryCache DependencyGraph) (now : Z) (regulations : list Regulation)
    (risks : OMap.t EntityRisk)
    : option (OMap.t EntityRisk) * MemoryCache DependencyGraph :=
  match regulations with
  | [] => (Some risks, c)
  | regulation :: rest =>
      let engine := newEngine tenantId None None None in
      let '(result, _, c1) :=
        propagate engine db c now (riskConfig tenantId regulation) in
      match result with
      | None => (None, c1)
      | Some r =>
          aggregateRisks tenantId db c1 now rest
            (fold_left (addNodeRisk regulation) (pr_nodes r) risks)
      end
  end.

(** The body of [entityRisks.forEach]: the result pushed for one entry. *)
Definition toResult (regulationsCount : nat) (kd : string * EntityRisk)
    : RiskCalculationResult :=
  let '(key, data) := kd in
  let parts := split key in
  let base := er_totalRisk data / inject_Z (Z.of_nat regulationsCount) in
  mkRiskCalculationResult (hd EmptyString parts) (nth_error parts 1)
    base (er_totalRisk data) (getRiskLevel base) (er_factors data).

(** [calculateAllRisks], for the calculator of [tenantId]; the clock does not
    advance during the call. *)
Definition calculateAllRisks (tenantId : string) (db : Db)
    (c : MemoryCache DependencyGraph) (now : Z)
    : option (list RiskCalculationResult) * MemoryCache DependencyGraph :=
  let regulations := findActiveRegulations db tenantId in
  let '(entityRisks, c') :=
    aggregateRisks tenantId db c now regulations OMap.empty in
  match entityRisks with
  | None => (None, c')
  | Some risks =>
      (Some
         (js_sort
            (fun a b => rr_adjustedRiskScore b - rr_adjustedRiskScore a)
            (map (toResult (List.length regulations)) risks)),
       c')
  end.

(* --------------------------------------------------------------------- *)
(** ** Vocabulary of the statements                                       *)
(* --------------------------------------------------------------------- *)


(** The two ways in which the loop body of [propagateBFS] changes the state:
    it marks the edge as visited and drops it on the threshold, or it marks
    the edge and accepts it. *)
Definition markVisited (visitedKey : string) (st : TraversalState)
    : TraversalState :=
  mkTraversalState (StrSet.add visitedKey (ts_visited st)) (ts_nodes st)
    (ts_edges st).

Definition acceptEdge (db : Db) (currentType : EntityType) (currentId : string)
    (currentImpact : Q) (depth : nat) (edge : ImpactEdge) (st : TraversalState)
    : TraversalState :=
  let pathEntry :=
    mkPropagationPath currentType currentId (ie_targetType edge)
      (ie_targetId edge) (ie_impactWeight edge) (ie_impactType edge) in
  mkTraversalState
    (StrSet.add
       (visitedKeyOf (entityKey currentType currentId) (targetKeyOf edge))
       (ts_visited st))
    (touchNode db edge (propagatedImpactOf currentImpact edge) depth pathEntry
       (ts_nodes st))
    (ts_edges st ++ [pathEntry]).

(** The state in which [propagate] starts the traversal: nothing visited, the
    source node alone in the map, no edge. *)
Definition initialImpactOf (config : PropagationConfig) : Q :=
  match cfg_initialImpact config with Some i => i | None => 1 end.

Definition sourceNodeOf (db : Db) (config : PropagationConfig) : PropagationNode :=
  mkPropagationNode (cfg_sourceId config) (cfg_sourceType config)
    (entityNameOrId db (cfg_sourceType config) (cfg_sourceId config))
    (initialImpactOf config) 0 [].

Definition sourceKeyOf (config : PropagationConfig) : string :=
  entityKey (cfg_sourceType config) (cfg_sourceId config).

Definition initialState (db : Db) (config : PropagationConfig) : TraversalState :=
  mkTraversalState [] [(sourceKeyOf config, sourceNodeOf db config)] [].

(** The node keys [u] and [v] of a traversed edge [u -> v]. *)
Definition pathSourceKey (p : PropagationPath) : string :=
  entityKey (pp_sourceType p) (pp_sourceId p).

Definition pathTargetKey (p : PropagationPath) : string :=
  entityKey (pp_targetType p) (pp_targetId p).

Definition pathKeys (p : PropagationPath) : string * string :=
  (pathSourceKey p, pathTargetKey p).

(** The visited key under which the traversal recorded the edge. *)
Definition pathVisitedKey (p : PropagationPath) : string :=
  visitedKeyOf (pathSourceKey p) (pathTargetKey p).

(** The visited key of a (bucket key, edge) pair of the graph. *)
Definition pairVisitedKey (ke : string * ImpactEdge) : string :=
  visitedKeyOf (fst ke) (targetKeyOf (snd ke)).

(** The pairs of the graph whose visited key is not in [visited]. *)
Definition unvisited (graph : DependencyGraph) (visited : StrSet.t)
    : list (string * ImpactEdge) :=
  filter (fun ke => negb (StrSet.has (pairVisitedKey ke) visited))
    (graphPairs graph).

(** Every accepted edge is recorded in the visited set, under a key no other
    accepted edge has. *)
Definition edgesRecorded (st : TraversalState) : Prop :=
  NoDup (map pathVisitedKey (ts_edges st))
  /\ forall p, In p (ts_edges st) -> In (pathVisitedKey p) (ts_visited st).

(** The source node keeps depth 0 and a score no lower than the initial
    impact, and it keeps the initial impact itself as long as no accepted edge
    leads into the source. *)
Definition sourceKept (config : PropagationConfig) (st : TraversalState) : Prop :=
  exists node,
    OMap.get (sourceKeyOf config) (ts_nodes st) = Some node
    /\ pn_depth node = 0%nat
    /\ initialImpactOf config <= pn_impactScore node
    /\ ((forall p, In p (ts_edges st) -> pathTargetKey p <> sourceKeyOf config) ->
        pn_impactScore node = initialImpactOf config).

(** An edge out of a node expanded with impact [currentImpact] survives when it
    passes the three tests of [skipped] and the threshold. *)
Definition survives (eng : PropagationEngine) (currentImpact : Q)
    (edge : ImpactEdge) : bool :=
  negb (skipped eng edge)
  && negb (Qlt_bool (propagatedImpactOf currentImpact edge)
             (eng_impactThreshold eng)).

(** A graph is tree-shaped as a whole, seen from [sourceKey], when no node key
    is the target of two edges, the source is the target of none, and
    different edges have different visited keys. *)
Definition treeShaped (graph : DependencyGraph) (sourceKey : string) : Prop :=
  NoDup (map (fun ke => targetKeyOf (snd ke)) (graphPairs graph))
  /\ ~ In sourceKey (map (fun ke => targetKeyOf (snd ke)) (graphPairs graph))
  /\ NoDup (map pairVisitedKey (graphPairs graph)).

(** Every edge of the graph into the node [key] has been visited. *)
Definition incomingVisited (graph : DependencyGraph) (visited : StrSet.t)
    (key : string) : Prop :=
  forall ke,
    In ke (graphPairs graph) -> targetKeyOf (snd ke) = key ->
    In (pairVisitedKey ke) visited.

(** An edge out of a node is visited only after every edge into that node. *)
Definition parentsFirst (graph : DependencyGraph) (visited : StrSet.t) : Prop :=
  forall ke,
    In ke (graphPairs graph) -> In (pairVisitedKey ke) visited ->
    incomingVisited graph visited (fst ke).

(** The state of the visited set when the loop over the outgoing edges of
    [key] still has the edges [es] before it. *)
Definition loopReady (graph : DependencyGraph) (visited : StrSet.t)
    (key : string) (es : list ImpactEdge) : Prop :=
  parentsFirst graph visited
  /\ incomingVisited graph visited key
  /\ (forall e, In e es ->
        In (key, e) (graphPairs graph)
        /\ ~ In (visitedKeyOf key (targetKeyOf e)) visited)
  /\ NoDup (map (fun e => visitedKeyOf key (targetKeyOf e)) es).

(** The visited keys of [visited'] that are new with respect to [visited]
    belong to edges out of [key] or out of a node into which some edge was
    not yet visited. *)
Definition visitedBelow (graph : DependencyGraph) (visited : StrSet.t)
    (key : string) (visited' : StrSet.t) : Prop :=
  incl visited visited'
  /\ forall ke,
       In ke (graphPairs graph) -> In (pairVisitedKey ke) visited' ->
       In (pairVisitedKey ke) visited
       \/ fst ke = key
       \/ exists ke0,
            In ke0 (graphPairs graph)
            /\ targetKeyOf (snd ke0) = fst ke
            /\ ~ In (pairVisitedKey ke0) visited.

(** The engine of [tenantId] with another threshold. *)
Definition withThreshold (eng : PropagationEngine) (impactThreshold : Q)
    : PropagationEngine :=
  mkPropagationEngine (eng_tenantId eng) (eng_graph eng) (eng_maxDepth eng)
    impactThreshold (eng_includeIndirect eng).

(** The engine [calculateAllRisks] builds for a regulation, once its graph is
    loaded. *)
Definition loadedEngine (tenantId : string) (graph : DependencyGraph)
    : PropagationEngine :=
  mkPropagationEngine tenantId (Some graph) 10 (1 # 100) true.

(** The node map and the edge list of the propagation [calculateAllRisks] runs
    for one regulation over [graph]. *)
Definition regulationNodes (tenantId : string) (db : Db)
    (graph : DependencyGraph) (regulation : Regulation)
    : OMap.t PropagationNode :=
  match
    propagateOn (loadedEngine tenantId graph) db graph
      (riskConfig tenantId regulation)
  with
  | Some r => pr_nodes r
  | None => []
  end.

Definition regulationEdges (tenantId : string) (db : Db)
    (graph : DependencyGraph) (regulation : Regulation)
    : list PropagationPath :=
  match
    propagateOn (loadedEngine tenantId graph) db graph
      (riskConfig tenantId regulation)
  with
  | Some r => pr_edges r
  | None => []
  end.

(** What one regulation adds to the total risk of the node [key]: the score of
    the node in that regulation's propagation, times the multiplier of the
    regulation's severity; nothing when the node is not reached. *)
Definition riskContribution (tenantId : string) (db : Db)
    (graph : DependencyGraph) (key : string) (regulation : Regulation) : Q :=
  match OMap.get key (regulationNodes tenantId db graph regulation) with
  | Some node =>
      pn_impactScore node * getSeverityMultiplier (reg_severity regulation)
  | None => 0
  end.

(** The sum of the contributions of the given regulations. *)
Definition totalRiskOf (tenantId : string) (db : Db) (graph : DependencyGraph)
    (regulations : list Regulation) (key : string) : Q :=
  fold_left (fun acc regulation =>
               acc + riskContribution tenantId db graph key regulation)
    regulations 0.

(** The entry of [key] in the entity-risk map, or the entry [addNodeRisk]
    creates for a new key. *)
Definition riskOrNew (key : string) (risks : OMap.t EntityRisk) : EntityRisk :=
  match OMap.get key risks with
  | Some entity => entity
  | None => mkEntityRisk 0 OMap.empty
  end.

(** The graph of [tenantId] is cached and has not expired at time [now]. *)
Definition cachedGraph (c : MemoryCache DependencyGraph) (now : Z)
    (tenantId : string) (graph : DependencyGraph) : Prop :=
  exists entry,
    OMap.get (Cache.generateKey tenantId (CacheKeys.dependencyGraph tenantId))
      (mc_cache c) = Some entry
    /\ ce_data entry = graph
    /\ (now <= ce_expiresAt entry)%Z.

(** The entity-risk map after the regulations have been aggregated, given the
    graph every propagation runs on. *)
Definition risksAfter (tenantId : string) (db : Db) (graph : DependencyGraph)
    (regulations : list Regulation) (risks : OMap.t EntityRisk)
    : OMap.t EntityRisk :=
  fold_left
    (fun acc regulation =>
       fold_left (addNodeRisk regulation)
         (regulationNodes tenantId db graph regulation) acc)
    regulations risks.

(** Whether an id contains a colon. *)
Fixpoint hasColon (s : string) : bool :=
  match s with
  | EmptyString => false
  | String c s' => Ascii.eqb c ":"%char || hasColon s'
  end.

(* --------------------------------------------------------------------- *)
(** ** Concrete scenarios                                                 *)
(* --------------------------------------------------------------------- *)

Module Scenario.

Definition tenant : string := "T1".

(** An active edge of tenant [T1] without a condition object. *)
Definition edge (sourceType : EntityType) (sourceId : string)
    (targetType : EntityType) (targetId : string) (weight : Q)
    (impactType : string) : ImpactEdge :=
  mkImpactEdge (sourceId ++ "-" ++ targetId)%string tenant sourceType sourceId
    targetType targetId weight impactType None true.

Definition db (edges : list ImpactEdge) (regulations : list Regulation) : Db :=
  mkDb edges regulations (fun _ _ => None).

Definition config (sourceType : EntityType) (sourceId : string) : PropagationConfig :=
  mkPropagationConfig tenant sourceType sourceId (Some 1) None None None.

(** The engine with its default options. *)
Definition engine : PropagationEngine := newEngine tenant None None None.

(** The engine with a chosen threshold. *)
Definition engineAt (impactThreshold : Q) : PropagationEngine :=
  newEngine tenant None (Some impactThreshold) None.

(** The node keys of a result. *)
Definition nodeKeys (r : option PropagationResult) : list string :=
  match r with Some res => OMap.keys (pr_nodes res) | None => [] end.

(** The edges of a result as (source id, target id) pairs. *)
Definition edgeIds (r : option PropagationResult) : list (string * string) :=
  match r with
  | Some res => map (fun p => (pp_sourceId p, pp_targetId p)) (pr_edges res)
  | None => []
  end.

(** Scenario 1: a regulation without outgoing edges. *)
Definition isolated : DependencyGraph := buildGraph [].

(** Scenario 2: R1 -> D1 (0.5, Direct), D1 -> B1 (0.8, Direct). *)
Definition twoHop : DependencyGraph :=
  buildGraph
    [edge REGULATION "R1" DEPARTMENT "D1" (1 # 2) "Direct";
     edge DEPARTMENT "D1" BUDGET "B1" (8 # 10) "Direct"].

(** Scenario 4: A -> B and B -> A, both 0.9 and Direct. *)
Definition twoCycle : DependencyGraph :=
  buildGraph
    [edge DEPARTMENT "A" DEPARTMENT "B" (9 # 10) "Direct";
     edge DEPARTMENT "B" DEPARTMENT "A" (9 # 10) "Direct"].

(** A node [U] reached first along a weak path (S -> A -> U) and then along
    a strong one (S -> U), with one edge U -> V behind it. *)
Definition diamond : DependencyGraph :=
  buildGraph
    [edge DEPARTMENT "S" DEPARTMENT "A" (1 # 8) "Direct";
     edge DEPARTMENT "A" DEPARTMENT "U" 1 "Direct";
     edge DEPARTMENT "U" DEPARTMENT "V" (1 # 4) "Direct";
     edge DEPARTMENT "S" DEPARTMENT "U" 1 "Direct"].

(** As [diamond], with two edges U -> V -> W behind [U]: at a low threshold
    every edge of the weak path S -> A -> U -> V is accepted. *)
Definition weakFirst : DependencyGraph :=
  buildGraph
    [edge DEPARTMENT "S" DEPARTMENT "A" (1 # 8) "Direct";
     edge DEPARTMENT "A" DEPARTMENT "U" 1 "Direct";
     edge DEPARTMENT "U" DEPARTMENT "V" 1 "Direct";
     edge DEPARTMENT "V" DEPARTMENT "W" (1 # 4) "Direct";
     edge DEPARTMENT "S" DEPARTMENT "U" 1 "Direct"].

(** A source with two children, the first of which has a child of its own. *)
Definition fork : DependencyGraph :=
  buildGraph
    [edge DEPARTMENT "S" DEPARTMENT "A" 1 "Direct";
     edge DEPARTMENT "A" DEPARTMENT "B" 1 "Direct";
     edge DEPARTMENT "S" DEPARTMENT "C" 1 "Direct"].

(** A regulation and a department that point at each other. *)
Definition backEdge : list ImpactEdge :=
  [edge REGULATION "R1" DEPARTMENT "D1" 1 "Direct";
   edge DEPARTMENT "D1" REGULATION "R1" 1 "Direct"].

(** One Conditional edge R1 -> D1 with the given condition object. *)
Definition conditional (conditions : Conditions) : DependencyGraph :=
  buildGraph
    [mkImpactEdge "c1" tenant REGULATION "R1" DEPARTMENT "D1" 1 "Conditional"
       (Some conditions) true].

(** Scenario 6: R1 (Critical) and R2 (Medium), each with one Direct edge of
    weight 1.0 to the department D1. *)
Definition twoRegulations : Db :=
  db
    [edge REGULATION "R1" DEPARTMENT "D1" 1 "Direct";
     edge REGULATION "R2" DEPARTMENT "D1" 1 "Direct"]
    [mkRegulation "R1" tenant "Active" (Some "Critical");
     mkRegulation "R2" tenant "Active" (Some "Medium")].

(** One active regulation on the graph [backEdge]. *)
Definition oneRegulationBackEdge : Db :=
  db backEdge [mkRegulation "R1" tenant "Active" (Some "Critical")].

(** The cache after tenant [B] has built and cached its graph at time 0. *)
Definition cacheOfB : MemoryCache DependencyGraph :=
  snd (buildDependencyGraph (db [] []) Cache.new 0 "B").

End Scenario.

(* --------------------------------------------------------------------- *)
(** ** [cache.ts]: the remaining methods                                  *)
(* --------------------------------------------------------------------- *)

Module CacheAdmin.
Section Ops.
Context {V : Type}.

(** [resetStats()]. *)
Definition resetStats (c : MemoryCache V) : MemoryCache V :=
  mkMemoryCache (mc_cache c) (mkCacheStats 0 0 0 (OMap.size (mc_cache c)))
    (mc_notified c).

(** [clear()]: [this.cache.clear(); this.stats.size = 0]. *)
Definition clear (c : MemoryCache V) : MemoryCache V :=
  let s := mc_stats c in
  mkMemoryCache OMap.empty (mkCacheStats (hits s) (misses s) (evictions s) 0)
    (mc_notified c).

(** [keys()]. *)
Definition keys (c : MemoryCache V) : list string := OMap.keys (mc_cache c).

(** [shutdown()]: the map is cleared, the statistics are left as they are. *)
Definition shutdown (c : MemoryCache V) : MemoryCache V :=
  mkMemoryCache OMap.empty (mc_stats c) (mc_notified c).
End Ops.
End CacheAdmin.

(** One call of a method of the cache. *)
Inductive CacheOp (V : Type) : Type :=
| OpSet (now : Z) (tenantId key : string) (data : V) (ttl : option Z)
    (tags : option (list string))
| OpGet (now : Z) (tenantId key : string)
| OpHas (now : Z) (tenantId key : string)
| OpDelete (tenantId key : string)
| OpInvalidateTenant (tenantId : string)
| OpInvalidateByTag (tag : string)
| OpInvalidateByTags (tags : list string)
| OpInvalidateRegulation (tenantId regulationId : string)
| OpInvalidateEntity (tenantId entityType entityId : string)
| OpInvalidateEdge (tenantId : string)
| OpCleanup (now : Z)
| OpClear
| OpResetStats.
Arguments OpSet {V}.
Arguments OpGet {V}.
Arguments OpHas {V}.
Arguments OpDelete {V}.
Arguments OpInvalidateTenant {V}.
Arguments OpInvalidateByTag {V}.
Arguments OpInvalidateByTags {V}.
Arguments OpInvalidateRegulation {V}.
Arguments OpInvalidateEntity {V}.
Arguments OpInvalidateEdge {V}.
Arguments OpCleanup {V}.
Arguments OpClear {V}.
Arguments OpResetStats {V}.

(** The cache after one call; [isNull] tells which values of [V] are [null]. *)
Definition applyOp {V : Type} (isNull : V -> bool) (c : MemoryCache V)
    (op : CacheOp V) : MemoryCache V :=
  match op with
  | OpSet now tenantId key data ttl tags => Cache.set c now tenantId key data ttl tags
  | OpGet now tenantId key => snd (Cache.get c now tenantId key)
  | OpHas now tenantId key => snd (Cache.has isNull c now tenantId key)
  | OpDelete tenantId key => snd (Cache.delete c tenantId key)
  | OpInvalidateTenant tenantId => snd (Cache.invalidateTenant c tenantId)
  | OpInvalidateByTag tag => snd (Cache.invalidateByTag c tag)
  | OpInvalidateByTags tags => snd (Cache.invalidateByTags c tags)
  | OpInvalidateRegulation tenantId regulationId =>
      Cache.invalidateRegulation c tenantId regulationId
  | OpInvalidateEntity tenantId entityType entityId =>
      Cache.invalidateEntity c tenantId entityType entityId
  | OpInvalidateEdge tenantId => Cache.invalidateEdge c tenantId
  | OpCleanup now => Cache.cleanup c now
  | OpClear => CacheAdmin.clear c
  | OpResetStats => CacheAdmin.resetStats c
  end.

(** The cache after a sequence of calls. *)
Definition applyOps {V : Type} (isNull : V -> bool) (c : MemoryCache V)
    (ops : list (CacheOp V)) : MemoryCache V :=
  fold_left (applyOp isNull) ops c.

(** The keys of the map are distinct and the [size] statistic is the number of
    entries. *)
Definition cacheConsistent {V : Type} (c : MemoryCache V) : Prop :=
  NoDup (OMap.keys (mc_cache c)) /\ size (mc_stats c) = OMap.size (mc_cache c).

(** The pair [notifyInvalidation] is called with for an entry of the map. *)
Definition notificationOf {V : Type} (kv : string * CacheEntry V)
    : string * list string :=
  (fst kv, ce_tags (snd kv)).

(** The tests of the first loop of [invalidateByTags] and of [cleanup]. *)
Definition carriesAny {V : Type} (tags : list string) (entry : CacheEntry V) : bool :=
  existsb (fun tag => Cache.includes tag (ce_tags entry)) tags.

Definition expiredAt {V : Type} (now : Z) (entry : CacheEntry V) : bool :=
  (ce_expiresAt entry <? now)%Z.

(** The number of reads the statistics account for. *)
Definition readsOf {V : Type} (c : MemoryCache V) : nat :=
  (hits (mc_stats c) + misses (mc_stats c))%nat.

(** What one call does to the number of [get] and [has] calls since the last
    [resetStats]. *)
Definition countRead {V : Type} (n : nat) (op : CacheOp V) : nat :=
  match op with
  | OpGet _ _ _ | OpHas _ _ _ => S n
  | OpResetStats => 0%nat
  | _ => n
  end.

(** The number of [get] and [has] calls since the last [resetStats]. *)
Definition readsSinceReset {V : Type} (ops : list (CacheOp V)) : nat :=
  fold_left countRead ops 0%nat.

(* --------------------------------------------------------------------- *)
(** ** Vocabulary for the adjacency lists                                 *)
(* --------------------------------------------------------------------- *)

(** [`${edge.sourceType}:${edge.sourceId}`]. *)
Definition sourceKeyOfEdge (edge : ImpactEdge) : string :=
  entityKey (ie_sourceType edge) (ie_sourceId edge).

(** The edges that leave, and that enter, the node of a key, in the order of
    the fetched rows. *)
Definition edgesFrom (key : string) (edges : list ImpactEdge) : list ImpactEdge :=
  filter (fun e => String.eqb (sourceKeyOfEdge e) key) edges.

Definition edgesInto (key : string) (edges : list ImpactEdge) : list ImpactEdge :=
  filter (fun e => String.eqb (targetKeyOf e) key) edges.

(** A bucket of an adjacency list: there is none for an empty list. *)
Definition bucketOf (edges : list ImpactEdge) : option (list ImpactEdge) :=
  match edges with
  | [] => None
  | _ :: _ => Some edges
  end.

(** One adjacency list built on its own. *)
Definition indexBy (keyOf : ImpactEdge -> string) (edges : list ImpactEdge)
    (m : OMap.t (list ImpactEdge)) : OMap.t (list ImpactEdge) :=
  fold_left (fun acc edge => pushEdge (keyOf edge) edge acc) edges m.

(* --------------------------------------------------------------------- *)
(** ** Vocabulary for the result of a traversal                           *)
(* --------------------------------------------------------------------- *)

(** The entry the loop body of [propagateBFS] records for an edge out of the
    node it expands. *)
Definition pathEntryOf (currentType : EntityType) (currentId : string)
    (edge : ImpactEdge) : PropagationPath :=
  mkPropagationPath currentType currentId (ie_targetType edge) (ie_targetId edge)
    (ie_impactWeight edge) (ie_impactType edge).

(** The recorded edges that lead into the node of a key. *)
Definition pathsInto (key : string) (edges : list PropagationPath)
    : list PropagationPath :=
  filter (fun p => String.eqb (pathTargetKey p) key) edges.

(** A later state of the same traversal: no node is lost and the edge list is
    extended at its end. *)
Definition extends (st st' : TraversalState) : Prop :=
  incl (OMap.keys (ts_nodes st)) (OMap.keys (ts_nodes st'))
  /\ exists added, ts_edges st' = ts_edges st ++ added.

(** The node keys that recorded edges connect to the source. *)
Inductive reached (sourceKey : string) (edges : list PropagationPath)
    : string -> Prop :=
| reached_source : reached sourceKey edges sourceKey
| reached_step (p : PropagationPath) :
    In p edges -> reached sourceKey edges (pathSourceKey p) ->
    reached sourceKey edges (pathTargetKey p).

(** The greatest depth among the nodes, as [propagate] computes [maxDepth]. *)
Definition maxDepthOf (nodes : OMap.t PropagationNode) : nat :=
  fold_right Nat.max 0%nat (map pn_depth (OMap.values nodes)).

(** The scores and depths of the nodes other than the source. *)
Definition passesThreshold (eng : PropagationEngine) (config : PropagationConfig)
    (nodes : OMap.t PropagationNode) : Prop :=
  forall k n,
    OMap.get k nodes = Some n -> k <> sourceKeyOf config ->
    eng_impactThreshold eng <= pn_impactScore n
    /\ (1 <= pn_depth n)%nat
    /\ inject_Z (Z.of_nat (pn_depth n)) < eng_maxDepth eng + 1.


(** The node map and the edge list of a traversal agree: the keys of the map
    are distinct, they are the source key and the target keys of the recorded
    edges, and each node holds its own key and, as its path, the recorded
    edges that lead into it. *)
Definition nodesMatchEdges (sourceKey : string) (st : TraversalState) : Prop :=
  NoDup (OMap.keys (ts_nodes st))
  /\ (forall k,
        In k (OMap.keys (ts_nodes st))
        <-> k = sourceKey \/ exists p, In p (ts_edges st) /\ pathTargetKey p = k)
  /\ (forall k n,
        OMap.get k (ts_nodes st) = Some n ->
        pn_path n = pathsInto k (ts_edges st)
        /\ k = entityKey (pn_type n) (pn_id n)).

(* --------------------------------------------------------------------- *)
(** ** [propagation.ts]: [getRegulationImpact] and [propagateImpact]      *)
(* --------------------------------------------------------------------- *)

(** [db.regulation.findUnique({ where: { id: regulationId } })]. *)
Definition findRegulation (db : Db) (regulationId : string) : option Regulation :=
  find (fun r => String.eqb (reg_id r) regulationId) (db_regulations db).

(** The configuration [getRegulationImpact] hands to [propagate]. *)
Definition impactConfig (tenantId regulationId : string) (regulation : Regulation)
    : PropagationConfig :=
  mkPropagationConfig tenantId REGULATION regulationId
    (Some (getInitialImpactFromSeverity (reg_severity regulation))) None None None.

(** [getRegulationImpact(regulationId)]: the outer [None] is the [null] it
    returns for a missing regulation. *)
Definition getRegulationImpact (eng : PropagationEngine) (db : Db)
    (c : MemoryCache DependencyGraph) (now : Z) (regulationId : string)
    : option (option PropagationResult) * PropagationEngine
      * MemoryCache DependencyGraph :=
  match findRegulation db regulationId with
  | None => (None, eng, c)
  | Some regulation =>
      let '(result, eng1, c1) :=
        propagate eng db c now (impactConfig (eng_tenantId eng) regulationId regulation) in
      (Some result, eng1, c1)
  end.

(** [propagateImpact(config)]: a new engine without options. *)
Definition propagateImpact (db : Db) (c : MemoryCache DependencyGraph) (now : Z)
    (config : PropagationConfig)
    : option PropagationResult * MemoryCache DependencyGraph :=
  let engine := newEngine (cfg_tenantId config) None None None in
  let '(result, _, c1) := propagate engine db c now config in
  (result, c1).

(** The order of the four risk levels. *)
Definition riskRank (level : string) : nat :=
  if String.eqb level "Critical" then 3
  else if String.eqb level "High" then 2
  else if String.eqb level "Medium" then 1
  else 0.

(* --------------------------------------------------------------------- *)
(** ** class [TimelineSimulationEngine]: [compareImpact]                  *)
(* --------------------------------------------------------------------- *)

Record SimulationComparison : Type := mkSimulationComparison {
  sc_regulationId : string;
  sc_beforeDate : Z;
  sc_afterDate : Z;
  sc_beforeState : SimulationState;
  sc_afterState : SimulationState;
  sc_deltas : list SimulationDelta
}.

(** The configuration [calculateStateBefore] and [calculateStateAfter] hand to
    [propagate]. *)
Definition timelineConfig (tenantId : string) (regulation : Regulation)
    : PropagationConfig :=
  mkPropagationConfig tenantId REGULATION (reg_id regulation) None (Some 5)
    None None.

(** [db.regulation.findMany({ where: { tenantId, effectiveDate: { lt: date },
    id: { not: regulation.id }, status: "Active" } })].  [effectiveDate] reads
    the column of that name, which the record [Regulation] leaves out. *)
Definition findExistingRegulations (db : Db) (effectiveDate : Regulation -> Z)
    (tenantId : string) (regulation : Regulation) (date : Z) : list Regulation :=
  filter
    (fun r =>
       String.eqb (reg_tenantId r) tenantId
       && (effectiveDate r <? date)%Z
       && negb (String.eqb (reg_id r) (reg_id regulation))
       && String.eqb (reg_status r) "Active")
    (db_regulations db).

(** The body of [result.nodes.forEach] in [calculateStateBefore]. *)
Definition addHalfImpact (aggregatedImpact : OMap.t Q)
    (kn : string * PropagationNode) : OMap.t Q :=
  let '(key, node) := kn in
  let existing := impactOr0 key aggregatedImpact in
  OMap.set key (existing + pn_impactScore node * (5 # 10)) aggregatedImpact.

(** The loop [for (const reg of existingRegulations)]: every turn propagates
    with the one engine of the simulation. *)
Fixpoint aggregateImpacts (tenantId : string) (eng : PropagationEngine) (db : Db)
    (c : MemoryCache DependencyGraph) (now : Z) (regulations : list Regulation)
    (aggregatedImpact : OMap.t Q)
    : option (OMap.t Q) * PropagationEngine * MemoryCache DependencyGraph :=
  match regulations with
  | [] => (Some aggregatedImpact, eng, c)
  | reg :: rest =>
      let '(result, eng1, c1) :=
        propagate eng db c now (timelineConfig tenantId reg) in
      match result with
      | None => (None, eng1, c1)
      | Some r =>
          aggregateImpacts tenantId eng1 db c1 now rest
            (fold_left addHalfImpact (pr_nodes r) aggregatedImpact)
      end
  end.

(** [calculateStateBefore(regulation, date)]. *)
Definition calculateStateBefore (tenantId : string) (eng : PropagationEngine)
    (db : Db) (c : MemoryCache DependencyGraph) (now : Z)
    (effectiveDate : Regulation -> Z) (regulation : Regulation) (date : Z)
    : option SimulationState * PropagationEngine * MemoryCache DependencyGraph :=
  let existingRegulations :=
    findExistingRegulations db effectiveDate tenantId regulation date in
  let '(aggregatedImpact, eng1, c1) :=
    aggregateImpacts tenantId eng db c now existingRegulations OMap.empty in
  (match aggregatedImpact with
   | Some impacts =>
       Some (mkSimulationState date impacts (List.length existingRegulations))
   | None => None
   end,
   eng1, c1).

(** [calculateStateAfter(regulation, date)]. *)
Definition calculateStateAfter (tenantId : string) (eng : PropagationEngine)
    (db : Db) (c : MemoryCache DependencyGraph) (now : Z)
    (regulation : Regulation) (date : Z)
    : option SimulationState * PropagationEngine * MemoryCache DependencyGraph :=
  let '(result, eng1, c1) :=
    propagate eng db c now (timelineConfig tenantId regulation) in
  (match result with
   | Some r =>
       Some
         (mkSimulationState date
            (fold_left
               (fun entityImpacts kn =>
                  OMap.set (fst kn) (pn_impactScore (snd kn)) entityImpacts)
               (pr_nodes r) OMap.empty)
            1)
   | None => None
   end,
   eng1, c1).

(** [compareImpact(regulationId, beforeDate, afterDate)] of the simulation
    engine of [tenantId]; [None] is the exception it throws for a missing
    regulation. *)
Definition compareImpact (tenantId : string) (db : Db)
    (c : MemoryCache DependencyGraph) (now : Z) (effectiveDate : Regulation -> Z)
    (regulationId : string) (beforeDate afterDate : Z)
    : option SimulationComparison * MemoryCache DependencyGraph :=
  let '(eng, c1) := initialize (newEngine tenantId None None None) db c now in
  match findRegulation db regulationId with
  | None => (None, c1)
  | Some regulation =>
      let '(before, eng2, c2) :=
        calculateStateBefore tenantId eng db c1 now effectiveDate regulation
          beforeDate in
      match before with
      | None => (None, c2)
      | Some beforeState =>
          let '(after, _, c3) :=
            calculateStateAfter tenantId eng2 db c2 now regulation afterDate in
          match after with
          | None => (None, c3)
          | Some afterState =>
              (Some
                 (mkSimulationComparison regulationId beforeDate afterDate
                    beforeState afterState
                    (calculateDeltas beforeState afterState)),
               c3)
          end
      end
  end.

(** The scores of a node map. *)
Definition scoresOf (nodes : OMap.t PropagationNode) : OMap.t Q :=
  map (fun kn => (fst kn, pn_impactScore (snd kn))) nodes.

(** What one earlier regulation adds to the before-value of the node [key]:
    half the score of the node in that regulation's propagation. *)
Definition halfScore (tenantId : string) (db : Db) (graph : DependencyGraph)
    (key : string) (regulation : Regulation) : Q :=
  match OMap.get key (regulationNodes tenantId db graph regulation) with
  | Some node => pn_impactScore node * (5 # 10)
  | None => 0
  end.

Definition halfTotalOf (tenantId : string) (db : Db) (graph : DependencyGraph)
    (regulations : list Regulation) (key : string) : Q :=
  fold_left (fun acc regulation => acc + halfScore tenantId db graph key regulation)
    regulations 0.

(** The aggregated map after the loop of [calculateStateBefore], given the
    graph every propagation runs on. *)
Definition halfImpactsAfter (tenantId : string) (db : Db) (graph : DependencyGraph)
    (regulations : list Regulation) (aggregatedImpact : OMap.t Q) : OMap.t Q :=
  fold_left
    (fun acc regulation =>
       fold_left addHalfImpact (regulationNodes tenantId db graph regulation) acc)
    regulations aggregatedImpact.

(* --------------------------------------------------------------------- *)
(** ** The routes that call the engine                                    *)
(* --------------------------------------------------------------------- *)

(** The [summary] object of the risks route. *)
Record RiskSummary : Type := mkRiskSummary {
  rs_totalEntities : nat;
  rs_criticalCount : nat;
  rs_highCount : nat;
  rs_mediumCount : nat;
  rs_lowCount : nat
}.

(** [risks.filter((r) => r.riskLevel === level).length]. *)
Definition countLevel (level : string) (risks : list RiskCalculationResult) : nat :=
  List.length (filter (fun r => String.eqb (rr_riskLevel r) level) risks).

Definition riskSummary (risks : list RiskCalculationResult) : RiskSummary :=
  mkRiskSummary (List.length risks) (countLevel "Critical" risks)
    (countLevel "High" risks) (countLevel "Medium" risks) (countLevel "Low" risks).

(** [n.type === validated.sourceType && n.id === validated.sourceId]. *)
Definition isSource (sourceType : EntityType) (sourceId : string)
    (n : PropagationNode) : bool :=
  String.eqb (entityTypeName (pn_type n)) (entityTypeName sourceType)
  && String.eqb (pn_id n) sourceId.

(** The [affectedEntities] of the propagation route:
    [Array.from(result.nodes.values()).filter(...).sort(...).slice(0, 200)]. *)
Definition affectedEntities (sourceType : EntityType) (sourceId : string)
    (result : PropagationResult) : list PropagationNode :=
  firstn 200
    (js_sort (fun a b => pn_impactScore b - pn_impactScore a)
       (filter (fun n => negb (isSource sourceType sourceId n))
          (OMap.values (pr_nodes result)))).

(* --------------------------------------------------------------------- *)
(** ** class [RiskIndexCalculator]: [getDepartmentRiskRanking]            *)
(* --------------------------------------------------------------------- *)

(** A value of the map [departmentRisks]. *)
Record DepartmentRisk : Type := mkDepartmentRisk {
  dk_totalRisk : Q;
  dk_count : nat;
  dk_entities : list string
}.

Record DepartmentRiskRanking : Type := mkDepartmentRiskRanking {
  rk_departmentId : string;
  rk_departmentName : string;
  rk_departmentCode : string;
  rk_riskScore : Q;
  rk_riskLevel : string;
  rk_affectedEntityCount : nat
}.

(** The loop [for (const risk of risks)].  The map is keyed by
    [risk.entityId]; [None] stands for a DEPARTMENT result without an id, the
    one case left out of the embedding; [calculateAllRisks] emits no such
    result, as shown below. *)
Fixpoint groupDepartments (risks : list RiskCalculationResult)
    (departmentRisks : OMap.t DepartmentRisk) : option (OMap.t DepartmentRisk) :=
  match risks with
  | [] => Some departmentRisks
  | risk :: rest =>
      if String.eqb (rr_entityType risk) "DEPARTMENT" then
        match rr_entityId risk with
        | Some entityId =>
            groupDepartments rest
              (OMap.set entityId
                 (mkDepartmentRisk (rr_adjustedRiskScore risk) 1 [entityId])
                 departmentRisks)
        | None => None
        end
      else groupDepartments rest departmentRisks
  end.

(** The body of [for (const [deptId, data] of departmentRisks)];
    [department deptId] is the row [db.department.findUnique] selects, as its
    [name] and [code], [None] when there is none. *)
Definition toRanking (department : string -> option (string * string))
    (entry : string * DepartmentRisk) : DepartmentRiskRanking :=
  let '(deptId, data) := entry in
  let dept := department deptId in
  mkDepartmentRiskRanking deptId
    (match dept with Some (name, _) => name | None => deptId end)
    (match dept with Some (_, code) => code | None => deptId end)
    (dk_totalRisk data) (getRiskLevel (dk_totalRisk data)) (dk_count data).

(** [getDepartmentRiskRanking()]. *)
Definition getDepartmentRiskRanking (tenantId : string) (db : Db)
    (department : string -> option (string * string))
    (c : MemoryCache DependencyGraph) (now : Z)
    : option (list DepartmentRiskRanking) * MemoryCache DependencyGraph :=
  let '(risks, c') := calculateAllRisks tenantId db c now in
  match risks with
  | None => (None, c')
  | Some rs =>
      match groupDepartments rs OMap.empty with
      | None => (None, c')
      | Some departmentRisks =>
          (Some
             (js_sort (fun a b => rk_riskScore b - rk_riskScore a)
                (map (toRanking department) departmentRisks)),
           c')
      end
  end.

(** The graph without the edges the loop body of [propagateBFS] skips for the
    engine: inactive edges, Indirect edges when the engine leaves them out,
    Conditional edges whose condition object is rejected. *)
Definition pruned (eng : PropagationEngine) (graph : DependencyGraph)
    : DependencyGraph :=
  mkDependencyGraph
    (map (fun kes => (fst kes, filter (fun e => negb (skipped eng e)) (snd kes)))
       (outgoing graph))
    (incoming graph) (allEdges graph).

(** The (bucket key, edge) pairs a traversal started inside [region] can use:
    the pairs whose key is in [region] and whose edge the loop body of
    [propagateBFS] does not skip. *)
Definition livePair (eng : PropagationEngine) (region : string -> bool)
    (ke : string * ImpactEdge) : bool :=
  region (fst ke) && negb (skipped eng (snd ke)).

Definition livePairs (eng : PropagationEngine) (region : string -> bool)
    (graph : DependencyGraph) : list (string * ImpactEdge) :=
  filter (livePair eng region) (graphPairs graph).

(** [region] holds the source and every node that an edge which is not skipped
    reaches from a node of [region]: it holds every node the traversal can
    reach from the source. *)
Definition closedFrom (eng : PropagationEngine) (graph : DependencyGraph)
    (sourceKey : string) (region : string -> bool) : Prop :=
  region sourceKey = true
  /\ forall key e,
       region key = true -> In e (outgoingEdges graph key) ->
       skipped eng e = false -> region (targetKeyOf e) = true.

(** The graph is tree-shaped below the source: among the pairs the traversal
    can use, no node key is the target of two edges, the source is the target
    of none, and different edges have different visited keys. *)
Definition treeShapedBelow (eng : PropagationEngine) (graph : DependencyGraph)
    (sourceKey : string) (region : string -> bool) : Prop :=
  closedFrom eng graph sourceKey region
  /\ NoDup (map (fun ke => targetKeyOf (snd ke)) (livePairs eng region graph))
  /\ ~ In sourceKey (map (fun ke => targetKeyOf (snd ke)) (livePairs eng region graph))
  /\ NoDup (map pairVisitedKey (livePairs eng region graph)).

(** The node keys that edges which are not skipped connect to the source. *)
Inductive reachableKey (eng : PropagationEngine) (graph : DependencyGraph)
    (sourceKey : string) : string -> Prop :=
| reachable_source : reachableKey eng graph sourceKey sourceKey
| reachable_edge (key : string) (e : ImpactEdge) :
    reachableKey eng graph sourceKey key ->
    In e (outgoingEdges graph key) -> skipped eng e = false ->
    reachableKey eng graph sourceKey (targetKeyOf e).

(** The graph that holds the usable pairs only. *)
Definition liveSubgraph (eng : PropagationEngine) (region : string -> bool)
    (graph : DependencyGraph) : DependencyGraph :=
  mkDependencyGraph
    (map
       (fun kes =>
          (fst kes,
           if region (fst kes)
           then filter (fun e => negb (skipped eng e)) (snd kes)
           else []))
       (outgoing graph))
    (incoming graph) (allEdges graph).

(** The members of a list of node keys. *)
Definition inKeys (keys : list string) (key : string) : bool :=
  existsb (String.eqb key) keys.

(* ===================================================================== *)
(** * Part II. Properties                                                 *)
(* ===================================================================== *)

(** ** Numbers *)

Lemma Qlt_bool_iff (a b : Q) : Qlt_bool a b = true <-> a < b.
Proof.
  unfold Qlt_bool. rewrite negb_true_iff. split.
  - intros H. apply Qnot_le_lt. intro Hle.
    apply Qle_bool_iff in Hle. congruence.
  - intros H. destruct (Qle_bool b a) eqn:E; trivial.
    apply Qle_bool_iff in E. exfalso. exact (Qlt_not_le _ _ H E).
Qed.

Lemma js_max_lower (a b : Q) : a <= js_max a b.
Proof.
  unfold js_max. destruct (Qlt_bool a b) eqn:E.
  - apply Qlt_bool_iff in E. apply Qlt_le_weak. exact E.
  - apply Qle_refl.
Qed.

(** ** Strings *)

Lemma StrSet_has_iff (x : string) (s : StrSet.t) :
  StrSet.has x s = true <-> In x s.
Proof.
  unfold StrSet.has. rewrite existsb_exists. split.
  - intros [y [Hy E]]. apply String.eqb_eq in E. subst. exact Hy.
  - intros H. exists x. split; [exact H | apply String.eqb_refl].
Qed.

Lemma StrSet_has_false_iff (x : string) (s : StrSet.t) :
  StrSet.has x s = false <-> ~ In x s.
Proof.
  rewrite <- StrSet_has_iff. destruct (StrSet.has x s); split; congruence.
Qed.

Lemma StrSet_add_In (x y : string) (s : StrSet.t) :
  In y (StrSet.add x s) <-> y = x \/ In y s.
Proof.
  unfold StrSet.add. destruct (StrSet.has x s) eqn:E.
  - apply StrSet_has_iff in E. split; [tauto | intros [-> | H]; trivial].
  - rewrite in_app_iff. simpl. split; [intros [H | [H | []]] | intros [H | H]]; auto.
Qed.

Lemma StrSet_add_NoDup (x : string) (s : StrSet.t) :
  NoDup s -> NoDup (StrSet.add x s).
Proof.
  intros H. unfold StrSet.add. destruct (StrSet.has x s) eqn:E; trivial.
  apply StrSet_has_false_iff in E.
  apply NoDup_rev in H. rewrite <- (rev_involutive (s ++ [x])).
  apply NoDup_rev. rewrite rev_app_distr. simpl. constructor; trivial.
  rewrite <- in_rev. exact E.
Qed.

Lemma StrSet_fold_add (xs : list string) (s : StrSet.t) :
  NoDup s ->
  NoDup (fold_left (fun s x => StrSet.add x s) xs s)
  /\ (forall y, In y (fold_left (fun s x => StrSet.add x s) xs s) <-> In y s \/ In y xs).
Proof.
  revert s. induction xs as [| x xs IH]; intros s Hs; simpl.
  - split; [exact Hs | intros y; tauto].
  - destruct (IH (StrSet.add x s) (StrSet_add_NoDup x s Hs)) as [Hn Hi].
    split; [exact Hn |].
    intros y. rewrite Hi, StrSet_add_In. intuition (subst; auto).
Qed.

Lemma StrSet_of_list_spec (xs : list string) :
  NoDup (StrSet.of_list xs) /\ (forall y, In y (StrSet.of_list xs) <-> In y xs).
Proof.
  unfold StrSet.of_list.
  destruct (StrSet_fold_add xs [] (NoDup_nil _)) as [Hn Hi].
  split; [exact Hn |]. intros y. rewrite Hi. simpl. tauto.
Qed.

(** ** Maps *)

Section OMapFacts.
Context {V : Type}.
Implicit Types (m : OMap.t V) (k : string) (v : V).

Lemma get_set_same k v m : OMap.get k (OMap.set k v m) = Some v.
Proof.
  induction m as [| [k' v'] m IH]; simpl.
  - now rewrite String.eqb_refl.
  - destruct (String.eqb k k') eqn:E; simpl; rewrite E; trivial.
Qed.

Lemma get_set_other k k' v m :
  k <> k' -> OMap.get k' (OMap.set k v m) = OMap.get k' m.
Proof.
  intros Hne. induction m as [| [k0 v0] m IH]; simpl.
  - destruct (String.eqb k' k) eqn:E; trivial.
    apply String.eqb_eq in E. congruence.
  - destruct (String.eqb k k0) eqn:E; simpl.
    + apply String.eqb_eq in E. subst k0.
      destruct (String.eqb k' k) eqn:E'; trivial.
      apply String.eqb_eq in E'. congruence.
    + now rewrite IH.
Qed.

Lemma get_delete_same k m : OMap.get k (OMap.delete k m) = None.
Proof.
  unfold OMap.delete. induction m as [| [k' v'] m IH]; simpl; trivial.
  destruct (String.eqb k k') eqn:E; simpl; trivial. now rewrite E.
Qed.

Lemma get_delete_other k k' m :
  k <> k' -> OMap.get k' (OMap.delete k m) = OMap.get k' m.
Proof.
  intros Hne. unfold OMap.delete.
  induction m as [| [k0 v0] m IH]; simpl; trivial.
  destruct (String.eqb k k0) eqn:E; simpl.
  - apply String.eqb_eq in E. subst k0.
    destruct (String.eqb k' k) eqn:E'; trivial.
    apply String.eqb_eq in E'. congruence.
  - now rewrite IH.
Qed.

Lemma get_Some_In k v m : OMap.get k m = Some v -> In (k, v) m.
Proof.
  induction m as [| [k' v'] m IH]; simpl; [discriminate |].
  destruct (String.eqb k k') eqn:E.
  - apply String.eqb_eq in E. intros [= ->]. subst. now left.
  - intros H. right. auto.
Qed.

Lemma get_None_iff k m : OMap.get k m = None <-> ~ In k (OMap.keys m).
Proof.
  unfold OMap.keys. induction m as [| [k' v'] m IH]; simpl; [tauto |].
  destruct (String.eqb k k') eqn:E.
  - apply String.eqb_eq in E. subst. split; [discriminate | tauto].
  - apply String.eqb_neq in E. rewrite IH. split; [intros H [H1 | H1] | intros H H1];
      try congruence; tauto.
Qed.

Lemma has_iff k m : OMap.has k m = true <-> In k (OMap.keys m).
Proof.
  unfold OMap.has. destruct (OMap.get k m) eqn:E.
  - split; trivial. intros _.
    destruct (in_dec string_dec k (OMap.keys m)) as [H | H]; trivial.
    apply get_None_iff in H. congruence.
  - apply get_None_iff in E. split; [discriminate | tauto].
Qed.

Lemma keys_set k v m :
  OMap.keys (OMap.set k v m)
  = if OMap.has k m then OMap.keys m else OMap.keys m ++ [k].
Proof.
  unfold OMap.has, OMap.keys. induction m as [| [k' v'] m IH]; simpl; trivial.
  destruct (String.eqb k k') eqn:E; simpl; trivial.
  rewrite IH. destruct (OMap.get k m); trivial.
Qed.

Lemma In_keys_set k k' v m :
  In k' (OMap.keys (OMap.set k v m)) <-> k' = k \/ In k' (OMap.keys m).
Proof.
  rewrite keys_set. destruct (OMap.has k m) eqn:E.
  - apply has_iff in E. split; [tauto | intros [-> | H]; trivial].
  - rewrite in_app_iff. simpl. intuition.
Qed.

Lemma NoDup_keys_set k v m :
  NoDup (OMap.keys m) -> NoDup (OMap.keys (OMap.set k v m)).
Proof.
  intros H. rewrite keys_set. destruct (OMap.has k m) eqn:E; trivial.
  assert (Hk : ~ In k (OMap.keys m)).
  { intro Hin. apply has_iff in Hin. congruence. }
  apply NoDup_rev in H. rewrite <- (rev_involutive (OMap.keys m ++ [k])).
  apply NoDup_rev. rewrite rev_app_distr. simpl. constructor; trivial.
  now rewrite <- in_rev.
Qed.

End OMapFacts.

(** ** Sorting *)

Section SortFacts.
Context {A : Type} (compareFn : A -> A -> Q) (key : A -> Q).
Hypothesis compareFn_key : forall x y, compareFn x y == key y - key x.

Lemma compareFn_positive x y :
  Qlt_bool 0 (compareFn x y) = true <-> key x < key y.
Proof.
  rewrite Qlt_bool_iff, compareFn_key. split; intros H; lra.
Qed.

Lemma sort_insert_perm x l : Permutation (sort_insert compareFn x l) (x :: l).
Proof.
  induction l as [| y l IH]; simpl; [reflexivity |].
  destruct (Qlt_bool 0 (compareFn x y)); [| reflexivity].
  rewrite IH. apply perm_swap.
Qed.

Lemma js_sort_perm l : Permutation (js_sort compareFn l) l.
Proof.
  induction l as [| x l IH]; simpl; [reflexivity |].
  rewrite sort_insert_perm. now constructor.
Qed.

Lemma js_sort_In x l : In x (js_sort compareFn l) <-> In x l.
Proof.
  split; apply Permutation_in; [| symmetry]; apply js_sort_perm.
Qed.

Let descending (a b : A) : Prop := key b <= key a.

Lemma sort_insert_sorted x l :
  StronglySorted descending l ->
  StronglySorted descending (sort_insert compareFn x l).
Proof.
  induction l as [| y l IH]; intros Hs; simpl.
  - repeat constructor.
  - inversion Hs as [| ? ? Hs' Hall]; subst.
    destruct (Qlt_bool 0 (compareFn x y)) eqn:E.
    + apply compareFn_positive in E. constructor; [apply IH; exact Hs' |].
      apply Forall_forall. intros z Hz.
      apply (Permutation_in _ (sort_insert_perm x l)) in Hz.
      destruct Hz as [<- | Hz].
      * apply Qlt_le_weak. exact E.
      * rewrite Forall_forall in Hall. apply Hall. exact Hz.
    + assert (Hyx : key y <= key x).
      { apply Qnot_lt_le. intro Hlt. apply compareFn_positive in Hlt. congruence. }
      constructor; [exact Hs |]. constructor; [exact Hyx |].
      apply Forall_forall. intros z Hz.
      rewrite Forall_forall in Hall. unfold descending.
      apply Qle_trans with (key y); [apply Hall; exact Hz | exact Hyx].
Qed.

Lemma js_sort_sorted l : StronglySorted descending (js_sort compareFn l).
Proof.
  induction l as [| x l IH]; simpl; [constructor |].
  now apply sort_insert_sorted.
Qed.
End SortFacts.

(** ** The cache *)

Section CacheFacts.
Context {V : Type}.
Implicit Types (c : MemoryCache V) (e : CacheEntry V).






End CacheFacts.



Section InvalidationFacts.
Context {V : Type}.
Implicit Types (c : MemoryCache V) (e : CacheEntry V).

Lemma deleteKeys_get keysToDelete :
  forall (m : OMap.t (CacheEntry V)) notified k,
    OMap.get k (fst (Cache.deleteKeys keysToDelete m notified))
    = if existsb (String.eqb k) keysToDelete then None else OMap.get k m.
Proof.
  unfold Cache.deleteKeys.
  induction keysToDelete as [| key keys IH]; intros m notified k; simpl; trivial.
  destruct (OMap.get key m) as [entry |]; rewrite IH;
    (destruct (String.eqb k key) eqn:E; simpl;
     [ apply String.eqb_eq in E; subst key; rewrite get_delete_same;
       now destruct (existsb _ keys)
     | apply String.eqb_neq in E; rewrite get_delete_other by congruence;
       reflexivity ]).
Qed.

(** An invalidation removes every entry its test selects, whatever tenant
    stored it. *)
Lemma invalidateWhere_removes (selected : CacheEntry V -> bool) c k e :
  OMap.get k (mc_cache c) = Some e ->
  selected e = true ->
  OMap.get k (mc_cache (snd (Cache.invalidateWhere selected c))) = None.
Proof.
  intros Hget Hsel. unfold Cache.invalidateWhere.
  pose proof (deleteKeys_get
                (map fst (filter (fun kv => selected (snd kv)) (mc_cache c)))
                (mc_cache c) (mc_notified c) k) as H.
  destruct (Cache.deleteKeys _ _ _) as [cache' notified']. simpl in *.
  rewrite H.
  replace (existsb (String.eqb k) _) with true; trivial.
  symmetry. apply existsb_exists. exists k. split; [| apply String.eqb_refl].
  apply in_map_iff. exists (k, e). split; trivial.
  apply filter_In. split; [now apply get_Some_In | exact Hsel].
Qed.

(** An invalidation keeps every key none of whose entries its test selects. *)
Lemma invalidateWhere_keeps (selected : CacheEntry V -> bool) c k :
  (forall e, In (k, e) (mc_cache c) -> selected e = false) ->
  OMap.get k (mc_cache (snd (Cache.invalidateWhere selected c)))
  = OMap.get k (mc_cache c).
Proof.
  intros Hsel. unfold Cache.invalidateWhere.
  pose proof (deleteKeys_get
                (map fst (filter (fun kv => selected (snd kv)) (mc_cache c)))
                (mc_cache c) (mc_notified c) k) as H.
  destruct (Cache.deleteKeys _ _ _) as [cache' notified']. simpl in *.
  rewrite H.
  destruct (existsb (String.eqb k) _) eqn:E; trivial.
  apply existsb_exists in E. destruct E as [k' [Hin Hk]].
  apply String.eqb_eq in Hk. subst k'.
  apply in_map_iff in Hin. destruct Hin as [[k' e] [Hk Hin]]. simpl in Hk. subst k'.
  apply filter_In in Hin. destruct Hin as [Hin Hs]. simpl in Hs.
  rewrite (Hsel e Hin) in Hs. discriminate.
Qed.

Lemma includes_iff tag tags : Cache.includes tag tags = true <-> In tag tags.
Proof. apply StrSet_has_iff. Qed.

(** The three tag-based invalidations remove an entry tagged
    [dependency-graph] whichever tenant they are called for. *)
Lemma graph_tag_invalidated c k e :
  OMap.get k (mc_cache c) = Some e ->
  In "dependency-graph" (ce_tags e) ->
  forall tenantId regulationId entityType entityId,
    OMap.get k (mc_cache (Cache.invalidateEdge c tenantId)) = None
    /\ OMap.get k (mc_cache (Cache.invalidateRegulation c tenantId regulationId)) = None
    /\ OMap.get k (mc_cache (Cache.invalidateEntity c tenantId entityType entityId)) = None.
Proof.
  intros Hget Htag tenantId regulationId entityType entityId.
  apply includes_iff in Htag.
  unfold Cache.invalidateEdge, Cache.invalidateRegulation, Cache.invalidateEntity,
    Cache.invalidateByTag, Cache.invalidateByTags.
  repeat split; apply (invalidateWhere_removes _ c k e Hget); simpl;
    rewrite Htag; simpl; now rewrite ?orb_true_r.
Qed.

(** [invalidateTenant] keeps the entries that do not carry the tenant's tag. *)
Lemma invalidateTenant_keeps c tenantId k :
  (forall e, In (k, e) (mc_cache c) -> ~ In tenantId (ce_tags e)) ->
  OMap.get k (mc_cache (snd (Cache.invalidateTenant c tenantId)))
  = OMap.get k (mc_cache c).
Proof.
  intros H. apply invalidateWhere_keeps. intros e He.
  destruct (Cache.includes tenantId (ce_tags e)) eqn:E; trivial.
  apply includes_iff in E. now apply H in He.
Qed.
End InvalidationFacts.

(** C7. Whatever the cache and the two tenants, an entry of tenant [B] that
    carries the tag [dependency-graph] is gone after [invalidateEdge],
    [invalidateRegulation] and [invalidateEntity] called for tenant [A], while
    [invalidateTenant] of [A] keeps every key whose entries do not carry the
    tag [A].  So the entry tenant [B] cached for its own graph is readable at
    time 1, survives [invalidateTenant] of tenant [A], and is gone after each
    of the three tag-based invalidations made on behalf of tenant [A]. *)
Theorem invalidation_crosses_tenants :
  (forall (V : Type) (c : MemoryCache V) (A B key : string) (e : CacheEntry V)
          (regulationId entityType entityId : string),
      OMap.get (Cache.generateKey B key) (mc_cache c) = Some e ->
      In "dependency-graph" (ce_tags e) ->
      OMap.get (Cache.generateKey B key) (mc_cache (Cache.invalidateEdge c A)) = None
      /\ OMap.get (Cache.generateKey B key)
           (mc_cache (Cache.invalidateRegulation c A regulationId)) = None
      /\ OMap.get (Cache.generateKey B key)
           (mc_cache (Cache.invalidateEntity c A entityType entityId)) = None)
  /\ (forall (V : Type) (c : MemoryCache V) (A k : string),
        (forall e, In (k, e) (mc_cache c) -> ~ In A (ce_tags e)) ->
        OMap.get k (mc_cache (snd (Cache.invalidateTenant c A)))
        = OMap.get k (mc_cache c))
  /\ let key := CacheKeys.dependencyGraph "B" in
     let readB c := fst (Cache.get c 1 "B" key) in
     readB Scenario.cacheOfB = Some (buildGraph [])
     /\ readB (snd (Cache.invalidateTenant Scenario.cacheOfB "A")) = Some (buildGraph [])
     /\ readB (Cache.invalidateEdge Scenario.cacheOfB "A") = None
     /\ readB (Cache.invalidateRegulation Scenario.cacheOfB "A" "R1") = None
     /\ readB (Cache.invalidateEntity Scenario.cacheOfB "A" "DEPARTMENT" "D1") = None.
Proof.
  split; [| split].
  - intros V c A B key e regulationId entityType entityId Hget Htag.
    now apply (graph_tag_invalidated c (Cache.generateKey B key) e).
  - intros V c A k H. now apply invalidateTenant_keeps.
  - repeat split; reflexivity.
Qed.

(** ** Condition evaluation *)

(** C1. What [evaluateConditions] returns on the condition objects
    [{required: false}], [{threshold: 0}] and [{required: false, threshold: -1}],
    and that a Conditional edge carrying [{required: false}] is traversed. *)
Theorem evaluateConditions_falsy_keys :
  evaluateConditions (mkConditions (Some (JsBool false)) None) = true
  /\ evaluateConditions (mkConditions None (Some 0)) = true
  /\ evaluateConditions (mkConditions (Some (JsBool false)) (Some (-1))) = false
  /\ Scenario.nodeKeys
       (propagateOn Scenario.engine (Scenario.db [] [])
          (Scenario.conditional (mkConditions (Some (JsBool false)) None))
          (Scenario.config REGULATION "R1"))
     = ["REGULATION:R1"; "DEPARTMENT:D1"].
Proof. repeat split; reflexivity. Qed.

(** ** Order of the edge list *)

(** C3. On the graph [fork] (S -> A, A -> B, S -> C, in this order) the edge
    A -> B, accepted while expanding the depth-1 node A, precedes the edge
    S -> C, accepted while expanding the source at depth 0. *)
Theorem edge_order_is_depth_first :
  Scenario.edgeIds
    (propagateOn Scenario.engine (Scenario.db [] []) Scenario.fork
       (Scenario.config DEPARTMENT "S"))
  = [("S", "A"); ("A", "B"); ("S", "C")].
Proof. reflexivity. Qed.

(** ** Timeline deltas *)

Lemma deltaFor_In before after key d :
  In d (deltaFor before after key) <->
  (1 # 100 < js_abs (impactOr0 key (ss_entityImpacts after)
                     - impactOr0 key (ss_entityImpacts before)))
  /\ d = mkSimulationDelta key
           (impactOr0 key (ss_entityImpacts before))
           (impactOr0 key (ss_entityImpacts after))
           (impactOr0 key (ss_entityImpacts after)
            - impactOr0 key (ss_entityImpacts before))
           (if negb (Qeq_bool (impactOr0 key (ss_entityImpacts before)) 0)
            then (impactOr0 key (ss_entityImpacts after)
                  - impactOr0 key (ss_entityImpacts before))
                 / impactOr0 key (ss_entityImpacts before) * 100
            else 100).
Proof.
  unfold deltaFor.
  destruct (Qlt_bool (1 # 100) _) eqn:E; simpl.
  - apply Qlt_bool_iff in E. split.
    + intros [<- | []]. split; [exact E | reflexivity].
    + intros [_ ->]. now left.
  - split; [intros [] |]. intros [H _]. apply Qlt_bool_iff in H. congruence.
Qed.

Lemma deltaFor_keys before after keys :
  NoDup keys ->
  NoDup (map sd_entityKey (flat_map (deltaFor before after) keys)).
Proof.
  induction 1 as [| key keys Hnot _ IH]; simpl; [constructor |].
  rewrite map_app. unfold deltaFor at 1.
  destruct (Qlt_bool (1 # 100) _); simpl; [| exact IH].
  constructor; [| exact IH].
  rewrite in_map_iff. intros [d [Hk Hd]].
  apply in_flat_map in Hd. destruct Hd as [key' [Hin Hd]].
  apply deltaFor_In in Hd. destruct Hd as [_ ->]. simpl in Hk. subst. contradiction.
Qed.

Lemma calculateDeltas_In before after d :
  In d (calculateDeltas before after) <->
  exists key,
    (In key (OMap.keys (ss_entityImpacts before))
     \/ In key (OMap.keys (ss_entityImpacts after)))
    /\ In d (deltaFor before after key).
Proof.
  unfold calculateDeltas.
  rewrite (js_sort_In _ d), in_flat_map.
  destruct (StrSet_of_list_spec
              (OMap.keys (ss_entityImpacts before) ++ OMap.keys (ss_entityImpacts after)))
    as [_ Hin].
  split; intros [key [Hk Hd]]; exists key; split; trivial.
  - apply Hin in Hk. now apply in_app_iff in Hk.
  - apply Hin. now apply in_app_iff.
Qed.

(** [Math.abs] of the embedding is the absolute value of the rationals. *)
Lemma js_abs_Qabs (x : Q) : js_abs x = Qabs x.
Proof.
  destruct x as [n d]. unfold js_abs, Qlt_bool, Qle_bool, Qabs, Qopp. simpl.
  rewrite Z.mul_1_r.
  destruct (0 <=? n)%Z eqn:E; simpl.
  - apply Z.leb_le in E. now rewrite Z.abs_eq.
  - apply Z.leb_gt in E. rewrite Z.abs_neq by lia. reflexivity.
Qed.

(** C9. [calculateDeltas] on any two states, with the value of a key in a map
    read as the number stored under it and as 0 when the key is absent, and
    with the absolute value of the rationals: every emitted entry belongs to a
    key of one of the two maps and carries the two values, the delta
    [after - before], an absolute delta above 0.01, and the percent change
    [delta / before * 100], or 100 when [before] is 0; every key of either map
    whose absolute delta is above 0.01 has an entry, and no key has two; the
    list is sorted by decreasing absolute delta.  On the maps
    [A: 0.5, B: 0.25, K: 0.125, Z: 0] and
    [B: 33/128, C: 0.125, A: 0.25, K: 1, Z: -0.5] the result is
    [K] (0.125 to 1, delta 0.875, 700 percent), then [Z] (0 to -0.5, delta
    -0.5, 100 percent), then [A] (0.5 to 0.25, delta -0.25, -50 percent), then
    [C] (absent to 0.125, delta 0.125, 100 percent); [B], whose delta is
    1/128, is left out. *)
Theorem calculateDeltas_spec (before after : SimulationState) :
  let value (m : OMap.t Q) (key : string) :=
    match OMap.get key m with Some v => v | None => 0 end in
  let b := value (ss_entityImpacts before) in
  let a := value (ss_entityImpacts after) in
  let known key :=
    In key (OMap.keys (ss_entityImpacts before))
    \/ In key (OMap.keys (ss_entityImpacts after)) in
  let deltas := calculateDeltas before after in
  (forall d, In d deltas ->
     known (sd_entityKey d)
     /\ sd_beforeValue d = b (sd_entityKey d)
     /\ sd_afterValue d = a (sd_entityKey d)
     /\ sd_delta d = a (sd_entityKey d) - b (sd_entityKey d)
     /\ 1 # 100 < Qabs (sd_delta d)
     /\ (~ b (sd_entityKey d) == 0 ->
         sd_percentChange d = sd_delta d / b (sd_entityKey d) * 100)
     /\ (b (sd_entityKey d) == 0 -> sd_percentChange d = 100))
  /\ (forall key, known key -> 1 # 100 < Qabs (a key - b key) ->
        exists d, In d deltas /\ sd_entityKey d = key)
  /\ NoDup (map sd_entityKey deltas)
  /\ StronglySorted (fun x y => Qabs (sd_delta y) <= Qabs (sd_delta x)) deltas
  /\ map (fun d => (sd_entityKey d, Qred (sd_beforeValue d), Qred (sd_afterValue d),
                    Qred (sd_delta d), Qred (sd_percentChange d)))
       (calculateDeltas
          (mkSimulationState 0
             [("DEPARTMENT:A", 1 # 2); ("DEPARTMENT:B", 1 # 4); ("KPI:K", 1 # 8);
              ("KPI:Z", 0)] 2)
          (mkSimulationState 1
             [("DEPARTMENT:B", 33 # 128); ("BUDGET:C", 1 # 8); ("DEPARTMENT:A", 1 # 4);
              ("KPI:K", 1); ("KPI:Z", - (1 # 2))] 1))
     = [("KPI:K", 1 # 8, 1, 7 # 8, 700);
        ("KPI:Z", 0, - (1 # 2), - (1 # 2), 100);
        ("DEPARTMENT:A", 1 # 2, 1 # 4, - (1 # 4), - (50));
        ("BUDGET:C", 0, 1 # 8, 1 # 8, 100)]%string.
Proof.
  intros value b a known deltas.
  assert (Hb : forall key, impactOr0 key (ss_entityImpacts before) = b key)
    by reflexivity.
  assert (Ha : forall key, impactOr0 key (ss_entityImpacts after) = a key)
    by reflexivity.
  split; [| split; [| split; [| split]]].
  - intros d Hd. apply calculateDeltas_In in Hd. destruct Hd as [key [Hk Hd]].
    apply deltaFor_In in Hd. destruct Hd as [Habs ->]. simpl.
    rewrite js_abs_Qabs in Habs. rewrite !Hb, !Ha in *.
    repeat split; trivial.
    + intros Hnz. destruct (Qeq_bool (b key) 0) eqn:E; trivial.
      apply Qeq_bool_iff in E. contradiction.
    + intros Hz. apply Qeq_bool_iff in Hz. now rewrite Hz.
  - intros key Hk Habs. eexists. split.
    + apply calculateDeltas_In. exists key. split; [exact Hk |].
      apply deltaFor_In. split; [| reflexivity].
      rewrite js_abs_Qabs, Hb, Ha. exact Habs.
    + reflexivity.
  - unfold deltas, calculateDeltas.
    eapply Permutation_NoDup.
    + apply Permutation_map. symmetry. apply js_sort_perm.
    + apply deltaFor_keys. apply StrSet_of_list_spec.
  - unfold deltas, calculateDeltas.
    apply (js_sort_sorted _ (fun d => Qabs (sd_delta d))).
    intros x y. rewrite !js_abs_Qabs. reflexivity.
  - vm_compute. reflexivity.
Qed.

(** ** The traversal: unfolding, invariants, termination *)

Lemma visitEdge_eq eng db recur ct ci imp depth e st :
  visitEdge eng db recur ct ci imp depth e st
  = if skipped eng e then Some st
    else if StrSet.has (visitedKeyOf (entityKey ct ci) (targetKeyOf e)) (ts_visited st)
    then Some st
    else if Qlt_bool (propagatedImpactOf imp e) (eng_impactThreshold eng)
    then Some (markVisited (visitedKeyOf (entityKey ct ci) (targetKeyOf e)) st)
    else recur (ie_targetType e) (ie_targetId e) (propagatedImpactOf imp e)
           (depth + 1)%nat (acceptEdge db ct ci imp depth e st).
Proof. reflexivity. Qed.

Lemma forOf_invariant {A S : Type} (body : A -> S -> option S) (P : S -> Prop)
    (l : list A) :
  (forall x s s', In x l -> P s -> body x s = Some s' -> P s') ->
  forall s s', P s -> forOf body l s = Some s' -> P s'.
Proof.
  induction l as [| x l IH]; intros Hbody s s' Hs; simpl.
  - intros [= <-]. exact Hs.
  - destruct (body x s) as [s1 |] eqn:E; [| discriminate].
    apply IH.
    + intros y t t' Hy. apply Hbody. now right.
    + apply (Hbody x s s1); auto. now left.
Qed.

Lemma forOf_ext {A S : Type} (body1 body2 : A -> S -> option S) (l : list A) :
  (forall x s s', body1 x s = Some s' -> body2 x s = Some s') ->
  forall s s', forOf body1 l s = Some s' -> forOf body2 l s = Some s'.
Proof.
  intros Hbody. induction l as [| x l IH]; intros s s'; simpl; trivial.
  destruct (body1 x s) as [s1 |] eqn:E; [| discriminate].
  rewrite (Hbody _ _ _ E). apply IH.
Qed.

Section TraversalInvariant.
Variables (eng : PropagationEngine) (db : Db) (graph : DependencyGraph).
Variable P : TraversalState -> Prop.

Hypothesis P_mark : forall st ct ci e,
  P st ->
  In e (outgoingEdges graph (entityKey ct ci)) ->
  StrSet.has (visitedKeyOf (entityKey ct ci) (targetKeyOf e)) (ts_visited st) = false ->
  P (markVisited (visitedKeyOf (entityKey ct ci) (targetKeyOf e)) st).

Hypothesis P_accept : forall st ct ci imp depth e,
  P st ->
  In e (outgoingEdges graph (entityKey ct ci)) ->
  StrSet.has (visitedKeyOf (entityKey ct ci) (targetKeyOf e)) (ts_visited st) = false ->
  P (acceptEdge db ct ci imp depth e st).

(** A property of the state kept by both state changes of the loop body is
    kept by the whole traversal. *)
Lemma propagateBFS_invariant fuel ct ci imp depth st st' :
  P st ->
  propagateBFS fuel eng db graph ct ci imp depth st = Some st' ->
  P st'.
Proof.
  revert ct ci imp depth st st'.
  induction fuel as [| fuel IH]; intros ct ci imp depth st st' Hst; simpl;
    [discriminate |].
  destruct (Qle_bool _ _); [intros [= <-]; exact Hst |].
  destruct (Qlt_bool _ _); [intros [= <-]; exact Hst |].
  apply forOf_invariant; [| exact Hst].
  intros e s s' He Hs. rewrite visitEdge_eq.
  destruct (skipped eng e); [intros [= <-]; exact Hs |].
  destruct (StrSet.has _ _) eqn:Hv; [intros [= <-]; exact Hs |].
  destruct (Qlt_bool _ _).
  - intros [= <-]. now apply P_mark.
  - apply IH. now apply P_accept.
Qed.
End TraversalInvariant.

(** The visited set only grows. *)
Lemma propagateBFS_visited_grows eng db graph fuel ct ci imp depth st st' :
  propagateBFS fuel eng db graph ct ci imp depth st = Some st' ->
  incl (ts_visited st) (ts_visited st').
Proof.
  apply (propagateBFS_invariant eng db graph
           (fun s => incl (ts_visited st) (ts_visited s))).
  - intros s ct' ci' e Hs _ _ x Hx. simpl. apply StrSet_add_In. right. now apply Hs.
  - intros s ct' ci' imp' depth' e Hs _ _ x Hx. simpl.
    apply StrSet_add_In. right. now apply Hs.
  - apply incl_refl.
Qed.

Lemma outgoingEdges_pairs graph key e :
  In e (outgoingEdges graph key) -> In (key, e) (graphPairs graph).
Proof.
  unfold outgoingEdges, graphPairs.
  destruct (OMap.get key (outgoing graph)) as [es |] eqn:E; [| intros []].
  intros He. apply get_Some_In in E.
  apply in_flat_map. exists (key, es). split; [exact E |].
  simpl. apply in_map_iff. now exists e.
Qed.

Lemma filter_length_le {A : Type} (f g : A -> bool) (l : list A) :
  (forall x, In x l -> f x = true -> g x = true) ->
  (List.length (filter f l) <= List.length (filter g l))%nat.
Proof.
  induction l as [| x l IH]; intros H; simpl; [lia |].
  assert (IH' := IH (fun y Hy => H y (or_intror Hy))).
  destruct (f x) eqn:Ef.
  - rewrite (H x (or_introl eq_refl) Ef). simpl. lia.
  - destruct (g x); simpl; lia.
Qed.

Lemma filter_length_lt {A : Type} (f g : A -> bool) (l : list A) (a : A) :
  (forall x, In x l -> f x = true -> g x = true) ->
  In a l -> f a = false -> g a = true ->
  (List.length (filter f l) < List.length (filter g l))%nat.
Proof.
  induction l as [| x l IH]; intros H Ha Hfa Hga; simpl; [destruct Ha |].
  assert (Hle := filter_length_le f g l (fun y Hy => H y (or_intror Hy))).
  destruct Ha as [-> | Ha].
  - rewrite Hfa, Hga. simpl. lia.
  - assert (IH' := IH (fun y Hy => H y (or_intror Hy)) Ha Hfa Hga).
    destruct (f x) eqn:Ef.
    + rewrite (H x (or_introl eq_refl) Ef). simpl. lia.
    + destruct (g x); simpl; lia.
Qed.

Lemma unvisited_mono graph v v' :
  incl v v' ->
  (List.length (unvisited graph v') <= List.length (unvisited graph v))%nat.
Proof.
  intros Hincl. apply filter_length_le. intros ke _.
  rewrite !negb_true_iff, !StrSet_has_false_iff. auto.
Qed.

Lemma unvisited_add graph v ke :
  In ke (graphPairs graph) ->
  StrSet.has (pairVisitedKey ke) v = false ->
  (List.length (unvisited graph (StrSet.add (pairVisitedKey ke) v))
   < List.length (unvisited graph v))%nat.
Proof.
  intros Hin Hv. apply (filter_length_lt _ _ _ ke); trivial.
  - intros x _. rewrite !negb_true_iff, !StrSet_has_false_iff.
    intros H1 H2. apply H1. apply StrSet_add_In. now right.
  - rewrite negb_false_iff. apply StrSet_has_iff, StrSet_add_In. now left.
  - now rewrite Hv.
Qed.

(** With more fuel than there are unvisited pairs, the traversal returns. *)
Lemma propagateBFS_total eng db graph fuel :
  forall ct ci imp depth st,
    (List.length (unvisited graph (ts_visited st)) < fuel)%nat ->
    exists st', propagateBFS fuel eng db graph ct ci imp depth st = Some st'.
Proof.
  induction fuel as [| fuel IH]; intros ct ci imp depth st Hfuel; [lia |].
  simpl.
  destruct (Qle_bool _ _); [eauto |].
  destruct (Qlt_bool _ _); [eauto |].
  assert (Hes : forall e, In e (outgoingEdges graph (entityKey ct ci)) ->
                          In (entityKey ct ci, e) (graphPairs graph))
    by (intros e; apply outgoingEdges_pairs).
  revert st Hfuel Hes.
  induction (outgoingEdges graph (entityKey ct ci)) as [| e es IHes];
    intros st Hfuel Hes; simpl; [eauto |].
  assert (Htail : forall e', In e' es -> In (entityKey ct ci, e') (graphPairs graph))
    by (intros e' He'; apply Hes; now right).
  rewrite visitEdge_eq.
  destruct (skipped eng e); [now apply IHes |].
  destruct (StrSet.has _ _) eqn:Hv; [now apply IHes |].
  assert (Hlt := unvisited_add graph (ts_visited st) (entityKey ct ci, e)
                   (Hes e (or_introl eq_refl)) Hv).
  unfold pairVisitedKey in Hlt. simpl in Hlt.
  destruct (Qlt_bool _ _).
  - apply IHes; trivial. simpl. lia.
  - destruct (IH (ie_targetType e) (ie_targetId e) (propagatedImpactOf imp e)
                (depth + 1)%nat (acceptEdge db ct ci imp depth e st)) as [st1 E1].
    { simpl. lia. }
    rewrite E1. apply IHes; trivial.
    apply propagateBFS_visited_grows in E1. simpl in E1.
    apply (unvisited_mono graph) in E1. lia.
Qed.

(** More fuel does not change a result. *)
Lemma propagateBFS_fuel_mono eng db graph fuel :
  forall fuel' ct ci imp depth st st',
    (fuel <= fuel')%nat ->
    propagateBFS fuel eng db graph ct ci imp depth st = Some st' ->
    propagateBFS fuel' eng db graph ct ci imp depth st = Some st'.
Proof.
  induction fuel as [| fuel IH]; intros fuel' ct ci imp depth st st' Hle;
    [discriminate |].
  destruct fuel' as [| fuel']; [lia |]. simpl.
  destruct (Qle_bool _ _); trivial.
  destruct (Qlt_bool _ _); trivial.
  apply forOf_ext. intros e s s'. rewrite !visitEdge_eq.
  destruct (skipped eng e); trivial.
  destruct (StrSet.has _ _); trivial.
  destruct (Qlt_bool _ _); trivial.
  apply IH. lia.
Qed.

Lemma unvisited_all graph :
  (List.length (unvisited graph []) < fuelFor graph)%nat.
Proof.
  unfold fuelFor, unvisited.
  assert (H := filter_length_le
                 (fun ke => negb (StrSet.has (pairVisitedKey ke) []))
                 (fun _ => true) (graphPairs graph) (fun _ _ _ => eq_refl)).
  replace (filter (fun _ => true) (graphPairs graph)) with (graphPairs graph) in H.
  - lia.
  - clear H. induction (graphPairs graph) as [| x l IH]; simpl; congruence.
Qed.

Lemma propagateOn_eq eng db graph config :
  propagateOn eng db graph config
  = match
      propagateBFS (fuelFor graph) eng db graph (cfg_sourceType config)
        (cfg_sourceId config) (initialImpactOf config) 0 (initialState db config)
    with
    | None => None
    | Some st =>
        Some
          (mkPropagationResult (cfg_sourceId config) (cfg_sourceType config)
             (Z.of_nat (OMap.size (ts_nodes st)) - 1)%Z
             (fold_right Nat.max 0%nat (map pn_depth (OMap.values (ts_nodes st))))
             (ts_nodes st) (ts_edges st))
    end.
Proof. reflexivity. Qed.

Lemma propagateOn_total eng db graph config :
  exists st,
    propagateBFS (fuelFor graph) eng db graph (cfg_sourceType config)
      (cfg_sourceId config) (initialImpactOf config) 0 (initialState db config)
    = Some st
    /\ propagateOn eng db graph config
       = Some
           (mkPropagationResult (cfg_sourceId config) (cfg_sourceType config)
              (Z.of_nat (OMap.size (ts_nodes st)) - 1)%Z
              (fold_right Nat.max 0%nat (map pn_depth (OMap.values (ts_nodes st))))
              (ts_nodes st) (ts_edges st)).
Proof.
  destruct (propagateBFS_total eng db graph (fuelFor graph) (cfg_sourceType config)
              (cfg_sourceId config) (initialImpactOf config) 0%nat
              (initialState db config) (unvisited_all graph)) as [st E].
  exists st. split; [exact E |]. rewrite propagateOn_eq, E. reflexivity.
Qed.

(** ** Cycle safety *)

Lemma edgesRecorded_kept eng db graph fuel ct ci imp depth st st' :
  edgesRecorded st ->
  propagateBFS fuel eng db graph ct ci imp depth st = Some st' ->
  edgesRecorded st'.
Proof.
  apply propagateBFS_invariant.
  - intros s ct' ci' e [Hnd Hin] _ _. split; [exact Hnd |].
    intros p Hp. simpl. apply StrSet_add_In. right. now apply Hin.
  - intros s ct' ci' imp' depth' e [Hnd Hin] _ Hv. split; simpl.
    + rewrite map_app. simpl.
      apply NoDup_rev in Hnd. rewrite <- (rev_involutive (_ ++ _)).
      apply NoDup_rev. rewrite rev_app_distr. simpl. constructor; trivial.
      rewrite <- in_rev, in_map_iff. intros [p [Hk Hp]].
      apply Hin in Hp. rewrite Hk in Hp.
      apply StrSet_has_false_iff in Hv. now apply Hv.
    + intros p Hp. apply StrSet_add_In. apply in_app_iff in Hp.
      destruct Hp as [Hp | [<- | []]]; [right; now apply Hin | now left].
Qed.

Lemma NoDup_map_compose {A B C : Type} (f : B -> C) (g : A -> B) (l : list A) :
  NoDup (map (fun x => f (g x)) l) -> NoDup (map g l).
Proof.
  intros H. apply (NoDup_map_inv f). now rewrite map_map.
Qed.

(** C5. On every graph the traversal returns, whatever fuel at or above the
    bound of [propagate] it is given; no ordered pair of node keys occurs
    twice in the edge list of the result; and on the two-node cycle
    A -> B, B -> A the result has the two nodes A and B and each edge once. *)
Theorem cycle_safety :
  (forall eng db graph config,
      exists r,
        propagateOn eng db graph config = Some r
        /\ NoDup (map pathKeys (pr_edges r))
        /\ forall fuel, (fuelFor graph <= fuel)%nat ->
             exists st,
               propagateBFS fuel eng db graph (cfg_sourceType config)
                 (cfg_sourceId config) (initialImpactOf config) 0
                 (initialState db config) = Some st
               /\ ts_nodes st = pr_nodes r /\ ts_edges st = pr_edges r)
  /\ Scenario.nodeKeys
       (propagateOn Scenario.engine (Scenario.db [] []) Scenario.twoCycle
          (Scenario.config DEPARTMENT "A"))
     = ["DEPARTMENT:A"; "DEPARTMENT:B"]
  /\ Scenario.edgeIds
       (propagateOn Scenario.engine (Scenario.db [] []) Scenario.twoCycle
          (Scenario.config DEPARTMENT "A"))
     = [("A", "B"); ("B", "A")].
Proof.
  split; [| split; reflexivity].
  intros eng db graph config.
  destruct (propagateOn_total eng db graph config) as [st [E ->]].
  eexists. split; [reflexivity |]. simpl. split.
  - apply (NoDup_map_compose (fun ks => visitedKeyOf (fst ks) (snd ks)) pathKeys).
    assert (H0 : edgesRecorded (initialState db config))
      by (split; [constructor | intros p []]).
    apply (edgesRecorded_kept _ _ _ _ _ _ _ _ _ _ H0 E).
  - intros fuel Hfuel. exists st. split; [| split; reflexivity].
    now apply (propagateBFS_fuel_mono _ _ _ (fuelFor graph)).
Qed.

(** ** The source node *)

Lemma sourceKept_kept eng db graph config fuel ct ci imp depth st st' :
  sourceKept config st ->
  propagateBFS fuel eng db graph ct ci imp depth st = Some st' ->
  sourceKept config st'.
Proof.
  apply propagateBFS_invariant.
  - intros s ct' ci' e H _ _. exact H.
  - intros s ct' ci' imp' depth' e [node [Hget [Hd [Hle Heq]]]] _ _.
    unfold sourceKept, acceptEdge, touchNode. simpl.
    destruct (string_dec (targetKeyOf e) (sourceKeyOf config)) as [Ht | Ht].
    + rewrite Ht, Hget, get_set_same. eexists. split; [reflexivity |]. simpl.
      split; [exact Hd |]. split.
      * apply Qle_trans with (pn_impactScore node); [exact Hle | apply js_max_lower].
      * intros Hno. exfalso. apply (Hno (mkPropagationPath ct' ci' (ie_targetType e)
                                          (ie_targetId e) (ie_impactWeight e)
                                          (ie_impactType e))).
        -- apply in_app_iff. right. now left.
        -- exact Ht.
    + exists node. split.
      * destruct (OMap.get (targetKeyOf e) (ts_nodes s));
          rewrite get_set_other; trivial.
      * split; [exact Hd |]. split; [exact Hle |].
        intros Hno. apply Heq. intros p Hp. apply Hno.
        apply in_app_iff. now left.
Qed.

(** When no outgoing edge of the current node survives, the loop changes
    neither the node map nor the edge list. *)
Lemma forOf_none_survive eng db recur ct ci imp depth es :
  (forall e, In e es -> survives eng imp e = false) ->
  forall st, exists st',
    forOf (visitEdge eng db recur ct ci imp depth) es st = Some st'
    /\ ts_nodes st' = ts_nodes st /\ ts_edges st' = ts_edges st.
Proof.
  induction es as [| e es IH]; intros Hes st; simpl; [eauto |].
  assert (He := Hes e (or_introl eq_refl)).
  assert (IH' := IH (fun e' He' => Hes e' (or_intror He'))).
  rewrite visitEdge_eq. unfold survives in He.
  destruct (skipped eng e); [apply IH' |].
  destruct (StrSet.has _ _); [apply IH' |].
  simpl in He. rewrite negb_false_iff in He. rewrite He.
  destruct (IH' (markVisited (visitedKeyOf (entityKey ct ci) (targetKeyOf e)) st))
    as [st' [E [Hn Hedges]]].
  exists st'. auto.
Qed.

(** The source node of a result, and the result of a source none of whose
    outgoing edges survives. *)
Lemma propagateOn_source_node eng db graph config :
  exists r,
    propagateOn eng db graph config = Some r
    /\ (exists node,
           OMap.get (sourceKeyOf config) (pr_nodes r) = Some node
           /\ pn_depth node = 0%nat
           /\ initialImpactOf config <= pn_impactScore node
           /\ ((forall p, In p (pr_edges r) -> pathTargetKey p <> sourceKeyOf config) ->
               pn_impactScore node = initialImpactOf config))
    /\ ((forall e, In e (outgoingEdges graph (sourceKeyOf config)) ->
                   survives eng (initialImpactOf config) e = false) ->
        pr_totalAffected r = 0%Z
        /\ pr_edges r = []
        /\ pr_nodes r = [(sourceKeyOf config, sourceNodeOf db config)]).
Proof.
  destruct (propagateOn_total eng db graph config) as [st [E ->]].
  eexists. split; [reflexivity |]. simpl. split.
  - apply (sourceKept_kept _ _ _ config _ _ _ _ _ _ _) with (2 := E).
    exists (sourceNodeOf db config). unfold initialState, sourceKeyOf. simpl.
    rewrite String.eqb_refl. repeat split; trivial. apply Qle_refl.
  - intros Hnone.
    assert (Hst : ts_nodes st = ts_nodes (initialState db config)
                  /\ ts_edges st = ts_edges (initialState db config)).
    { unfold fuelFor in E. simpl in E.
      destruct (Qle_bool _ _); [injection E as <-; auto |].
      destruct (Qlt_bool _ _); [injection E as <-; auto |].
      destruct (forOf_none_survive eng db
                  (propagateBFS (List.length (graphPairs graph)) eng db graph)
                  (cfg_sourceType config) (cfg_sourceId config)
                  (initialImpactOf config) 0%nat _ Hnone (initialState db config))
        as [st' [E' H]].
      unfold sourceKeyOf in E'. rewrite E' in E. injection E as <-. exact H. }
    destruct Hst as [-> ->]. simpl. auto.
Qed.


(** C4 (as amended). Every propagation returns a result whose node map holds
    the source at depth 0 with a score no lower than the initial impact, and
    equal to it whenever no edge of the result leads into the source; when no
    outgoing edge of the source survives, the source is the only node, no node
    is affected and the edge list is empty, as on the graph without edges. *)
Theorem source_node_in_result :
  (forall eng db graph config,
      exists r,
        propagateOn eng db graph config = Some r
        /\ (exists node,
               OMap.get (sourceKeyOf config) (pr_nodes r) = Some node
               /\ pn_depth node = 0%nat
               /\ initialImpactOf config <= pn_impactScore node
               /\ ((forall p, In p (pr_edges r) -> pathTargetKey p <> sourceKeyOf config) ->
                   pn_impactScore node = initialImpactOf config))
        /\ ((forall e, In e (outgoingEdges graph (sourceKeyOf config)) ->
                       survives eng (initialImpactOf config) e = false) ->
            pr_totalAffected r = 0%Z
            /\ pr_edges r = []
            /\ pr_nodes r = [(sourceKeyOf config, sourceNodeOf db config)]))
  /\ propagateOn Scenario.engine (Scenario.db [] []) Scenario.isolated
       (Scenario.config REGULATION "R1")
     = Some (mkPropagationResult "R1" REGULATION 0 0
               [("REGULATION:R1", mkPropagationNode "R1" REGULATION "R1" 1 0 [])] []).
Proof.
  split; [apply propagateOn_source_node | reflexivity].
Qed.

(** On the graph where R1 and D1 point at each other with weight 1.0, the
    edge D1 -> R1 carries 1.0 x 1.0 x 1.0 x 1.2 back into the source, whose
    score becomes 1.2 although the initial impact is 1.0. *)
Lemma source_score_exceeds_initial_impact :
  exists r node,
    propagateOn Scenario.engine (Scenario.db [] []) (buildGraph Scenario.backEdge)
      (Scenario.config REGULATION "R1") = Some r
    /\ OMap.get "REGULATION:R1" (pr_nodes r) = Some node
    /\ pn_depth node = 0%nat
    /\ pn_impactScore node == 12 # 10
    /\ ~ pn_impactScore node == initialImpactOf (Scenario.config REGULATION "R1").
Proof.
  eexists. eexists. split; [reflexivity |]. split; [reflexivity |].
  split; [reflexivity |]. split; [reflexivity |]. vm_compute. discriminate.
Qed.

(** ** Loading the graph through the cache *)

Lemma buildDependencyGraph_caches db c now tenantId :
  cachedGraph (snd (buildDependencyGraph db c now tenantId)) now tenantId
    (fst (buildDependencyGraph db c now tenantId)).
Proof.
  unfold buildDependencyGraph, Cache.get, cachedGraph.
  destruct (OMap.get _ (mc_cache c)) as [entry |] eqn:E.
  - destruct (ce_expiresAt entry <? now)%Z eqn:Ex; simpl.
    + eexists. split; [apply get_set_same |]. simpl.
      split; [reflexivity | unfold Cache.ttlOrDefault; lia].
    + exists entry. apply Z.ltb_ge in Ex. auto.
  - simpl. eexists. split; [apply get_set_same |]. simpl.
    split; [reflexivity | unfold Cache.ttlOrDefault; lia].
Qed.

Lemma buildDependencyGraph_hit db c now tenantId graph :
  cachedGraph c now tenantId graph ->
  fst (buildDependencyGraph db c now tenantId) = graph
  /\ cachedGraph (snd (buildDependencyGraph db c now tenantId)) now tenantId graph.
Proof.
  intros [entry [Hget [Hdata Hnow]]].
  unfold buildDependencyGraph, Cache.get, cachedGraph. rewrite Hget.
  destruct (ce_expiresAt entry <? now)%Z eqn:Ex; [apply Z.ltb_lt in Ex; lia |].
  simpl. split; [exact Hdata |]. exists entry. auto.
Qed.

Lemma propagate_newEngine tenantId db c now config :
  propagate (newEngine tenantId None None None) db c now config
  = (propagateOn
       (loadedEngine tenantId (fst (buildDependencyGraph db c now tenantId)))
       db (fst (buildDependencyGraph db c now tenantId)) config,
     loadedEngine tenantId (fst (buildDependencyGraph db c now tenantId)),
     snd (buildDependencyGraph db c now tenantId)).
Proof.
  unfold propagate, initialize. simpl.
  destruct (buildDependencyGraph db c now tenantId) as [graph c1]. reflexivity.
Qed.

Lemma regulationNodes_eq tenantId db graph regulation :
  exists r,
    propagateOn (loadedEngine tenantId graph) db graph
      (riskConfig tenantId regulation) = Some r
    /\ regulationNodes tenantId db graph regulation = pr_nodes r
    /\ regulationEdges tenantId db graph regulation = pr_edges r.
Proof.
  destruct (propagateOn_total (loadedEngine tenantId graph) db graph
              (riskConfig tenantId regulation)) as [st [_ E]].
  eexists. split; [exact E |].
  unfold regulationNodes, regulationEdges. rewrite E. split; reflexivity.
Qed.

Lemma aggregateRisks_cached tenantId db now graph regulations :
  forall c risks,
    cachedGraph c now tenantId graph ->
    fst (aggregateRisks tenantId db c now regulations risks)
    = Some (risksAfter tenantId db graph regulations risks).
Proof.
  induction regulations as [| regulation rest IH]; intros c risks Hc; simpl;
    [reflexivity |].
  rewrite propagate_newEngine.
  destruct (buildDependencyGraph_hit db c now tenantId graph Hc) as [-> Hc1].
  destruct (regulationNodes_eq tenantId db graph regulation) as [r [E [Hn _]]].
  rewrite E, Hn. now apply IH.
Qed.

(** Every turn of the loop of [calculateAllRisks] propagates over the graph
    that the first turn loads. *)
Lemma aggregateRisks_spec tenantId db c now regulations risks :
  fst (aggregateRisks tenantId db c now regulations risks)
  = Some (risksAfter tenantId db (fst (buildDependencyGraph db c now tenantId))
            regulations risks).
Proof.
  destruct regulations as [| regulation rest]; simpl; [reflexivity |].
  rewrite propagate_newEngine.
  set (graph := fst (buildDependencyGraph db c now tenantId)).
  destruct (regulationNodes_eq tenantId db graph regulation) as [r [E [Hn _]]].
  rewrite E, Hn. apply aggregateRisks_cached.
  apply buildDependencyGraph_caches.
Qed.

Lemma calculateAllRisks_eq tenantId db c now :
  fst (calculateAllRisks tenantId db c now)
  = Some
      (js_sort (fun a b => rr_adjustedRiskScore b - rr_adjustedRiskScore a)
         (map (toResult (List.length (findActiveRegulations db tenantId)))
            (risksAfter tenantId db (fst (buildDependencyGraph db c now tenantId))
               (findActiveRegulations db tenantId) OMap.empty))).
Proof.
  unfold calculateAllRisks.
  pose proof (aggregateRisks_spec tenantId db c now
                (findActiveRegulations db tenantId) OMap.empty) as H.
  destruct (aggregateRisks tenantId db c now _ _) as [risks c'].
  simpl in H. rewrite H. reflexivity.
Qed.

(** ** The node map of a propagation *)

Lemma nodes_unique eng db graph fuel ct ci imp depth st st' :
  NoDup (OMap.keys (ts_nodes st)) ->
  propagateBFS fuel eng db graph ct ci imp depth st = Some st' ->
  NoDup (OMap.keys (ts_nodes st')).
Proof.
  apply (propagateBFS_invariant eng db graph
           (fun s => NoDup (OMap.keys (ts_nodes s)))).
  - intros s ct' ci' e H _ _. exact H.
  - intros s ct' ci' imp' depth' e H _ _. simpl. unfold touchNode.
    destruct (OMap.get _ _); now apply NoDup_keys_set.
Qed.

Lemma regulationNodes_unique tenantId db graph regulation :
  NoDup (OMap.keys (regulationNodes tenantId db graph regulation)).
Proof.
  unfold regulationNodes.
  destruct (propagateOn_total (loadedEngine tenantId graph) db graph
              (riskConfig tenantId regulation)) as [st [E ->]]. simpl.
  apply (nodes_unique _ _ _ _ _ _ _ _ _ _) with (2 := E).
  simpl. constructor; [intros [] | constructor].
Qed.

Lemma regulationNodes_id tenantId db graph r1 r2 :
  reg_id r1 = reg_id r2 ->
  regulationNodes tenantId db graph r1 = regulationNodes tenantId db graph r2.
Proof.
  intros H. unfold regulationNodes, riskConfig. now rewrite H.
Qed.

(** ** Aggregation of the node maps *)

Lemma In_get {V : Type} (m : OMap.t V) k v :
  NoDup (OMap.keys m) -> In (k, v) m -> OMap.get k m = Some v.
Proof.
  unfold OMap.keys. induction m as [| [k' v'] m IH]; simpl; [intros _ [] |].
  intros Hnd [[= -> ->] | Hin].
  - now rewrite String.eqb_refl.
  - inversion Hnd as [| ? ? Hnot Hnd']; subst.
    destruct (String.eqb k k') eqn:E; [| now apply IH].
    apply String.eqb_eq in E. subst k'. exfalso. apply Hnot.
    apply in_map_iff. now exists (k, v).
Qed.

Lemma get_In_keys {V : Type} (m : OMap.t V) k v :
  OMap.get k m = Some v -> In k (OMap.keys m).
Proof.
  intros H. destruct (in_dec string_dec k (OMap.keys m)) as [Hin | Hin]; trivial.
  apply get_None_iff in Hin. congruence.
Qed.

Lemma In_keys_get {V : Type} (m : OMap.t V) k :
  In k (OMap.keys m) -> exists v, OMap.get k m = Some v.
Proof.
  intros H. destruct (OMap.get k m) as [v |] eqn:E; [eauto |].
  apply get_None_iff in E. contradiction.
Qed.

Section AddNodeRisk.
Variable regulation : Regulation.

Let updated (key : string) (node : PropagationNode) (risks : OMap.t EntityRisk)
    : EntityRisk :=
  mkEntityRisk
    (er_totalRisk (riskOrNew key risks)
     + pn_impactScore node * getSeverityMultiplier (reg_severity regulation))
    (OMap.set (reg_id regulation) (pn_impactScore node)
       (er_factors (riskOrNew key risks))).

Lemma addNodeRisk_eq risks key node :
  addNodeRisk regulation risks (key, node)
  = OMap.set key (updated key node risks)
      (if OMap.has key risks then risks
       else OMap.set key (mkEntityRisk 0 OMap.empty) risks).
Proof.
  unfold addNodeRisk, updated, riskOrNew, OMap.has.
  destruct (OMap.get key risks) as [entity |] eqn:E.
  - now rewrite E.
  - now rewrite get_set_same.
Qed.

Lemma addNodeRisk_get_same risks key node :
  OMap.get key (addNodeRisk regulation risks (key, node))
  = Some (updated key node risks).
Proof. rewrite addNodeRisk_eq. apply get_set_same. Qed.

Lemma addNodeRisk_get_other risks key key' node :
  key <> key' ->
  OMap.get key' (addNodeRisk regulation risks (key, node)) = OMap.get key' risks.
Proof.
  intros Hne. rewrite addNodeRisk_eq, get_set_other by exact Hne.
  destruct (OMap.has key risks); [reflexivity | now apply get_set_other].
Qed.

Lemma addNodeRisk_keys risks key key' node :
  In key' (OMap.keys (addNodeRisk regulation risks (key, node)))
  <-> key' = key \/ In key' (OMap.keys risks).
Proof.
  rewrite addNodeRisk_eq, In_keys_set.
  destruct (OMap.has key risks); [reflexivity |].
  rewrite In_keys_set. tauto.
Qed.

Lemma addNodeRisk_unique risks key node :
  NoDup (OMap.keys risks) ->
  NoDup (OMap.keys (addNodeRisk regulation risks (key, node))).
Proof.
  intros H. rewrite addNodeRisk_eq. apply NoDup_keys_set.
  destruct (OMap.has key risks); [exact H | now apply NoDup_keys_set].
Qed.

(** The entry of [key] after the nodes of one regulation have been added. *)
Lemma addNodes_get nodes :
  NoDup (OMap.keys nodes) ->
  forall risks key,
    OMap.get key (fold_left (addNodeRisk regulation) nodes risks)
    = match OMap.get key nodes with
      | Some node => Some (updated key node risks)
      | None => OMap.get key risks
      end.
Proof.
  unfold OMap.keys.
  induction nodes as [| [k n] nodes IH]; intros Hnd risks key;
    [reflexivity |].
  inversion Hnd as [| ? ? Hnot Hnd']; subst.
  cbn [fold_left OMap.get]. rewrite (IH Hnd').
  destruct (String.eqb key k) eqn:E.
  - apply String.eqb_eq in E. subst k.
    assert (Hnone : OMap.get key nodes = None) by now apply get_None_iff.
    rewrite Hnone. apply addNodeRisk_get_same.
  - apply String.eqb_neq in E.
    assert (Hother : OMap.get key (addNodeRisk regulation risks (k, n))
                     = OMap.get key risks)
      by (apply addNodeRisk_get_other; congruence).
    destruct (OMap.get key nodes) as [node |]; [| exact Hother].
    unfold updated, riskOrNew. now rewrite Hother.
Qed.

Lemma addNodes_keys nodes :
  forall risks key,
    In key (OMap.keys (fold_left (addNodeRisk regulation) nodes risks))
    <-> In key (OMap.keys risks) \/ In key (OMap.keys nodes).
Proof.
  induction nodes as [| [k n] nodes IH]; intros risks key; [simpl; tauto |].
  cbn [fold_left]. rewrite IH, addNodeRisk_keys. simpl. intuition (subst; auto).
Qed.

Lemma addNodes_unique nodes :
  forall risks,
    NoDup (OMap.keys risks) ->
    NoDup (OMap.keys (fold_left (addNodeRisk regulation) nodes risks)).
Proof.
  induction nodes as [| [k n] nodes IH]; intros risks H; trivial.
  cbn [fold_left]. apply IH. now apply addNodeRisk_unique.
Qed.
End AddNodeRisk.

Section RisksAfter.
Variables (tenantId : string) (db : Db) (graph : DependencyGraph).

Let nodesOf := regulationNodes tenantId db graph.
Let after := risksAfter tenantId db graph.

Lemma risksAfter_cons regulation rest risks :
  after (regulation :: rest) risks
  = after rest (fold_left (addNodeRisk regulation) (nodesOf regulation) risks).
Proof. reflexivity. Qed.

Lemma risksAfter_keys regulations :
  forall risks key,
    In key (OMap.keys (after regulations risks))
    <-> In key (OMap.keys risks)
        \/ exists regulation,
             In regulation regulations /\ In key (OMap.keys (nodesOf regulation)).
Proof.
  induction regulations as [| regulation rest IH]; intros risks key.
  - simpl. split; [tauto | intros [H | [r [[] _]]]; exact H].
  - rewrite risksAfter_cons, IH, addNodes_keys. split.
    + intros [[H | H] | [r [Hr Hk]]]; [tauto | right | right].
      * exists regulation. split; [now left | exact H].
      * exists r. split; [now right | exact Hk].
    + intros [H | [r [[<- | Hr] Hk]]]; [tauto | tauto |].
      right. now exists r.
Qed.

Lemma risksAfter_unique regulations :
  forall risks,
    NoDup (OMap.keys risks) -> NoDup (OMap.keys (after regulations risks)).
Proof.
  induction regulations as [| regulation rest IH]; intros risks H; trivial.
  rewrite risksAfter_cons. apply IH. now apply addNodes_unique.
Qed.

Let total (key : string) (regulations : list Regulation) (start : Q) : Q :=
  fold_left
    (fun acc regulation =>
       acc + riskContribution tenantId db graph key regulation)
    regulations start.

Lemma total_proper key regulations :
  forall x y, x == y -> total key regulations x == total key regulations y.
Proof.
  induction regulations as [| regulation rest IH]; intros x y Hxy; simpl; trivial.
  apply IH. now rewrite Hxy.
Qed.

(** The total risk of an entry is what it was before the loop plus the
    contributions of the regulations, in their order. *)
Lemma risksAfter_total regulations :
  forall risks key,
    er_totalRisk (riskOrNew key (after regulations risks))
    == total key regulations (er_totalRisk (riskOrNew key risks)).
Proof.
  induction regulations as [| regulation rest IH]; intros risks key.
  - simpl. reflexivity.
  - rewrite risksAfter_cons, IH. simpl. apply total_proper.
    unfold riskOrNew at 1.
    rewrite (addNodes_get regulation (nodesOf regulation)
               (regulationNodes_unique tenantId db graph regulation)).
    unfold riskContribution. fold (nodesOf regulation).
    destruct (OMap.get key (nodesOf regulation)) as [node |]; simpl.
    + reflexivity.
    + fold (riskOrNew key risks). lra.
Qed.

(** A factor recorded for a regulation id stays as it is while the later
    regulations with that id record the same score. *)
Lemma risksAfter_factor_kept regulations :
  forall risks key id score,
    OMap.get id (er_factors (riskOrNew key risks)) = Some score ->
    (forall regulation node,
        In regulation regulations -> reg_id regulation = id ->
        OMap.get key (nodesOf regulation) = Some node ->
        pn_impactScore node = score) ->
    OMap.get id (er_factors (riskOrNew key (after regulations risks))) = Some score.
Proof.
  induction regulations as [| regulation rest IH]; intros risks key id score Hget Hsame;
    [exact Hget |].
  rewrite risksAfter_cons. apply IH.
  - unfold riskOrNew at 1.
    rewrite (addNodes_get regulation (nodesOf regulation)
               (regulationNodes_unique tenantId db graph regulation)).
    destruct (OMap.get key (nodesOf regulation)) as [node |] eqn:E; simpl.
    + destruct (string_dec (reg_id regulation) id) as [Hid | Hid].
      * rewrite Hid, get_set_same. f_equal.
        apply (Hsame regulation node); auto. now left.
      * rewrite get_set_other by exact Hid. exact Hget.
    + exact Hget.
  - intros r node Hr. apply Hsame. now right.
Qed.

(** The factor an entry holds for a regulation that reaches it. *)
Lemma risksAfter_factor regulations :
  forall risks key regulation node,
    In regulation regulations ->
    OMap.get key (nodesOf regulation) = Some node ->
    OMap.get (reg_id regulation)
      (er_factors (riskOrNew key (after regulations risks)))
    = Some (pn_impactScore node).
Proof.
  induction regulations as [| r0 rest IH]; intros risks key regulation node Hin Hnode;
    [destruct Hin |].
  rewrite risksAfter_cons.
  destruct (in_dec string_dec (reg_id regulation) (map reg_id rest)) as [Hlater | Hlater].
  - apply in_map_iff in Hlater. destruct Hlater as [r' [Hid Hr']].
    rewrite <- Hid. apply IH; trivial.
    unfold nodesOf. rewrite (regulationNodes_id _ _ _ r' regulation Hid). exact Hnode.
  - destruct Hin as [-> | Hin];
      [| exfalso; apply Hlater; apply in_map_iff; now exists regulation].
    apply risksAfter_factor_kept.
    + unfold riskOrNew at 1.
      rewrite (addNodes_get regulation (nodesOf regulation)
                 (regulationNodes_unique tenantId db graph regulation)).
      rewrite Hnode. simpl. apply get_set_same.
    + intros r' node' Hr' Hid _. exfalso. apply Hlater.
      apply in_map_iff. now exists r'.
Qed.
End RisksAfter.

(** ** The emitted risk results *)

Lemma splitColon_plain acc s :
  hasColon s = false -> splitColon acc s = [(acc ++ s)%string].
Proof.
  revert acc. induction s as [| ch s IH]; intros acc; simpl.
  - intros _. f_equal. induction acc as [| a acc IHa]; simpl; congruence.
  - destruct (Ascii.eqb ch ":"%char); [discriminate |]. simpl. intros H.
    rewrite (IH _ H). f_equal.
    induction acc as [| a acc IHa]; simpl; congruence.
Qed.

Lemma split_entityKey t id : split (entityKey t id) = entityTypeName t :: split id.
Proof. destruct t; reflexivity. Qed.

Lemma split_plain id : hasColon id = false -> split id = [id].
Proof. intros H. unfold split. now rewrite splitColon_plain. Qed.

(** The result emitted for the entry of [key]. *)
Lemma toResult_key count key data :
  let r := toResult count (key, data) in
  rr_entityType r = hd EmptyString (split key)
  /\ rr_entityId r = nth_error (split key) 1
  /\ rr_adjustedRiskScore r = er_totalRisk data
  /\ rr_baseRiskScore r = rr_adjustedRiskScore r / inject_Z (Z.of_nat count)
  /\ rr_riskLevel r = getRiskLevel (rr_baseRiskScore r)
  /\ rr_riskFactors r = er_factors data.
Proof. simpl. repeat split. Qed.

Section CalculateAllRisks.
Variables (tenantId : string) (db : Db) (c : MemoryCache DependencyGraph) (now : Z).

Let regulations := findActiveRegulations db tenantId.
Let graph := fst (buildDependencyGraph db c now tenantId).
Let risks := risksAfter tenantId db graph regulations OMap.empty.
Let results :=
  js_sort (fun a b => rr_adjustedRiskScore b - rr_adjustedRiskScore a)
    (map (toResult (List.length regulations)) risks).

Lemma calculateAllRisks_results :
  fst (calculateAllRisks tenantId db c now) = Some results.
Proof. apply calculateAllRisks_eq. Qed.

Lemma risks_unique : NoDup (OMap.keys risks).
Proof. apply risksAfter_unique. constructor. Qed.

(** The results are the entries of the aggregated map. *)
Lemma results_In r :
  In r results <->
  exists key data,
    OMap.get key risks = Some data
    /\ r = toResult (List.length regulations) (key, data).
Proof.
  unfold results. rewrite (js_sort_In _ r), in_map_iff. split.
  - intros [[key data] [<- Hin]]. exists key, data. split; trivial.
    apply In_get; [apply risks_unique | exact Hin].
  - intros [key [data [Hget ->]]]. exists (key, data). split; trivial.
    now apply get_Some_In.
Qed.

Lemma risks_reached key :
  In key (OMap.keys risks) <->
  exists regulation,
    In regulation regulations
    /\ In key (OMap.keys (regulationNodes tenantId db graph regulation)).
Proof.
  unfold risks. rewrite risksAfter_keys. simpl. tauto.
Qed.

Lemma risks_total key data :
  OMap.get key risks = Some data ->
  er_totalRisk data == totalRiskOf tenantId db graph regulations key.
Proof.
  intros Hget.
  pose proof (risksAfter_total tenantId db graph regulations OMap.empty key) as H.
  fold risks in H. unfold riskOrNew in H. rewrite Hget in H. exact H.
Qed.

Lemma results_sorted :
  StronglySorted (fun a b => rr_adjustedRiskScore b <= rr_adjustedRiskScore a)
    results.
Proof.
  apply (js_sort_sorted _ rr_adjustedRiskScore). intros x y. reflexivity.
Qed.

(** What is emitted, for which entities, and in which order. *)
Lemma calculateAllRisks_spec :
  exists rs,
    fst (calculateAllRisks tenantId db c now) = Some rs
    /\ (forall r, In r rs ->
          exists key,
            (exists regulation,
                In regulation regulations
                /\ In key (OMap.keys (regulationNodes tenantId db graph regulation)))
            /\ rr_entityType r = hd EmptyString (split key)
            /\ rr_entityId r = nth_error (split key) 1
            /\ rr_adjustedRiskScore r
               == totalRiskOf tenantId db graph regulations key
            /\ rr_baseRiskScore r
               = rr_adjustedRiskScore r / inject_Z (Z.of_nat (List.length regulations))
            /\ rr_riskLevel r = getRiskLevel (rr_baseRiskScore r))
    /\ (forall regulation key,
          In regulation regulations ->
          In key (OMap.keys (regulationNodes tenantId db graph regulation)) ->
          exists r,
            In r rs
            /\ rr_entityType r = hd EmptyString (split key)
            /\ rr_entityId r = nth_error (split key) 1
            /\ rr_adjustedRiskScore r
               == totalRiskOf tenantId db graph regulations key)
    /\ StronglySorted
         (fun a b => rr_adjustedRiskScore b <= rr_adjustedRiskScore a) rs.
Proof.
  exists results. split; [apply calculateAllRisks_results |].
  split; [| split; [| apply results_sorted]].
  - intros r Hr. apply results_In in Hr. destruct Hr as [key [data [Hget ->]]].
    exists key. split.
    + apply risks_reached. now apply get_In_keys in Hget.
    + pose proof (toResult_key (List.length regulations) key data) as HR.
      cbv zeta in HR. destruct HR as [Ht [Hid [Hadj [Hbase [Hlvl _]]]]].
      repeat split; trivial. rewrite Hadj. now apply risks_total.
  - intros regulation key Hreg Hkey.
    assert (Hin : In key (OMap.keys risks))
      by (apply risks_reached; now exists regulation).
    apply In_keys_get in Hin. destruct Hin as [data Hget].
    exists (toResult (List.length regulations) (key, data)). split.
    + apply results_In. now exists key, data.
    + pose proof (toResult_key (List.length regulations) key data) as HR.
      cbv zeta in HR. destruct HR as [Ht [Hid [Hadj _]]].
      repeat split; trivial. rewrite Hadj. now apply risks_total.
Qed.

(** The result emitted for an active regulation itself. *)
Lemma calculateAllRisks_regulation regulation :
  In regulation regulations ->
  exists rs r node,
    fst (calculateAllRisks tenantId db c now) = Some rs
    /\ In r rs
    /\ rr_entityType r = "REGULATION"
    /\ (hasColon (reg_id regulation) = false ->
        rr_entityId r = Some (reg_id regulation))
    /\ OMap.get (entityKey REGULATION (reg_id regulation))
         (regulationNodes tenantId db graph regulation) = Some node
    /\ pn_depth node = 0%nat
    /\ OMap.get (reg_id regulation) (rr_riskFactors r) = Some (pn_impactScore node)
    /\ 1 <= pn_impactScore node
    /\ ((forall p, In p (regulationEdges tenantId db graph regulation) ->
                   pathTargetKey p <> entityKey REGULATION (reg_id regulation)) ->
        pn_impactScore node = 1).
Proof.
  intros Hreg.
  set (key := entityKey REGULATION (reg_id regulation)).
  destruct (propagateOn_source_node (loadedEngine tenantId graph) db graph
              (riskConfig tenantId regulation))
    as [res [E [[node [Hnode [Hdepth [Hle Heq]]]] _]]].
  assert (Hnodes : regulationNodes tenantId db graph regulation = pr_nodes res)
    by (unfold regulationNodes; now rewrite E).
  assert (Hedges : regulationEdges tenantId db graph regulation = pr_edges res)
    by (unfold regulationEdges; now rewrite E).
  change (sourceKeyOf (riskConfig tenantId regulation)) with key in Hnode, Heq.
  change (initialImpactOf (riskConfig tenantId regulation)) with 1 in Hle, Heq.
  rewrite <- Hnodes in Hnode. rewrite <- Hedges in Heq.
  assert (Hin : In key (OMap.keys risks)).
  { apply risks_reached. exists regulation. split; trivial.
    now apply get_In_keys in Hnode. }
  apply In_keys_get in Hin. destruct Hin as [data Hget].
  exists results, (toResult (List.length regulations) (key, data)), node.
  split; [apply calculateAllRisks_results |].
  split; [apply results_In; now exists key, data |].
  assert (Hsplit : split key = "REGULATION" :: split (reg_id regulation))
    by apply split_entityKey.
  pose proof (toResult_key (List.length regulations) key data) as HR.
  cbv zeta in HR. destruct HR as [Ht [Hid [_ [_ [_ Hfac]]]]].
  split; [rewrite Ht, Hsplit; reflexivity |].
  split; [intros Hplain; rewrite Hid, Hsplit; simpl; now rewrite split_plain |].
  split; [exact Hnode |]. split; [exact Hdepth |].
  split; [| split; [exact Hle | exact Heq]].
  pose proof (risksAfter_factor tenantId db graph regulations OMap.empty key
                regulation node Hreg Hnode) as Hf.
  fold risks in Hf. unfold riskOrNew in Hf. rewrite Hget in Hf.
  rewrite Hfac. exact Hf.
Qed.
End CalculateAllRisks.

(** C6 (as amended). [calculateAllRisks] returns one result per node reached
    from an active regulation; its adjusted score is the sum, over the active
    regulations, of the node's score in that regulation's propagation times
    the severity multiplier (Critical 2.0, High 1.5, Medium 1.0, Low 0.5,
    otherwise 1.0); its base score is the adjusted score divided by the number
    of active regulations; its level is [getRiskLevel] of the base score; the
    list is sorted by decreasing adjusted score.  Every propagation is seeded
    with the default initial impact 1.0, so in the scenario of a Critical and
    a Medium regulation with one Direct edge of weight 1.0 each to the same
    department, the department gets total and adjusted risk 3.0, base risk
    1.5 and level Critical. *)
Theorem risk_aggregation :
  (forall tenantId db c now,
      let regulations := findActiveRegulations db tenantId in
      let graph := fst (buildDependencyGraph db c now tenantId) in
      exists rs,
        fst (calculateAllRisks tenantId db c now) = Some rs
        /\ (forall r, In r rs ->
              exists key,
                (exists regulation,
                    In regulation regulations
                    /\ In key (OMap.keys (regulationNodes tenantId db graph regulation)))
                /\ rr_entityType r = hd EmptyString (split key)
                /\ rr_entityId r = nth_error (split key) 1
                /\ rr_adjustedRiskScore r
                   == totalRiskOf tenantId db graph regulations key
                /\ rr_baseRiskScore r
                   = rr_adjustedRiskScore r
                     / inject_Z (Z.of_nat (List.length regulations))
                /\ rr_riskLevel r = getRiskLevel (rr_baseRiskScore r))
        /\ (forall regulation key,
              In regulation regulations ->
              In key (OMap.keys (regulationNodes tenantId db graph regulation)) ->
              exists r,
                In r rs
                /\ rr_entityType r = hd EmptyString (split key)
                /\ rr_entityId r = nth_error (split key) 1
                /\ rr_adjustedRiskScore r
                   == totalRiskOf tenantId db graph regulations key)
        /\ StronglySorted
             (fun a b => rr_adjustedRiskScore b <= rr_adjustedRiskScore a) rs)
  /\ (getSeverityMultiplier (Some "Critical") == 2
      /\ getSeverityMultiplier (Some "High") == 15 # 10
      /\ getSeverityMultiplier (Some "Medium") == 1
      /\ getSeverityMultiplier (Some "Low") == 5 # 10
      /\ getSeverityMultiplier None == 1
      /\ forall s, s <> "Critical" -> s <> "High" -> s <> "Medium" -> s <> "Low" ->
                   getSeverityMultiplier (Some s) == 1)
  /\ fst (calculateAllRisks Scenario.tenant Scenario.twoRegulations Cache.new 0)
     = Some
         [mkRiskCalculationResult "DEPARTMENT" (Some "D1") (3 # 2) 3 "Critical"
            [("R1", 1); ("R2", 1)];
          mkRiskCalculationResult "REGULATION" (Some "R1") (2 # 2) 2 "Critical"
            [("R1", 1)];
          mkRiskCalculationResult "REGULATION" (Some "R2") (1 # 2) 1 "Medium"
            [("R2", 1)]].
Proof.
  split; [| split; [| reflexivity]].
  - intros tenantId db c now. apply calculateAllRisks_spec.
  - repeat split; try reflexivity.
    intros s H1 H2 H3 H4. unfold getSeverityMultiplier.
    apply String.eqb_neq in H1, H2, H3, H4. rewrite H1, H2, H3, H4. reflexivity.
Qed.

(** In the scenario of C6 the department's adjusted (total) risk is 3.0 and
    its base risk 1.5: they are not 2.5 and 1.25. *)
Lemma risk_scenario_department :
  exists rs r,
    fst (calculateAllRisks Scenario.tenant Scenario.twoRegulations Cache.new 0)
    = Some rs
    /\ In r rs
    /\ rr_entityType r = "DEPARTMENT"
    /\ rr_entityId r = Some "D1"
    /\ rr_adjustedRiskScore r == 3
    /\ rr_baseRiskScore r == 3 # 2
    /\ ~ rr_adjustedRiskScore r == 25 # 10
    /\ ~ rr_baseRiskScore r == 125 # 100.
Proof.
  eexists. eexists. split; [reflexivity |]. split; [left; reflexivity |].
  simpl. repeat split; try reflexivity; vm_compute; discriminate.
Qed.

(** C10 (as amended). Every active regulation is itself scored: the results
    hold an entry of type REGULATION, with the regulation's id when the id has
    no colon, whose risk factors map the regulation's id to the score of the
    source node of its own propagation; that score is at least the seed 1.0,
    and is the seed when no traversed edge leads back into the regulation. *)
Theorem regulations_are_scored tenantId db c now regulation :
  In regulation (findActiveRegulations db tenantId) ->
  let graph := fst (buildDependencyGraph db c now tenantId) in
  exists rs r node,
    fst (calculateAllRisks tenantId db c now) = Some rs
    /\ In r rs
    /\ rr_entityType r = "REGULATION"
    /\ (hasColon (reg_id regulation) = false ->
        rr_entityId r = Some (reg_id regulation))
    /\ OMap.get (entityKey REGULATION (reg_id regulation))
         (regulationNodes tenantId db graph regulation) = Some node
    /\ pn_depth node = 0%nat
    /\ OMap.get (reg_id regulation) (rr_riskFactors r) = Some (pn_impactScore node)
    /\ 1 <= pn_impactScore node
    /\ ((forall p, In p (regulationEdges tenantId db graph regulation) ->
                   pathTargetKey p <> entityKey REGULATION (reg_id regulation)) ->
        pn_impactScore node = 1).
Proof.
  intros Hreg graph. now apply calculateAllRisks_regulation.
Qed.

Lemma regulations_are_scored_witness :
  exists rs r node,
    fst (calculateAllRisks Scenario.tenant Scenario.twoRegulations Cache.new 0)
    = Some rs
    /\ In r rs
    /\ rr_entityType r = "REGULATION"
    /\ (hasColon "R2" = false -> rr_entityId r = Some "R2")
    /\ OMap.get (entityKey REGULATION "R2")
         (regulationNodes Scenario.tenant Scenario.twoRegulations
            (fst (buildDependencyGraph Scenario.twoRegulations Cache.new 0
                    Scenario.tenant))
            (mkRegulation "R2" Scenario.tenant "Active" (Some "Medium")))
       = Some node
    /\ pn_depth node = 0%nat
    /\ OMap.get "R2" (rr_riskFactors r) = Some (pn_impactScore node)
    /\ 1 <= pn_impactScore node
    /\ ((forall p,
            In p (regulationEdges Scenario.tenant Scenario.twoRegulations
                    (fst (buildDependencyGraph Scenario.twoRegulations Cache.new 0
                            Scenario.tenant))
                    (mkRegulation "R2" Scenario.tenant "Active" (Some "Medium"))) ->
            pathTargetKey p <> entityKey REGULATION "R2") ->
        pn_impactScore node = 1).
Proof.
  apply (regulations_are_scored Scenario.tenant Scenario.twoRegulations Cache.new 0
           (mkRegulation "R2" Scenario.tenant "Active" (Some "Medium"))).
  simpl. right. left. reflexivity.
Defined.

(** With one active regulation R1 on the graph where R1 and D1 point at each
    other, the factor recorded for R1 in its own result is 1.2, not the seed
    1.0. *)
Lemma regulation_factor_exceeds_seed :
  exists rs r score,
    fst (calculateAllRisks Scenario.tenant Scenario.oneRegulationBackEdge Cache.new 0)
    = Some rs
    /\ In r rs
    /\ rr_entityType r = "REGULATION"
    /\ rr_entityId r = Some "R1"
    /\ OMap.get "R1" (rr_riskFactors r) = Some score
    /\ score == 12 # 10
    /\ ~ score == 1.
Proof.
  eexists. eexists. eexists. split; [reflexivity |].
  split; [left; reflexivity |]. simpl.
  repeat split; try reflexivity. vm_compute. discriminate.
Qed.

(** ** Threshold monotonicity on tree-shaped graphs *)

Lemma NoDup_map_injective {A B : Type} (f : A -> B) (l : list A) x y :
  NoDup (map f l) -> In x l -> In y l -> f x = f y -> x = y.
Proof.
  induction l as [| a l IH]; simpl; [intros _ [] |].
  intros Hnd Hx Hy Hf. inversion Hnd as [| ? ? Hnot Hnd']; subst.
  destruct Hx as [-> | Hx], Hy as [-> | Hy]; trivial.
  - exfalso. apply Hnot. rewrite Hf. now apply in_map.
  - exfalso. apply Hnot. rewrite <- Hf. now apply in_map.
  - now apply IH.
Qed.

Lemma NoDup_app_middle {A : Type} (l1 l2 l3 : list A) :
  NoDup (l1 ++ l2 ++ l3) -> NoDup l2.
Proof.
  intros H. apply NoDup_app_remove_l in H. now apply NoDup_app_remove_r in H.
Qed.

Lemma bucket_visitedKeys_unique graph key :
  NoDup (map pairVisitedKey (graphPairs graph)) ->
  NoDup (map (fun e => visitedKeyOf key (targetKeyOf e)) (outgoingEdges graph key)).
Proof.
  unfold outgoingEdges, graphPairs.
  destruct (OMap.get key (outgoing graph)) as [es |] eqn:E; [| constructor].
  apply get_Some_In in E. apply in_split in E. destruct E as [l1 [l2 ->]].
  rewrite flat_map_app. simpl. rewrite !map_app. intros H.
  apply NoDup_app_middle in H. now rewrite map_map in H.
Qed.

Lemma incomingVisited_mono graph v v' key :
  incl v v' -> incomingVisited graph v key -> incomingVisited graph v' key.
Proof. intros Hincl H ke Hin Ht. apply Hincl. now apply H. Qed.

Lemma incl_add x (v : StrSet.t) : incl v (StrSet.add x v).
Proof. intros y Hy. apply StrSet_add_In. now right. Qed.

Lemma nodes_grow eng db graph fuel ct ci imp depth st st' :
  propagateBFS fuel eng db graph ct ci imp depth st = Some st' ->
  incl (OMap.keys (ts_nodes st)) (OMap.keys (ts_nodes st')).
Proof.
  apply (propagateBFS_invariant eng db graph
           (fun s => incl (OMap.keys (ts_nodes st)) (OMap.keys (ts_nodes s)))).
  - intros s ct' ci' e H _ _. exact H.
  - intros s ct' ci' imp' depth' e H _ _ k Hk. simpl. unfold touchNode.
    destruct (OMap.get _ _); apply In_keys_set; right; now apply H.
  - apply incl_refl.
Qed.

Lemma touchNode_keys db e p depth pathEntry nodes k :
  In k (OMap.keys (touchNode db e p depth pathEntry nodes))
  <-> k = targetKeyOf e \/ In k (OMap.keys nodes).
Proof.
  unfold touchNode. destruct (OMap.get _ _); apply In_keys_set.
Qed.

Section Tree.
Variables (db : Db) (graph : DependencyGraph).
Hypothesis targets_unique :
  NoDup (map (fun ke => targetKeyOf (snd ke)) (graphPairs graph)).
Hypothesis visitedKeys_unique : NoDup (map pairVisitedKey (graphPairs graph)).

Lemma pair_of_visitedKey ke ke' :
  In ke (graphPairs graph) -> In ke' (graphPairs graph) ->
  pairVisitedKey ke = pairVisitedKey ke' -> ke = ke'.
Proof. apply NoDup_map_injective. exact visitedKeys_unique. Qed.

Lemma pair_of_target ke ke' :
  In ke (graphPairs graph) -> In ke' (graphPairs graph) ->
  targetKeyOf (snd ke) = targetKeyOf (snd ke') -> ke = ke'.
Proof.
  apply (NoDup_map_injective (fun ke => targetKeyOf (snd ke))).
  exact targets_unique.
Qed.

(** Marking an edge out of a node all of whose incoming edges are visited
    keeps [parentsFirst]. *)
Lemma parentsFirst_add v key e :
  parentsFirst graph v ->
  incomingVisited graph v key ->
  In (key, e) (graphPairs graph) ->
  parentsFirst graph (StrSet.add (visitedKeyOf key (targetKeyOf e)) v).
Proof.
  intros Hpf Hinc Hin ke Hke Hv.
  apply (incomingVisited_mono graph v); [apply incl_add |].
  apply StrSet_add_In in Hv. destruct Hv as [Hv | Hv].
  - assert (ke = (key, e)) as -> by (apply pair_of_visitedKey; trivial).
    exact Hinc.
  - now apply Hpf.
Qed.

(** The new visited keys of a traversal from a node. *)
Lemma propagateBFS_visitedBelow eng fuel :
  forall ct ci imp depth st st',
    propagateBFS fuel eng db graph ct ci imp depth st = Some st' ->
    visitedBelow graph (ts_visited st) (entityKey ct ci) (ts_visited st').
Proof.
  induction fuel as [| fuel IH]; intros ct ci imp depth st st'; simpl;
    [discriminate |].
  assert (Hrefl : visitedBelow graph (ts_visited st) (entityKey ct ci) (ts_visited st))
    by (split; [apply incl_refl | auto]).
  destruct (Qle_bool _ _); [intros [= <-]; exact Hrefl |].
  destruct (Qlt_bool _ _); [intros [= <-]; exact Hrefl |].
  apply (forOf_invariant _
           (fun s => visitedBelow graph (ts_visited st) (entityKey ct ci)
                       (ts_visited s))); [| exact Hrefl].
  intros e s s' He [Hincl Hs]. rewrite visitEdge_eq.
  apply outgoingEdges_pairs in He.
  destruct (skipped eng e); [intros [= <-]; now split |].
  destruct (StrSet.has _ _) eqn:Hv; [intros [= <-]; now split |].
  apply StrSet_has_false_iff in Hv.
  assert (Hmark : forall ke,
             In ke (graphPairs graph) ->
             In (pairVisitedKey ke)
               (StrSet.add (visitedKeyOf (entityKey ct ci) (targetKeyOf e))
                  (ts_visited s)) ->
             In (pairVisitedKey ke) (ts_visited st)
             \/ fst ke = entityKey ct ci
             \/ exists ke0,
                  In ke0 (graphPairs graph)
                  /\ targetKeyOf (snd ke0) = fst ke
                  /\ ~ In (pairVisitedKey ke0) (ts_visited st)).
  { intros ke Hke Hin. apply StrSet_add_In in Hin. destruct Hin as [Hin | Hin].
    - assert (ke = (entityKey ct ci, e)) as ->
        by (apply pair_of_visitedKey; trivial).
      right. now left.
    - now apply Hs. }
  destruct (Qlt_bool _ _).
  - intros [= <-]. simpl. split; [| exact Hmark].
    intros x Hx. apply incl_add. now apply Hincl.
  - intros Hrec. apply IH in Hrec. destruct Hrec as [Hincl' Hs']. simpl in *.
    split.
    + intros x Hx. apply Hincl', incl_add. now apply Hincl.
    + intros ke Hke Hin. destruct (Hs' ke Hke Hin) as [H | [H | [ke0 [H0 [Ht Hn]]]]].
      * now apply Hmark.
      * right. right. exists (entityKey ct ci, e). split; [exact He |].
        split; [now rewrite H |]. intro Hc. apply Hv. now apply Hincl.
      * right. right. exists ke0. split; [exact H0 |]. split; [exact Ht |].
        intro Hc. apply Hn. apply incl_add. now apply Hincl.
Qed.

(** A traversal entered with [parentsFirst] leaves with it. *)
Lemma propagateBFS_parentsFirst eng fuel :
  forall ct ci imp depth st st',
    parentsFirst graph (ts_visited st) ->
    incomingVisited graph (ts_visited st) (entityKey ct ci) ->
    propagateBFS fuel eng db graph ct ci imp depth st = Some st' ->
    parentsFirst graph (ts_visited st').
Proof.
  induction fuel as [| fuel IH]; intros ct ci imp depth st st' Hpf Hinc; simpl;
    [discriminate |].
  destruct (Qle_bool _ _); [intros [= <-]; exact Hpf |].
  destruct (Qlt_bool _ _); [intros [= <-]; exact Hpf |].
  intros Hrun.
  apply (forOf_invariant _
           (fun s => parentsFirst graph (ts_visited s)
                     /\ incl (ts_visited st) (ts_visited s)))
    with (s' := st') in Hrun; [tauto | | split; [exact Hpf | apply incl_refl]].
  intros e s s' He [Hs Hincl]. rewrite visitEdge_eq.
  apply outgoingEdges_pairs in He.
  destruct (skipped eng e); [intros [= <-]; now split |].
  destruct (StrSet.has _ _) eqn:Hv; [intros [= <-]; now split |].
  assert (Hadd : parentsFirst graph
                   (StrSet.add (visitedKeyOf (entityKey ct ci) (targetKeyOf e))
                      (ts_visited s))).
  { apply parentsFirst_add; trivial.
    now apply (incomingVisited_mono graph (ts_visited st)). }
  destruct (Qlt_bool _ _).
  - intros [= <-]. simpl. split; [exact Hadd |].
    intros x Hx. apply incl_add. now apply Hincl.
  - intros Hrec. split.
    + apply IH in Hrec; trivial. simpl.
      intros ke Hke Ht. apply StrSet_add_In. left.
      assert (ke = (entityKey ct ci, e)) as -> by (apply pair_of_target; trivial).
      reflexivity.
    + apply propagateBFS_visited_grows in Hrec. simpl in Hrec.
      intros x Hx. apply Hrec, incl_add. now apply Hincl.
Qed.

(** The loop invariant at the tail, after the head edge has been marked. *)
Lemma loopReady_marked v key e es :
  loopReady graph v key (e :: es) ->
  loopReady graph (StrSet.add (visitedKeyOf key (targetKeyOf e)) v) key es.
Proof.
  intros [Hpf [Hinc [Hes Hnd]]].
  destruct (Hes e (or_introl eq_refl)) as [He Hv].
  simpl in Hnd. inversion Hnd as [| ? ? Hnot Hnd']; subst.
  split; [now apply parentsFirst_add |].
  split; [apply (incomingVisited_mono graph v); [apply incl_add | exact Hinc] |].
  split; [| exact Hnd'].
  intros e' He'. destruct (Hes e' (or_intror He')) as [Hin Hv'].
  split; [exact Hin |]. intro Hc. apply StrSet_add_In in Hc.
  destruct Hc as [Hc | Hc]; [| contradiction].
  apply Hnot. rewrite <- Hc. apply in_map_iff. now exists e'.
Qed.

Lemma loopReady_skip v key e es :
  loopReady graph v key (e :: es) -> loopReady graph v key es.
Proof.
  intros [Hpf [Hinc [Hes Hnd]]]. simpl in Hnd.
  inversion Hnd as [| ? ? Hnot Hnd']; subst.
  repeat split; trivial; apply Hes; now right.
Qed.

(** The loop invariant for the target of the head edge, once it is marked. *)
Lemma loopReady_child v key e es :
  loopReady graph v key (e :: es) ->
  loopReady graph (StrSet.add (visitedKeyOf key (targetKeyOf e)) v)
    (targetKeyOf e) (outgoingEdges graph (targetKeyOf e)).
Proof.
  intros [Hpf [Hinc [Hes Hnd]]].
  destruct (Hes e (or_introl eq_refl)) as [He Hv].
  split; [now apply parentsFirst_add |].
  split.
  { intros ke Hke Ht. apply StrSet_add_In. left.
    assert (ke = (key, e)) as -> by (apply pair_of_target; trivial).
    reflexivity. }
  split; [| now apply bucket_visitedKeys_unique].
  intros e' He'. apply outgoingEdges_pairs in He'. split; [exact He' |].
  intro Hc. apply StrSet_add_In in Hc. destruct Hc as [Hc | Hc].
  - assert (Heq : (targetKeyOf e, e') = (key, e))
      by (apply pair_of_visitedKey; trivial).
    injection Heq as Hk _.
    apply Hv. apply (Hinc (key, e) He). simpl. exact Hk.
  - apply Hv. apply (Hpf (targetKeyOf e, e') He' Hc (key, e) He). reflexivity.
Qed.

(** The loop invariant at the tail, after the traversal below the head edge
    has returned. *)
Lemma loopReady_returned v key e es v' :
  loopReady graph v key (e :: es) ->
  visitedBelow graph (StrSet.add (visitedKeyOf key (targetKeyOf e)) v)
    (targetKeyOf e) v' ->
  parentsFirst graph v' ->
  loopReady graph v' key es.
Proof.
  intros Hready [Hincl Hbelow] Hpf'.
  pose proof (loopReady_marked v key e es Hready) as [_ [Hinc1 [Hes1 Hnd1]]].
  destruct Hready as [Hpf [Hinc [Hes Hnd]]].
  destruct (Hes e (or_introl eq_refl)) as [He Hv].
  split; [exact Hpf' |].
  split; [now apply (incomingVisited_mono graph _ v' key Hincl) |].
  split; [| exact Hnd1].
  intros e' He'. destruct (Hes1 e' He') as [Hin Hv1]. split; [exact Hin |].
  intro Hc. destruct (Hbelow (key, e') Hin Hc) as [H | [H | [ke0 [H0 [Ht Hn]]]]].
  - contradiction.
  - simpl in H. apply Hv. apply (Hinc (key, e) He). simpl. now rewrite H.
  - apply Hn. apply incl_add. now apply (Hinc ke0).
Qed.
End Tree.

Section ThresholdSimulation.
Variables (db : Db) (graph : DependencyGraph) (eng : PropagationEngine).
Variables (theta1 theta2 : Q).
Hypothesis targets_unique :
  NoDup (map (fun ke => targetKeyOf (snd ke)) (graphPairs graph)).
Hypothesis visitedKeys_unique : NoDup (map pairVisitedKey (graphPairs graph)).
Hypothesis theta_le : theta1 <= theta2.

Let eng1 := withThreshold eng theta1.
Let eng2 := withThreshold eng theta2.

Lemma below_theta1_below_theta2 x :
  Qlt_bool x theta1 = true -> Qlt_bool x theta2 = true.
Proof.
  rewrite !Qlt_bool_iff. intros H. now apply Qlt_le_trans with theta1.
Qed.

(** One turn of the two loops, run side by side on the same edge. *)
Lemma visitEdge_simulation fuel1 fuel2 ct ci imp depth e es st1 st2 s1 s2 :
  (forall ct' ci' imp' depth' t1 t2 t1' t2',
      loopReady graph (ts_visited t1) (entityKey ct' ci')
        (outgoingEdges graph (entityKey ct' ci')) ->
      incl (OMap.keys (ts_nodes t2)) (OMap.keys (ts_nodes t1)) ->
      propagateBFS fuel1 eng1 db graph ct' ci' imp' depth' t1 = Some t1' ->
      propagateBFS fuel2 eng2 db graph ct' ci' imp' depth' t2 = Some t2' ->
      incl (OMap.keys (ts_nodes t2')) (OMap.keys (ts_nodes t1'))) ->
  loopReady graph (ts_visited st1) (entityKey ct ci) (e :: es) ->
  incl (OMap.keys (ts_nodes st2)) (OMap.keys (ts_nodes st1)) ->
  visitEdge eng1 db (propagateBFS fuel1 eng1 db graph) ct ci imp depth e st1
  = Some s1 ->
  visitEdge eng2 db (propagateBFS fuel2 eng2 db graph) ct ci imp depth e st2
  = Some s2 ->
  loopReady graph (ts_visited s1) (entityKey ct ci) es
  /\ incl (OMap.keys (ts_nodes s2)) (OMap.keys (ts_nodes s1)).
Proof.
  intros IH Hready Hkeys. rewrite !visitEdge_eq.
  change (skipped eng2 e) with (skipped eng e).
  change (skipped eng1 e) with (skipped eng e).
  change (eng_impactThreshold eng1) with theta1.
  change (eng_impactThreshold eng2) with theta2.
  destruct (skipped eng e).
  { intros [= <-] [= <-]. split; [now apply loopReady_skip in Hready | exact Hkeys]. }
  assert (Hv1 : StrSet.has (visitedKeyOf (entityKey ct ci) (targetKeyOf e))
                  (ts_visited st1) = false).
  { apply StrSet_has_false_iff.
    destruct Hready as [_ [_ [Hes _]]]. apply (Hes e). now left. }
  rewrite Hv1.
  destruct (Qlt_bool (propagatedImpactOf imp e) theta1) eqn:E1.
  - (* dropped on the lower threshold, hence on the higher one *)
    rewrite (below_theta1_below_theta2 _ E1).
    intros [= <-]. simpl.
    split; [now apply (loopReady_marked graph visitedKeys_unique) |].
    destruct (StrSet.has _ (ts_visited st2)); injection H as <-; exact Hkeys.
  - (* accepted on the lower threshold *)
    intros Hrun1.
    assert (Hs1 : loopReady graph (ts_visited s1) (entityKey ct ci) es).
    { apply (loopReady_returned graph visitedKeys_unique
               (ts_visited st1) (entityKey ct ci) e es); trivial.
      - apply (propagateBFS_visitedBelow db graph visitedKeys_unique) in Hrun1.
        exact Hrun1.
      - pose proof (loopReady_child graph targets_unique visitedKeys_unique
                      _ _ _ _ Hready) as [Hpf [Hinc _]].
        apply (propagateBFS_parentsFirst db graph targets_unique
                 visitedKeys_unique) in Hrun1; trivial. }
    split; [exact Hs1 |].
    assert (Hgrow : incl (OMap.keys (ts_nodes st1)) (OMap.keys (ts_nodes s1))).
    { apply nodes_grow in Hrun1. intros k Hk. apply Hrun1. simpl.
      apply touchNode_keys. now right. }
    destruct (StrSet.has _ (ts_visited st2)).
    { injection H as <-. intros k Hk. now apply Hgrow, Hkeys. }
    destruct (Qlt_bool (propagatedImpactOf imp e) theta2).
    { injection H as <-. simpl. intros k Hk. now apply Hgrow, Hkeys. }
    eapply IH; [| | exact Hrun1 | exact H].
    + exact (loopReady_child graph targets_unique visitedKeys_unique _ _ _ _ Hready).
    + simpl. intros k Hk. apply touchNode_keys. apply touchNode_keys in Hk.
      destruct Hk as [Hk | Hk]; [now left | right; now apply Hkeys].
Qed.

Lemma forOf_simulation fuel1 fuel2 ct ci imp depth es :
  (forall ct' ci' imp' depth' t1 t2 t1' t2',
      loopReady graph (ts_visited t1) (entityKey ct' ci')
        (outgoingEdges graph (entityKey ct' ci')) ->
      incl (OMap.keys (ts_nodes t2)) (OMap.keys (ts_nodes t1)) ->
      propagateBFS fuel1 eng1 db graph ct' ci' imp' depth' t1 = Some t1' ->
      propagateBFS fuel2 eng2 db graph ct' ci' imp' depth' t2 = Some t2' ->
      incl (OMap.keys (ts_nodes t2')) (OMap.keys (ts_nodes t1'))) ->
  forall st1 st2 st1' st2',
    loopReady graph (ts_visited st1) (entityKey ct ci) es ->
    incl (OMap.keys (ts_nodes st2)) (OMap.keys (ts_nodes st1)) ->
    forOf (visitEdge eng1 db (propagateBFS fuel1 eng1 db graph) ct ci imp depth)
      es st1 = Some st1' ->
    forOf (visitEdge eng2 db (propagateBFS fuel2 eng2 db graph) ct ci imp depth)
      es st2 = Some st2' ->
    incl (OMap.keys (ts_nodes st2')) (OMap.keys (ts_nodes st1')).
Proof.
  intros IH. induction es as [| e es IHes]; intros st1 st2 st1' st2' Hready Hkeys;
    cbn [forOf].
  - intros [= <-] [= <-]. exact Hkeys.
  - destruct (visitEdge eng1 _ _ _ _ _ _ e st1) as [s1 |] eqn:B1; [| discriminate].
    destruct (visitEdge eng2 _ _ _ _ _ _ e st2) as [s2 |] eqn:B2; [| discriminate].
    destruct (visitEdge_simulation fuel1 fuel2 ct ci imp depth e es st1 st2 s1 s2
                IH Hready Hkeys B1 B2) as [Hready' Hkeys'].
    now apply IHes.
Qed.

(** Run from the same node with the same impact, the traversal with the
    lower threshold ends with every node key of the other one. *)
Lemma propagateBFS_simulation fuel1 :
  forall fuel2 ct ci imp depth st1 st2 st1' st2',
    loopReady graph (ts_visited st1) (entityKey ct ci)
      (outgoingEdges graph (entityKey ct ci)) ->
    incl (OMap.keys (ts_nodes st2)) (OMap.keys (ts_nodes st1)) ->
    propagateBFS fuel1 eng1 db graph ct ci imp depth st1 = Some st1' ->
    propagateBFS fuel2 eng2 db graph ct ci imp depth st2 = Some st2' ->
    incl (OMap.keys (ts_nodes st2')) (OMap.keys (ts_nodes st1')).
Proof.
  induction fuel1 as [| fuel1 IH];
    intros fuel2 ct ci imp depth st1 st2 st1' st2' Hready Hkeys Hrun1 Hrun2;
    [discriminate |].
  destruct fuel2 as [| fuel2]; [discriminate |].
  pose proof (nodes_grow _ _ _ _ _ _ _ _ _ _ Hrun1) as Hgrow.
  cbn [propagateBFS] in Hrun1, Hrun2.
  change (eng_maxDepth eng1) with (eng_maxDepth eng) in Hrun1.
  change (eng_maxDepth eng2) with (eng_maxDepth eng) in Hrun2.
  change (eng_impactThreshold eng1) with theta1 in Hrun1.
  change (eng_impactThreshold eng2) with theta2 in Hrun2.
  destruct (Qle_bool (eng_maxDepth eng) _).
  { injection Hrun1 as <-. injection Hrun2 as <-. exact Hkeys. }
  destruct (Qlt_bool imp theta1) eqn:E1.
  { rewrite (below_theta1_below_theta2 _ E1) in Hrun2.
    injection Hrun1 as <-. injection Hrun2 as <-. exact Hkeys. }
  destruct (Qlt_bool imp theta2).
  { injection Hrun2 as <-. intros k Hk. now apply Hgrow, Hkeys. }
  apply (forOf_simulation fuel1 fuel2 ct ci imp depth _ (fun ct' ci' imp' depth' =>
           IH fuel2 ct' ci' imp' depth') st1 st2 st1' st2' Hready Hkeys Hrun1 Hrun2).
Qed.
End ThresholdSimulation.

(** On a graph that is tree-shaped as a whole, raising the threshold removes
    node keys from the result and adds none. *)
Lemma monotone_threshold_whole_graph eng db graph config theta1 theta2 :
  treeShaped graph (sourceKeyOf config) ->
  theta1 <= theta2 ->
  exists r1 r2,
    propagateOn (withThreshold eng theta1) db graph config = Some r1
    /\ propagateOn (withThreshold eng theta2) db graph config = Some r2
    /\ incl (OMap.keys (pr_nodes r2)) (OMap.keys (pr_nodes r1)).
Proof.
  intros [Htargets [Hsource Hkeys]] Hle.
  destruct (propagateOn_total (withThreshold eng theta1) db graph config)
    as [st1 [E1 ->]].
  destruct (propagateOn_total (withThreshold eng theta2) db graph config)
    as [st2 [E2 ->]].
  eexists. eexists. split; [reflexivity |]. split; [reflexivity |]. simpl.
  assert (Hready : loopReady graph [] (sourceKeyOf config)
                     (outgoingEdges graph (sourceKeyOf config))).
  { split; [intros ke _ [] |].
    split.
    { intros ke Hke Ht. exfalso. apply Hsource. rewrite <- Ht.
      apply in_map_iff. now exists ke. }
    split; [| apply bucket_visitedKeys_unique; exact Hkeys].
    intros e He. split; [apply outgoingEdges_pairs; exact He | intros []]. }
  exact (propagateBFS_simulation db graph eng theta1 theta2 Htargets Hkeys Hle
           (fuelFor graph) (fuelFor graph) (cfg_sourceType config)
           (cfg_sourceId config) (initialImpactOf config) 0%nat
           (initialState db config) (initialState db config) st1 st2 Hready
           (incl_refl _) E1 E2).
Qed.

(** ** The part of the graph below the source *)

Lemma get_map_values {A B : Type} (f : string -> A -> B) (k : string) (m : OMap.t A) :
  OMap.get k (map (fun kv => (fst kv, f (fst kv) (snd kv))) m)
  = match OMap.get k m with Some v => Some (f k v) | None => None end.
Proof.
  induction m as [| [k' v] m IH]; simpl; trivial.
  destruct (String.eqb k k') eqn:E; trivial.
  apply String.eqb_eq in E. now subst.
Qed.

Lemma forOf_eq_in {A S : Type} (body1 body2 : A -> S -> option S) (l : list A) :
  (forall x s, In x l -> body1 x s = body2 x s) ->
  forall s, forOf body1 l s = forOf body2 l s.
Proof.
  induction l as [| x l IH]; intros H s; simpl; trivial.
  rewrite (H x s (or_introl eq_refl)).
  destruct (body2 x s); trivial. apply IH. intros y t Hy. apply H. now right.
Qed.

Lemma forOf_skipped eng db recur ct ci imp depth es :
  forall st,
    forOf (visitEdge eng db recur ct ci imp depth)
      (filter (fun e => negb (skipped eng e)) es) st
    = forOf (visitEdge eng db recur ct ci imp depth) es st.
Proof.
  induction es as [| e es IH]; intros st; simpl; trivial.
  destruct (skipped eng e) eqn:E; simpl.
  - rewrite visitEdge_eq, E. apply IH.
  - destruct (visitEdge eng db recur ct ci imp depth e st); trivial.
Qed.

Lemma outgoingEdges_live eng region graph key :
  outgoingEdges (liveSubgraph eng region graph) key
  = if region key
    then filter (fun e => negb (skipped eng e)) (outgoingEdges graph key)
    else [].
Proof.
  unfold outgoingEdges, liveSubgraph. cbn [outgoing].
  rewrite (get_map_values
             (fun k es => if region k then filter (fun e => negb (skipped eng e)) es
                          else [])).
  destruct (OMap.get key (outgoing graph)); [reflexivity |].
  now destruct (region key).
Qed.

Lemma graphPairs_live eng region graph :
  graphPairs (liveSubgraph eng region graph) = livePairs eng region graph.
Proof.
  unfold livePairs, graphPairs, liveSubgraph. cbn [outgoing].
  induction (outgoing graph) as [| [k es] m IH]; [reflexivity |].
  cbn [map flat_map fst snd]. rewrite filter_app, IH. f_equal.
  unfold livePair. destruct (region k) eqn:Er.
  - induction es as [| e es IHes]; [reflexivity |].
    cbn [filter map fst snd]. rewrite Er.
    destruct (skipped eng e); cbn [negb andb map]; [exact IHes | now rewrite IHes].
  - induction es as [| e es IHes]; [reflexivity |].
    cbn [filter map fst snd]. rewrite Er. exact IHes.
Qed.

(** Dropping pairs keeps the keys of the remaining ones distinct. *)
Lemma filter_keeps_distinct {A K : Type} (keyOf : A -> K) (keep : A -> bool) :
  forall pairs : list A,
    NoDup (map keyOf pairs) -> NoDup (map keyOf (filter keep pairs)).
Proof.
  intros pairs. induction pairs as [| x l IH]; simpl; [constructor |].
  intros H. inversion H as [| ? ? Hnot Hnd]; subst.
  destruct (keep x); simpl; [| now apply IH].
  constructor; [| now apply IH].
  intros Hin. apply Hnot. apply in_map_iff in Hin. destruct Hin as [y [Hy Hin]].
  apply filter_In in Hin. apply in_map_iff. exists y. tauto.
Qed.

(** A graph that is tree-shaped as a whole is tree-shaped below every
    source, whatever the engine skips. *)
Lemma treeShaped_treeShapedBelow eng graph sourceKey :
  treeShaped graph sourceKey ->
  treeShapedBelow eng graph sourceKey (fun _ => true).
Proof.
  intros [Ht [Hs Hv]]. split; [split; trivial |]. unfold livePairs.
  split; [now apply filter_keeps_distinct |]. split; [| now apply filter_keeps_distinct].
  intros Hin. apply Hs. apply in_map_iff in Hin. destruct Hin as [ke [Hk Hin]].
  apply filter_In in Hin. apply in_map_iff. exists ke. tauto.
Qed.

(** Every node the traversal can reach from the source lies in a region that
    is closed from the source. *)
Lemma closedFrom_reachable eng graph sourceKey region key :
  closedFrom eng graph sourceKey region ->
  reachableKey eng graph sourceKey key -> region key = true.
Proof.
  intros [Hs Hc]. induction 1 as [| k e _ IH He Hsk]; [exact Hs |].
  now apply (Hc k e).
Qed.

(** Inside a closed region the traversal does not see the rest of the graph. *)
Lemma propagateBFS_live eng eng' db graph region :
  (forall e, skipped eng' e = skipped eng e) ->
  (forall key e,
      region key = true -> In e (outgoingEdges graph key) ->
      skipped eng e = false -> region (targetKeyOf e) = true) ->
  forall fuel ct ci imp depth st,
    region (entityKey ct ci) = true ->
    propagateBFS fuel eng' db (liveSubgraph eng region graph) ct ci imp depth st
    = propagateBFS fuel eng' db graph ct ci imp depth st.
Proof.
  intros Hskip Hclosed.
  induction fuel as [| fuel IH]; intros ct ci imp depth st Hin; [reflexivity |].
  cbn [propagateBFS].
  destruct (Qle_bool _ _); trivial.
  destruct (Qlt_bool _ _); trivial.
  rewrite outgoingEdges_live, Hin.
  rewrite (filter_ext (fun e => negb (skipped eng e)) (fun e => negb (skipped eng' e)))
    by (intros e; now rewrite Hskip).
  rewrite forOf_skipped.
  apply forOf_eq_in. intros e s He. rewrite !visitEdge_eq.
  destruct (skipped eng' e) eqn:Esk; trivial.
  destruct (StrSet.has _ _); trivial.
  destruct (Qlt_bool (propagatedImpactOf imp e) _); trivial.
  apply IH. apply (Hclosed (entityKey ct ci) e Hin He). now rewrite <- Hskip.
Qed.

Lemma propagateOn_live eng eng' db graph config region :
  (forall e, skipped eng' e = skipped eng e) ->
  closedFrom eng graph (sourceKeyOf config) region ->
  propagateOn eng' db (liveSubgraph eng region graph) config
  = propagateOn eng' db graph config.
Proof.
  intros Hskip [Hsource Hclosed].
  destruct (propagateOn_total eng' db (liveSubgraph eng region graph) config)
    as [st1 [E1 ->]].
  destruct (propagateOn_total eng' db graph config) as [st2 [E2 ->]].
  set (fuel := Nat.max (fuelFor (liveSubgraph eng region graph)) (fuelFor graph)).
  apply (propagateBFS_fuel_mono _ _ _ _ fuel) in E1; [| apply Nat.le_max_l].
  apply (propagateBFS_fuel_mono _ _ _ _ fuel) in E2; [| apply Nat.le_max_r].
  rewrite (propagateBFS_live eng eng' db graph region Hskip Hclosed) in E1
    by exact Hsource.
  rewrite E2 in E1. injection E1 as <-. reflexivity.
Qed.

(** C2 (as amended). On a graph that is tree-shaped below the source, for
    thresholds theta1 <= theta2 and engines otherwise equal, both
    propagations return and every node key of the result at theta2 is a node
    key of the result at theta1.  Tree-shaped below the source: for a set of
    node keys that holds the source and the target of every edge the engine
    does not skip out of a node of the set (the nodes the traversal can reach
    form the least such set), among the edges the engine does not skip out of
    nodes of the set no node key is the target of two, the source is the
    target of none, and different edges have different visited keys.  Edges
    out of other nodes and edges the engine skips do not count, so that two
    regulations may bear on the same entity. *)
Theorem monotone_threshold_on_trees eng db graph config theta1 theta2 region :
  treeShapedBelow eng graph (sourceKeyOf config) region ->
  theta1 <= theta2 ->
  exists r1 r2,
    propagateOn (withThreshold eng theta1) db graph config = Some r1
    /\ propagateOn (withThreshold eng theta2) db graph config = Some r2
    /\ incl (OMap.keys (pr_nodes r2)) (OMap.keys (pr_nodes r1)).
Proof.
  intros [Hclosed [Htargets [Hsource Hkeys]]] Hle.
  rewrite <- (propagateOn_live eng (withThreshold eng theta1) db graph config region
                (fun e => eq_refl) Hclosed).
  rewrite <- (propagateOn_live eng (withThreshold eng theta2) db graph config region
                (fun e => eq_refl) Hclosed).
  apply monotone_threshold_whole_graph; [| exact Hle].
  unfold treeShaped. rewrite graphPairs_live. auto.
Qed.

Lemma monotone_threshold_on_trees_witness :
  exists r1 r2,
    propagateOn (withThreshold Scenario.engine (1 # 100)) Scenario.twoRegulations
      (buildGraph (db_impactEdges Scenario.twoRegulations))
      (Scenario.config REGULATION "R1") = Some r1
    /\ propagateOn (withThreshold Scenario.engine (4 # 10)) Scenario.twoRegulations
         (buildGraph (db_impactEdges Scenario.twoRegulations))
         (Scenario.config REGULATION "R1") = Some r2
    /\ incl (OMap.keys (pr_nodes r2)) (OMap.keys (pr_nodes r1)).
Proof.
  apply (monotone_threshold_on_trees Scenario.engine Scenario.twoRegulations
           (buildGraph (db_impactEdges Scenario.twoRegulations))
           (Scenario.config REGULATION "R1") (1 # 100) (4 # 10)
           (inKeys ["REGULATION:R1"; "DEPARTMENT:D1"])).
  - split; [split; [reflexivity |] |].
    + intros key e Hkey He _. unfold inKeys in Hkey.
      apply existsb_exists in Hkey. destruct Hkey as [k [Hk Heq]].
      apply String.eqb_eq in Heq. subst k.
      destruct Hk as [<- | [<- | []]]; vm_compute in He.
      * destruct He as [<- | []]. reflexivity.
      * destruct He.
    + vm_compute. repeat split.
      * repeat constructor; simpl; intuition discriminate.
      * intuition discriminate.
      * repeat constructor; simpl; intuition discriminate.
  - vm_compute. discriminate.
Defined.

(** On the graph [diamond] the node V is in the result for the threshold 1/4
    and not in the result for the lower threshold 1/16, all else being equal:
    at 1/16 the weak path S -> A -> U reaches U first, the edge U -> V is
    marked as visited and dropped on the threshold, and the strong path
    S -> U finds it visited.  On the graph [weakFirst] the same happens to W
    although every edge of the weak path is accepted at 1/16: U -> V is
    visited when the strong path arrives, so V is never expanded with the
    impact that would carry over V -> W. *)
Lemma monotone_threshold_fails_on_diamond :
  1 # 16 < 1 # 4
  /\ Scenario.nodeKeys
       (propagateOn (Scenario.engineAt (1 # 16)) (Scenario.db [] [])
          Scenario.diamond (Scenario.config DEPARTMENT "S"))
     = ["DEPARTMENT:S"; "DEPARTMENT:A"; "DEPARTMENT:U"]
  /\ Scenario.nodeKeys
       (propagateOn (Scenario.engineAt (1 # 4)) (Scenario.db [] [])
          Scenario.diamond (Scenario.config DEPARTMENT "S"))
     = ["DEPARTMENT:S"; "DEPARTMENT:U"; "DEPARTMENT:V"]
  /\ ~ incl
         (Scenario.nodeKeys
            (propagateOn (Scenario.engineAt (1 # 4)) (Scenario.db [] [])
               Scenario.diamond (Scenario.config DEPARTMENT "S")))
         (Scenario.nodeKeys
            (propagateOn (Scenario.engineAt (1 # 16)) (Scenario.db [] [])
               Scenario.diamond (Scenario.config DEPARTMENT "S")))
  /\ Scenario.nodeKeys
       (propagateOn (Scenario.engineAt (1 # 16)) (Scenario.db [] [])
          Scenario.weakFirst (Scenario.config DEPARTMENT "S"))
     = ["DEPARTMENT:S"; "DEPARTMENT:A"; "DEPARTMENT:U"; "DEPARTMENT:V"]
  /\ Scenario.edgeIds
       (propagateOn (Scenario.engineAt (1 # 16)) (Scenario.db [] [])
          Scenario.weakFirst (Scenario.config DEPARTMENT "S"))
     = [("S", "A"); ("A", "U"); ("U", "V"); ("S", "U")]
  /\ Scenario.nodeKeys
       (propagateOn (Scenario.engineAt (1 # 4)) (Scenario.db [] [])
          Scenario.weakFirst (Scenario.config DEPARTMENT "S"))
     = ["DEPARTMENT:S"; "DEPARTMENT:U"; "DEPARTMENT:V"; "DEPARTMENT:W"].
Proof.
  split; [reflexivity |]. split; [reflexivity |]. split; [reflexivity |].
  split; [| repeat split; reflexivity].
  intros H. specialize (H "DEPARTMENT:V").
  assert (Hin : In "DEPARTMENT:V" ["DEPARTMENT:S"; "DEPARTMENT:A"; "DEPARTMENT:U"]).
  { apply H. right. right. left. reflexivity. }
  simpl in Hin. intuition discriminate.
Qed.

(* ===================================================================== *)
(** * Part III. Further properties of the code                            *)
(* ===================================================================== *)

(** ** The cache as a whole *)

Lemma append_assoc (a b c : string) : ((a ++ b) ++ c = a ++ (b ++ c))%string.
Proof. induction a as [| ch a IH]; simpl; congruence. Qed.

Lemma NoDup_keys_filter {V : Type} (p : string * V -> bool) (m : OMap.t V) :
  NoDup (OMap.keys m) -> NoDup (OMap.keys (filter p m)).
Proof.
  unfold OMap.keys. induction m as [| kv m IH]; simpl; [constructor |].
  intros H. inversion H as [| ? ? Hnot Hnd]; subst.
  destruct (p kv); simpl; [| now apply IH].
  constructor; [| now apply IH].
  intro Hin. apply Hnot. apply in_map_iff in Hin. destruct Hin as [x [Hx Hin]].
  apply filter_In in Hin. apply in_map_iff. exists x. tauto.
Qed.

Lemma filter_length_split {A : Type} (p : A -> bool) (l : list A) :
  (List.length (filter p l) + List.length (filter (fun x => negb (p x)) l)
   = List.length l)%nat.
Proof.
  induction l as [| x l IH]; simpl; trivial.
  destruct (p x); simpl; lia.
Qed.

Section CacheWhole.
Context {V : Type}.
Implicit Types (c : MemoryCache V) (m : OMap.t (CacheEntry V)).

(** The map [deleteKeys] leaves: the entries whose key is not listed. *)
Lemma deleteKeys_map keysToDelete :
  forall m notified,
    fst (Cache.deleteKeys keysToDelete m notified)
    = filter (fun kv => negb (existsb (String.eqb (fst kv)) keysToDelete)) m.
Proof.
  unfold Cache.deleteKeys.
  induction keysToDelete as [| key keys IH]; intros m notified; simpl.
  - induction m as [| kv m IHm]; simpl; congruence.
  - destruct (OMap.get key m); rewrite IH; unfold OMap.delete;
      (induction m as [| kv m IHm]; simpl; trivial;
       rewrite (String.eqb_sym (fst kv) key);
       destruct (String.eqb key (fst kv)); simpl; [exact IHm |];
       destruct (existsb _ keys); simpl; congruence).
Qed.

(** The calls of [notifyInvalidation] that [deleteKeys] makes, when the keys
    are those of distinct entries of the map. *)
Lemma deleteKeys_notified (l : list (string * CacheEntry V)) :
  forall m notified,
    NoDup (OMap.keys m) ->
    NoDup (map fst l) ->
    (forall kv, In kv l -> In kv m) ->
    snd (Cache.deleteKeys (map fst l) m notified)
    = notified ++ map notificationOf l.
Proof.
  unfold Cache.deleteKeys.
  induction l as [| [k e] l IH]; intros m notified Hm Hl Hin; simpl.
  - now rewrite app_nil_r.
  - inversion Hl as [| ? ? Hnot Hl']; subst.
    rewrite (In_get m k e Hm (Hin _ (or_introl eq_refl))).
    rewrite IH; trivial.
    + now rewrite <- app_assoc.
    + now apply NoDup_keys_filter.
    + intros kv Hkv. apply filter_In. split; [apply Hin; now right |].
      apply negb_true_iff. apply String.eqb_neq. intros ->.
      apply Hnot. apply in_map_iff. now exists kv.
Qed.

(** What an invalidation does to a map with distinct keys: the entries the
    test selects are removed, one notification is made for each of them, in
    the order of the map, and the count returned and added to [evictions] is
    their number. *)
Lemma invalidateWhere_spec (selected : CacheEntry V -> bool) c :
  NoDup (OMap.keys (mc_cache c)) ->
  let removed := filter (fun kv => selected (snd kv)) (mc_cache c) in
  let c' := snd (Cache.invalidateWhere selected c) in
  fst (Cache.invalidateWhere selected c) = List.length removed
  /\ mc_cache c' = filter (fun kv => negb (selected (snd kv))) (mc_cache c)
  /\ mc_notified c' = mc_notified c ++ map notificationOf removed
  /\ evictions (mc_stats c') = (evictions (mc_stats c) + List.length removed)%nat
  /\ size (mc_stats c') = OMap.size (mc_cache c')
  /\ hits (mc_stats c') = hits (mc_stats c)
  /\ misses (mc_stats c') = misses (mc_stats c).
Proof.
  intros Hnd removed c'. subst c'. unfold Cache.invalidateWhere. fold removed.
  pose proof (deleteKeys_map (map fst removed) (mc_cache c) (mc_notified c)) as Hmap.
  pose proof (deleteKeys_notified removed (mc_cache c) (mc_notified c) Hnd) as Hnot.
  destruct (Cache.deleteKeys _ _ _) as [cache' notified']. simpl in *.
  rewrite length_map.
  assert (Hrem : NoDup (map fst removed))
    by (apply (NoDup_keys_filter _ _ Hnd)).
  assert (Hsub : forall kv, In kv removed -> In kv (mc_cache c))
    by (intros kv Hkv; now apply filter_In in Hkv).
  split; [reflexivity |]. split.
  - rewrite Hmap. apply filter_ext_in. intros kv Hkv. f_equal.
    destruct (selected (snd kv)) eqn:E.
    + apply existsb_exists. exists (fst kv). split; [| apply String.eqb_refl].
      apply in_map. apply filter_In. tauto.
    + destruct (existsb _ _) eqn:Ex; trivial.
      apply existsb_exists in Ex. destruct Ex as [k [Hk Heq]].
      apply String.eqb_eq in Heq. subst k.
      apply in_map_iff in Hk. destruct Hk as [kv' [Hfst Hkv']].
      apply filter_In in Hkv'. destruct Hkv' as [Hin' Hsel'].
      assert (kv' = kv).
      { destruct kv as [k v], kv' as [k' v']. simpl in Hfst. subst k'.
        f_equal. apply (In_get _ _ _ Hnd) in Hin'. apply (In_get _ _ _ Hnd) in Hkv.
        congruence. }
      subst kv'. congruence.
  - split; [now apply Hnot |]. repeat split.
Qed.
End CacheWhole.

Section CacheInvariant.
Context {V : Type}.
Implicit Types (c : MemoryCache V) (m : OMap.t (CacheEntry V)).

Lemma delete_as_filter key m :
  OMap.delete key m = filter (fun kv => negb (String.eqb key (fst kv))) m.
Proof. reflexivity. Qed.

Lemma fold_delete_map keysToDelete :
  forall m,
    fold_left (fun m key => OMap.delete key m) keysToDelete m
    = filter (fun kv => negb (existsb (String.eqb (fst kv)) keysToDelete)) m.
Proof.
  induction keysToDelete as [| key keys IH]; intros m; simpl.
  - induction m as [| kv m IHm]; simpl; congruence.
  - rewrite IH. unfold OMap.delete.
    induction m as [| kv m IHm]; simpl; trivial.
    rewrite (String.eqb_sym (fst kv) key).
    destruct (String.eqb key (fst kv)); simpl; [exact IHm |].
    destruct (existsb _ keys); simpl; congruence.
Qed.

(** What [cleanup] does to a map with distinct keys. *)
Lemma cleanup_spec c now :
  NoDup (OMap.keys (mc_cache c)) ->
  let expired := filter (fun kv => expiredAt now (snd kv)) (mc_cache c) in
  let c' := Cache.cleanup c now in
  mc_cache c' = filter (fun kv => negb (expiredAt now (snd kv))) (mc_cache c)
  /\ mc_notified c' = mc_notified c
  /\ evictions (mc_stats c') = (evictions (mc_stats c) + List.length expired)%nat
  /\ hits (mc_stats c') = hits (mc_stats c)
  /\ misses (mc_stats c') = misses (mc_stats c)
  /\ (size (mc_stats c) = OMap.size (mc_cache c) ->
      size (mc_stats c') = OMap.size (mc_cache c')).
Proof.
  intros Hnd expired c'. subst c'. unfold Cache.cleanup.
  change (filter (fun kv => (ce_expiresAt (snd kv) <? now)%Z) (mc_cache c))
    with expired.
  assert (Hmap : fold_left (fun m key => OMap.delete key m) (map fst expired)
                   (mc_cache c)
                 = filter (fun kv => negb (expiredAt now (snd kv))) (mc_cache c)).
  { rewrite fold_delete_map. apply filter_ext_in. intros kv Hkv. f_equal.
    destruct (expiredAt now (snd kv)) eqn:E.
    - apply existsb_exists. exists (fst kv). split; [| apply String.eqb_refl].
      apply in_map. apply filter_In. tauto.
    - destruct (existsb _ _) eqn:Ex; trivial.
      apply existsb_exists in Ex. destruct Ex as [k [Hk Heq]].
      apply String.eqb_eq in Heq. subst k.
      apply in_map_iff in Hk. destruct Hk as [kv' [Hfst Hkv']].
      apply filter_In in Hkv'. destruct Hkv' as [Hin' Hsel'].
      assert (kv' = kv).
      { destruct kv as [k v], kv' as [k' v']. simpl in Hfst. subst k'.
        f_equal. apply (In_get _ _ _ Hnd) in Hin'. apply (In_get _ _ _ Hnd) in Hkv.
        congruence. }
      subst kv'. congruence. }
  destruct (map fst expired) eqn:Ekeys.
  - assert (Hnil : expired = []) by (destruct expired; [trivial | discriminate]).
    simpl in Hmap. simpl. rewrite Hnil. simpl.
    repeat split; trivial; try lia.
  - rewrite Hmap. simpl.
    assert (Hlen : List.length expired = S (List.length l))
      by (rewrite <- (length_map fst expired), Ekeys; reflexivity).
    rewrite Hlen. repeat split.
Qed.

Lemma cacheConsistent_new : cacheConsistent (@Cache.new V).
Proof. split; [constructor | reflexivity]. Qed.

(** Every method but [shutdown] keeps the keys distinct and the [size]
    statistic exact. *)
Lemma cacheConsistent_applyOp isNull c op :
  cacheConsistent c -> cacheConsistent (applyOp isNull c op).
Proof.
  intros [Hnd Hsize]. destruct op; simpl.
  - split; [now apply NoDup_keys_set | reflexivity].
  - unfold Cache.get. destruct (OMap.get _ _) as [e |]; [| now split].
    destruct (_ <? _)%Z; [| now split].
    split; [now apply NoDup_keys_filter | reflexivity].
  - unfold Cache.has, Cache.get. destruct (OMap.get _ _) as [e |]; [| now split].
    destruct (_ <? _)%Z; [| now split].
    split; [now apply NoDup_keys_filter | reflexivity].
  - unfold Cache.delete. destruct (OMap.get _ _) as [e |]; [| now split].
    split; [now apply NoDup_keys_filter | reflexivity].
  - destruct (invalidateWhere_spec
                (fun entry => Cache.includes tenantId (ce_tags entry)) c Hnd)
      as [_ [Hm [_ [_ [Hs _]]]]].
    split; [| exact Hs]. unfold Cache.invalidateTenant. rewrite Hm.
    now apply NoDup_keys_filter.
  - destruct (invalidateWhere_spec
                (fun entry => Cache.includes tag (ce_tags entry)) c Hnd)
      as [_ [Hm [_ [_ [Hs _]]]]].
    split; [| exact Hs]. unfold Cache.invalidateByTag. rewrite Hm.
    now apply NoDup_keys_filter.
  - destruct (invalidateWhere_spec (carriesAny tags) c Hnd)
      as [_ [Hm [_ [_ [Hs _]]]]].
    split; [| exact Hs]. unfold Cache.invalidateByTags.
    change (fun entry : CacheEntry V =>
              existsb (fun tag => Cache.includes tag (ce_tags entry)) tags)
      with (@carriesAny V tags).
    rewrite Hm. now apply NoDup_keys_filter.
  - destruct (invalidateWhere_spec
                (carriesAny [("regulation:" ++ regulationId)%string;
                             "dependency-graph"; "risk-scores"; "impact-analysis"])
                c Hnd) as [_ [Hm [_ [_ [Hs _]]]]].
    split; [| exact Hs]. unfold Cache.invalidateRegulation, Cache.invalidateByTags.
    change (fun entry : CacheEntry V =>
              existsb (fun tag => Cache.includes tag (ce_tags entry)) ?t)
      with (@carriesAny V
              [("regulation:" ++ regulationId)%string; "dependency-graph";
               "risk-scores"; "impact-analysis"]).
    rewrite Hm. now apply NoDup_keys_filter.
  - destruct (invalidateWhere_spec
                (carriesAny [("entity:" ++ entityType ++ ":" ++ entityId)%string;
                             "dependency-graph"; "risk-scores"])
                c Hnd) as [_ [Hm [_ [_ [Hs _]]]]].
    split; [| exact Hs]. unfold Cache.invalidateEntity, Cache.invalidateByTags.
    change (fun entry : CacheEntry V =>
              existsb (fun tag => Cache.includes tag (ce_tags entry)) ?t)
      with (@carriesAny V
              [("entity:" ++ entityType ++ ":" ++ entityId)%string;
               "dependency-graph"; "risk-scores"]).
    rewrite Hm. now apply NoDup_keys_filter.
  - destruct (invalidateWhere_spec
                (fun entry => Cache.includes "dependency-graph" (ce_tags entry)) c Hnd)
      as [_ [Hm [_ [_ [Hs _]]]]].
    split; [| exact Hs]. unfold Cache.invalidateEdge, Cache.invalidateByTag.
    rewrite Hm. now apply NoDup_keys_filter.
  - destruct (cleanup_spec c now Hnd) as [Hm [_ [_ [_ [_ Hs]]]]].
    split; [| now apply Hs]. rewrite Hm. now apply NoDup_keys_filter.
  - split; [constructor | reflexivity].
  - split; [exact Hnd | reflexivity].
Qed.

Lemma cacheConsistent_applyOps isNull ops :
  forall c, cacheConsistent c -> cacheConsistent (applyOps isNull c ops).
Proof.
  unfold applyOps. induction ops as [| op ops IH]; intros c Hc; simpl; trivial.
  apply IH. now apply cacheConsistent_applyOp.
Qed.
End CacheInvariant.

(** X1. Whatever sequence of [set], [get], [has], [delete], invalidation,
    [cleanup], [clear] and [resetStats] calls a new cache has seen, the keys of
    its map are distinct and the [size] statistic equals the number of entries:
    [keys()] returns distinct keys, as many as [getStats().size].  [shutdown]
    empties the map and leaves [size] as it was. *)
Theorem cache_size_statistic_is_exact :
  forall (V : Type) (isNull : V -> bool) (ops : list (CacheOp V)),
    let c := applyOps isNull Cache.new ops in
    cacheConsistent c
    /\ NoDup (CacheAdmin.keys c)
    /\ List.length (CacheAdmin.keys c) = size (Cache.getStats c)
    /\ CacheAdmin.keys (CacheAdmin.shutdown c) = []
    /\ size (Cache.getStats (CacheAdmin.shutdown c)) = List.length (CacheAdmin.keys c).
Proof.
  intros V isNull ops c.
  assert (H : cacheConsistent c)
    by (apply cacheConsistent_applyOps, cacheConsistent_new).
  destruct H as [Hnd Hsize].
  assert (Hlen : List.length (CacheAdmin.keys c) = OMap.size (mc_cache c)).
  { unfold CacheAdmin.keys, OMap.keys, OMap.size. apply length_map. }
  split; [now split |]. split; [exact Hnd |]. split; [| split].
  - unfold Cache.getStats. now rewrite Hlen, Hsize.
  - reflexivity.
  - unfold Cache.getStats, CacheAdmin.shutdown. cbn [mc_stats]. now rewrite Hlen, Hsize.
Qed.

Lemma invalidateWhere_ext {V : Type} (s1 s2 : CacheEntry V -> bool)
    (c : MemoryCache V) :
  (forall e, s1 e = s2 e) ->
  Cache.invalidateWhere s1 c = Cache.invalidateWhere s2 c.
Proof.
  intros H. unfold Cache.invalidateWhere.
  now rewrite (filter_ext (fun kv => s1 (snd kv)) (fun kv => s2 (snd kv))
                 (fun kv => H (snd kv))).
Qed.

(** X2. On a cache whose keys are distinct, [invalidateByTags] removes exactly
    the entries that carry one of the tags and keeps the others in place; it
    notifies once for each removed entry, with its key and tags, in the order
    of the map; it returns the number of removed entries and adds it to
    [evictions]; [hits] and [misses] do not move.  [invalidateByTag] and
    [invalidateTenant] are the case of a single tag. *)
Theorem invalidateByTags_accounting
    (V : Type) (c : MemoryCache V) (tags : list string) :
  NoDup (OMap.keys (mc_cache c)) ->
  let removed := filter (fun kv => carriesAny tags (snd kv)) (mc_cache c) in
  let c' := snd (Cache.invalidateByTags c tags) in
  fst (Cache.invalidateByTags c tags) = List.length removed
  /\ mc_cache c' = filter (fun kv => negb (carriesAny tags (snd kv))) (mc_cache c)
  /\ mc_notified c' = mc_notified c ++ map notificationOf removed
  /\ evictions (mc_stats c') = (evictions (mc_stats c) + List.length removed)%nat
  /\ size (mc_stats c') = OMap.size (mc_cache c')
  /\ hits (mc_stats c') = hits (mc_stats c)
  /\ misses (mc_stats c') = misses (mc_stats c)
  /\ (forall tag,
        Cache.invalidateByTag c tag = Cache.invalidateByTags c [tag]
        /\ Cache.invalidateTenant c tag = Cache.invalidateByTags c [tag]).
Proof.
  intros Hnd removed c'.
  pose proof (invalidateWhere_spec (carriesAny tags) c Hnd) as H.
  cbv zeta in H. decompose [and] H. clear H.
  repeat split; trivial.
  - apply invalidateWhere_ext. intros e. simpl. now rewrite orb_false_r.
  - apply invalidateWhere_ext. intros e. simpl. now rewrite orb_false_r.
Qed.

Lemma invalidateByTags_accounting_witness :
  let c := Cache.set (Cache.set Cache.new 0 "A" "k" 1%nat None (Some ["x"]))
             0 "B" "k" 2%nat None (Some ["y"]) in
  let removed := filter (fun kv => carriesAny ["x"; "z"] (snd kv)) (mc_cache c) in
  let c' := snd (Cache.invalidateByTags c ["x"; "z"]) in
  fst (Cache.invalidateByTags c ["x"; "z"]) = List.length removed
  /\ mc_cache c' = filter (fun kv => negb (carriesAny ["x"; "z"] (snd kv))) (mc_cache c)
  /\ mc_notified c' = mc_notified c ++ map notificationOf removed
  /\ evictions (mc_stats c') = (evictions (mc_stats c) + List.length removed)%nat
  /\ size (mc_stats c') = OMap.size (mc_cache c')
  /\ hits (mc_stats c') = hits (mc_stats c)
  /\ misses (mc_stats c') = misses (mc_stats c)
  /\ (forall tag,
        Cache.invalidateByTag c tag = Cache.invalidateByTags c [tag]
        /\ Cache.invalidateTenant c tag = Cache.invalidateByTags c [tag]).
Proof.
  apply (invalidateByTags_accounting nat
           (Cache.set (Cache.set Cache.new 0 "A" "k" 1%nat None (Some ["x"]))
              0 "B" "k" 2%nat None (Some ["y"])) ["x"; "z"]).
  simpl. repeat constructor; simpl; intuition discriminate.
Defined.

Lemma carriesAny_app {V : Type} (tags1 tags2 : list string) (e : CacheEntry V) :
  carriesAny (tags1 ++ tags2) e = carriesAny tags1 e || carriesAny tags2 e.
Proof. unfold carriesAny. apply existsb_app. Qed.

Lemma filter_twice {A : Type} (p q : A -> bool) (l : list A) :
  filter q (filter p l) = filter (fun x => p x && q x) l.
Proof.
  induction l as [| x l IH]; simpl; trivial.
  destruct (p x); simpl; [destruct (q x); simpl; congruence | exact IH].
Qed.

Lemma carriesAny_count {V : Type} (tags1 tags2 : list string)
    (m : OMap.t (CacheEntry V)) :
  List.length (filter (fun kv => carriesAny (tags1 ++ tags2) (snd kv)) m)
  = (List.length (filter (fun kv => carriesAny tags1 (snd kv)) m)
     + List.length
         (filter (fun kv => carriesAny tags2 (snd kv))
            (filter (fun kv => negb (carriesAny tags1 (snd kv))) m)))%nat.
Proof.
  induction m as [| kv m IH]; simpl; trivial.
  rewrite carriesAny_app.
  destruct (carriesAny tags1 (snd kv)); simpl.
  - now rewrite IH.
  - destruct (carriesAny tags2 (snd kv)); simpl; rewrite IH; lia.
Qed.

(** X3. Invalidating by the tags [tags1 ++ tags2] at once leaves the same map
    and the same [evictions] as invalidating by [tags1] and then by [tags2],
    and the count it returns is the sum of the two counts. *)
Theorem invalidateByTags_union
    (V : Type) (c : MemoryCache V) (tags1 tags2 : list string) :
  NoDup (OMap.keys (mc_cache c)) ->
  let once := Cache.invalidateByTags c (tags1 ++ tags2) in
  let first := Cache.invalidateByTags c tags1 in
  let second := Cache.invalidateByTags (snd first) tags2 in
  mc_cache (snd once) = mc_cache (snd second)
  /\ fst once = (fst first + fst second)%nat
  /\ evictions (mc_stats (snd once)) = evictions (mc_stats (snd second)).
Proof.
  intros Hnd once first second.
  pose proof (invalidateWhere_spec (carriesAny (tags1 ++ tags2)) c Hnd) as H0.
  pose proof (invalidateWhere_spec (carriesAny tags1) c Hnd) as H1.
  cbv zeta in H0, H1.
  destruct H0 as [Hc0 [Hm0 [_ [He0 _]]]]. destruct H1 as [Hc1 [Hm1 [_ [He1 _]]]].
  assert (Hnd1 : NoDup (OMap.keys (mc_cache (snd first)))).
  { unfold first, Cache.invalidateByTags. fold (@carriesAny V tags1).
    rewrite Hm1. now apply NoDup_keys_filter. }
  pose proof (invalidateWhere_spec (carriesAny tags2) (snd first) Hnd1) as H2.
  cbv zeta in H2. destruct H2 as [Hc2 [Hm2 [_ [He2 _]]]].
  unfold once, second, first, Cache.invalidateByTags in *.
  fold (@carriesAny V (tags1 ++ tags2)) in *.
  fold (@carriesAny V tags1) in *. fold (@carriesAny V tags2) in *.
  pose proof (carriesAny_count tags1 tags2 (mc_cache c)) as Hcount.
  split; [| split].
  - rewrite Hm0, Hm2, Hm1, filter_twice. apply filter_ext. intros kv.
    rewrite carriesAny_app. now rewrite negb_orb.
  - rewrite Hc0, Hc1, Hc2, Hm1. exact Hcount.
  - rewrite He0, He2, He1, Hm1, Hcount. lia.
Qed.

Lemma invalidateByTags_union_witness :
  let c := Cache.set (Cache.set Cache.new 0 "A" "k" 1%nat None (Some ["x"]))
             0 "B" "k" 2%nat None (Some ["y"]) in
  let once := Cache.invalidateByTags c (["x"] ++ ["B"]) in
  let first := Cache.invalidateByTags c ["x"] in
  let second := Cache.invalidateByTags (snd first) ["B"] in
  mc_cache (snd once) = mc_cache (snd second)
  /\ fst once = (fst first + fst second)%nat
  /\ evictions (mc_stats (snd once)) = evictions (mc_stats (snd second)).
Proof.
  apply (invalidateByTags_union nat
           (Cache.set (Cache.set Cache.new 0 "A" "k" 1%nat None (Some ["x"]))
              0 "B" "k" 2%nat None (Some ["y"])) ["x"] ["B"]).
  simpl. repeat constructor; simpl; intuition discriminate.
Defined.

Lemma get_filter {V : Type} (p : string * V -> bool) (k : string) (m : OMap.t V) :
  NoDup (OMap.keys m) ->
  OMap.get k (filter p m)
  = match OMap.get k m with
    | Some v => if p (k, v) then Some v else None
    | None => None
    end.
Proof.
  unfold OMap.keys. induction m as [| [k' v'] m IH]; simpl; trivial.
  intros Hnd. inversion Hnd as [| x xs Hnotin Hnd']; subst.
  destruct (String.eqb k k') eqn:E.
  - apply String.eqb_eq in E. subst k'.
    destruct (p (k, v')); simpl.
    + now rewrite String.eqb_refl.
    + rewrite (IH Hnd').
      assert (Hnone : OMap.get k m = None) by now apply get_None_iff.
      now rewrite Hnone.
  - destruct (p (k', v')); simpl; [rewrite E |]; apply (IH Hnd').
Qed.

Lemma memoryCache_eta {V : Type} (c : MemoryCache V) :
  mkMemoryCache (mc_cache c) (mc_stats c) (mc_notified c) = c.
Proof. now destruct c. Qed.

Lemma filter_none {A : Type} (p : A -> bool) (l : list A) :
  (forall x, In x l -> p x = false) -> filter p l = [].
Proof.
  induction l as [| x l IH]; simpl; trivial. intros H.
  rewrite (H x (or_introl eq_refl)). apply IH. intros y Hy. apply H. now right.
Qed.

(** X4. On a cache whose keys are distinct, [cleanup] at time [now] removes
    exactly the entries with [now > expiresAt]: every other key reads as
    before; nothing is notified; [evictions] grows by the number of removed
    entries; a [get] at the same time afterwards evicts nothing, and a second
    [cleanup] at the same time changes nothing. *)
Theorem cleanup_removes_exactly_expired
    (V : Type) (c : MemoryCache V) (now : Z) :
  NoDup (OMap.keys (mc_cache c)) ->
  let c' := Cache.cleanup c now in
  (forall k,
      OMap.get k (mc_cache c')
      = match OMap.get k (mc_cache c) with
        | Some e => if expiredAt now e then None else Some e
        | None => None
        end)
  /\ mc_notified c' = mc_notified c
  /\ evictions (mc_stats c')
     = (evictions (mc_stats c)
        + List.length (filter (fun kv => expiredAt now (snd kv)) (mc_cache c)))%nat
  /\ (forall tenantId key,
        evictions (mc_stats (snd (Cache.get c' now tenantId key)))
        = evictions (mc_stats c'))
  /\ Cache.cleanup c' now = c'.
Proof.
  intros Hnd c'.
  pose proof (cleanup_spec c now Hnd) as H. cbv zeta in H.
  destruct H as [Hm [Hn [He _]]]. fold c' in Hm, Hn, He.
  assert (Hget : forall k,
             OMap.get k (mc_cache c')
             = match OMap.get k (mc_cache c) with
               | Some e => if expiredAt now e then None else Some e
               | None => None
               end).
  { intros k. rewrite Hm, get_filter by trivial. simpl.
    destruct (OMap.get k (mc_cache c)) as [e |]; trivial.
    now destruct (expiredAt now e). }
  assert (Hlive : forall kv, In kv (mc_cache c') -> expiredAt now (snd kv) = false).
  { intros kv Hkv. rewrite Hm in Hkv. apply filter_In in Hkv.
    destruct Hkv as [_ Hkv]. now destruct (expiredAt now (snd kv)). }
  repeat split; trivial.
  - intros tenantId key. unfold Cache.get.
    destruct (OMap.get (Cache.generateKey tenantId key) (mc_cache c')) as [e |] eqn:E;
      trivial.
    pose proof (Hget (Cache.generateKey tenantId key)) as Hk. rewrite E in Hk.
    destruct (OMap.get (Cache.generateKey tenantId key) (mc_cache c)) as [e0 |];
      [| discriminate].
    destruct (expiredAt now e0) eqn:Ee0; [discriminate |].
    injection Hk as ->. unfold expiredAt in Ee0. now rewrite Ee0.
  - unfold Cache.cleanup.
    rewrite (filter_none (fun kv => (ce_expiresAt (snd kv) <? now)%Z) (mc_cache c'))
      by exact Hlive.
    simpl. apply memoryCache_eta.
Qed.

Lemma cleanup_removes_exactly_expired_witness :
  let c := Cache.set (Cache.set Cache.new 0 "A" "k" 1%nat (Some 10%Z) None)
             0 "B" "k" 2%nat (Some 100%Z) None in
  let c' := Cache.cleanup c 50 in
  (forall k,
      OMap.get k (mc_cache c')
      = match OMap.get k (mc_cache c) with
        | Some e => if expiredAt 50 e then None else Some e
        | None => None
        end)
  /\ mc_notified c' = mc_notified c
  /\ evictions (mc_stats c')
     = (evictions (mc_stats c)
        + List.length (filter (fun kv => expiredAt 50 (snd kv)) (mc_cache c)))%nat
  /\ (forall tenantId key,
        evictions (mc_stats (snd (Cache.get c' 50 tenantId key)))
        = evictions (mc_stats c'))
  /\ Cache.cleanup c' 50 = c'.
Proof.
  apply (cleanup_removes_exactly_expired nat
           (Cache.set (Cache.set Cache.new 0 "A" "k" 1%nat (Some 10%Z) None)
              0 "B" "k" 2%nat (Some 100%Z) None) 50).
  simpl. repeat constructor; simpl; intuition discriminate.
Defined.

(** X5. [delete] after [set] of the same tenant and key returns [true],
    notifies once with the full key and the tags [tenantId :: tags], leaves
    [evictions], [hits] and [misses] as they were, and removes the entry: a
    later [get] returns [null] and counts a miss without an eviction, and a
    second [delete] returns [false] and changes nothing. *)
Theorem delete_after_set
    (V : Type) (c : MemoryCache V) (now later : Z) (tenantId key : string)
    (data : V) (ttl : option Z) (tags : option (list string)) :
  let c1 := Cache.set c now tenantId key data ttl tags in
  let c2 := snd (Cache.delete c1 tenantId key) in
  fst (Cache.delete c1 tenantId key) = true
  /\ mc_notified c2
     = mc_notified c
       ++ [(Cache.generateKey tenantId key,
            tenantId :: match tags with Some x => x | None => [] end)]
  /\ evictions (mc_stats c2) = evictions (mc_stats c)
  /\ hits (mc_stats c2) = hits (mc_stats c)
  /\ misses (mc_stats c2) = misses (mc_stats c)
  /\ fst (Cache.get c2 later tenantId key) = None
  /\ misses (mc_stats (snd (Cache.get c2 later tenantId key))) = S (misses (mc_stats c))
  /\ evictions (mc_stats (snd (Cache.get c2 later tenantId key)))
     = evictions (mc_stats c)
  /\ Cache.delete c2 tenantId key = (false, c2).
Proof.
  intros c1 c2.
  assert (H1 : OMap.get (Cache.generateKey tenantId key) (mc_cache c1)
               = Some (mkCacheEntry data (now + Cache.ttlOrDefault ttl)%Z now 1%Z
                         (tenantId :: match tags with Some x => x | None => [] end))).
  { unfold c1, Cache.set. cbn [mc_cache]. apply get_set_same. }
  assert (E : Cache.delete c1 tenantId key
              = (true,
                 mkMemoryCache
                   (OMap.delete (Cache.generateKey tenantId key) (mc_cache c1))
                   (Cache.with_size
                      (OMap.delete (Cache.generateKey tenantId key) (mc_cache c1))
                      (mc_stats c1))
                   (mc_notified c1
                    ++ [(Cache.generateKey tenantId key,
                         tenantId :: match tags with Some x => x | None => [] end)]))).
  { unfold Cache.delete. now rewrite H1. }
  assert (H2 : OMap.get (Cache.generateKey tenantId key) (mc_cache c2) = None).
  { unfold c2. rewrite E. cbn [snd mc_cache]. apply get_delete_same. }
  assert (Hg : Cache.get c2 later tenantId key
               = (None,
                  mkMemoryCache (mc_cache c2)
                    (mkCacheStats (hits (mc_stats c2)) (S (misses (mc_stats c2)))
                       (evictions (mc_stats c2)) (size (mc_stats c2)))
                    (mc_notified c2))).
  { unfold Cache.get. now rewrite H2. }
  assert (Hs : evictions (mc_stats c2) = evictions (mc_stats c)
               /\ hits (mc_stats c2) = hits (mc_stats c)
               /\ misses (mc_stats c2) = misses (mc_stats c)).
  { unfold c2. rewrite E. unfold c1, Cache.set, Cache.with_size. cbn. tauto. }
  destruct Hs as [Hs1 [Hs2 Hs3]].
  repeat split; trivial.
  - now rewrite E.
  - unfold c2. rewrite E. reflexivity.
  - now rewrite Hg.
  - rewrite Hg. cbn. now rewrite Hs3.
  - rewrite Hg. cbn. exact Hs1.
  - unfold Cache.delete. now rewrite H2.
Qed.

Lemma generateKey_inj (t1 t2 k1 k2 : string) :
  hasColon t1 = false -> hasColon t2 = false ->
  @Cache.generateKey t1 k1 = @Cache.generateKey t2 k2 ->
  t1 = t2 /\ k1 = k2.
Proof.
  unfold Cache.generateKey. revert t2.
  induction t1 as [| a t1 IH]; intros [| b t2]; simpl.
  - intros _ _ H. injection H as H. now split.
  - intros _ H2 H. injection H as Hb _. subst b. discriminate.
  - intros H1 _ H. injection H as Ha _. subst a. discriminate.
  - intros H1 H2 H. injection H as Hab Hrest. subst b.
    apply orb_false_elim in H1. apply orb_false_elim in H2.
    destruct (IH t2 (proj2 H1) (proj2 H2) Hrest) as [-> ->]. now split.
Qed.

Lemma get_fst_by_lookup {V : Type} (c1 c2 : MemoryCache V) later t k :
  OMap.get (Cache.generateKey t k) (mc_cache c1)
  = OMap.get (Cache.generateKey t k) (mc_cache c2) ->
  fst (Cache.get c1 later t k) = fst (Cache.get c2 later t k).
Proof.
  intros H. unfold Cache.get. rewrite H.
  destruct (OMap.get (Cache.generateKey t k) (mc_cache c2)) as [e |]; trivial.
  now destruct (ce_expiresAt e <? later)%Z.
Qed.

(** X6. For tenant ids without a colon [generateKey] is injective, so the
    calls of one tenant do not reach the keys of another: after a [set] or a
    [delete] of tenant [t1], a [get] of a different tenant [t2], for any key,
    returns what it returned before. *)
Theorem plain_tenants_do_not_share_keys
    (V : Type) (c : MemoryCache V) (now later : Z) (t1 t2 k1 k2 : string)
    (data : V) (ttl : option Z) (tags : option (list string)) :
  hasColon t1 = false -> hasColon t2 = false ->
  (Cache.generateKey t1 k1 = Cache.generateKey t2 k2 -> t1 = t2 /\ k1 = k2)
  /\ (t1 <> t2 ->
      fst (Cache.get (Cache.set c now t1 k1 data ttl tags) later t2 k2)
      = fst (Cache.get c later t2 k2)
      /\ fst (Cache.get (snd (Cache.delete c t1 k1)) later t2 k2)
         = fst (Cache.get c later t2 k2)).
Proof.
  intros H1 H2. split; [now apply generateKey_inj |]. intros Hne.
  assert (Hk : Cache.generateKey t1 k1 <> Cache.generateKey t2 k2).
  { intros H. now destruct (generateKey_inj t1 t2 k1 k2 H1 H2 H). }
  split; apply get_fst_by_lookup.
  - unfold Cache.set. cbn [mc_cache]. now apply get_set_other.
  - unfold Cache.delete.
    destruct (OMap.get (Cache.generateKey t1 k1) (mc_cache c)); trivial.
    cbn [snd mc_cache]. now apply get_delete_other.
Qed.

Lemma plain_tenants_do_not_share_keys_witness :
  (Cache.generateKey "A" "k" = Cache.generateKey "B" "k" -> "A" = "B" /\ "k" = "k")
  /\ ("A" <> "B" ->
      fst (Cache.get (Cache.set Cache.new 0 "A" "k" 1%nat None None) 1 "B" "k")
      = fst (Cache.get (@Cache.new nat) 1 "B" "k")
      /\ fst (Cache.get (snd (Cache.delete (@Cache.new nat) "A" "k")) 1 "B" "k")
         = fst (Cache.get (@Cache.new nat) 1 "B" "k")).
Proof.
  apply (plain_tenants_do_not_share_keys nat Cache.new 0 1 "A" "B" "k" "k" 1%nat
           None None); reflexivity.
Defined.

Lemma length_append (s1 s2 : string) :
  String.length (s1 ++ s2) = (String.length s1 + String.length s2)%nat.
Proof. induction s1 as [| a s1 IH]; simpl; congruence. Qed.

(** X7. A colon in a tenant id breaks the separation of keys: tenant [t] with
    key [k1:k2] and tenant [t:k1] with key [k2] have the same full key, so
    within the TTL tenant [t] reads the data tenant [t:k1] stored, its
    [delete] removes that entry, and [invalidateTenant(t)] leaves it in place
    when [t] is not among its tags. *)
Theorem colon_in_tenant_id_shares_keys
    (V : Type) (c : MemoryCache V) (now later : Z) (t k1 k2 : string)
    (data : V) (ttl : option Z) (tags : list string) :
  NoDup (OMap.keys (mc_cache c)) ->
  (later <= now + Cache.ttlOrDefault ttl)%Z ->
  ~ In t tags ->
  let owner := (t ++ ":" ++ k1)%string in
  let c1 := Cache.set c now owner k2 data ttl (Some tags) in
  Cache.generateKey owner k2 = Cache.generateKey t (k1 ++ ":" ++ k2)%string
  /\ fst (Cache.get c1 later t (k1 ++ ":" ++ k2)%string) = Some data
  /\ fst (Cache.get (snd (Cache.invalidateTenant c1 t)) later owner k2) = Some data
  /\ fst (Cache.delete c1 t (k1 ++ ":" ++ k2)%string) = true
  /\ fst (Cache.get (snd (Cache.delete c1 t (k1 ++ ":" ++ k2)%string)) later owner k2)
     = None.
Proof.
  intros Hnd Httl Htags owner c1.
  assert (Hkey : Cache.generateKey owner k2
                 = Cache.generateKey t (k1 ++ ":" ++ k2)%string).
  { unfold Cache.generateKey, owner.
    rewrite <- !append_assoc. reflexivity. }
  set (entry := mkCacheEntry data (now + Cache.ttlOrDefault ttl)%Z now 1%Z
                  (owner :: tags)).
  assert (H1 : OMap.get (Cache.generateKey owner k2) (mc_cache c1) = Some entry).
  { unfold c1, Cache.set. cbn [mc_cache]. apply get_set_same. }
  assert (Hfresh : (ce_expiresAt entry <? later)%Z = false).
  { apply Z.ltb_ge. exact Httl. }
  assert (Howner : owner <> t).
  { unfold owner. intros H. apply (f_equal String.length) in H.
    rewrite !length_append in H. simpl in H. lia. }
  repeat split; trivial.
  - unfold Cache.get. rewrite <- Hkey, H1. now rewrite Hfresh.
  - unfold Cache.get, Cache.invalidateTenant.
    rewrite invalidateWhere_keeps, H1; [now rewrite Hfresh |].
    intros e He.
    assert (Hnd1 : NoDup (OMap.keys (mc_cache c1))).
    { unfold c1, Cache.set. cbn [mc_cache]. now apply NoDup_keys_set. }
    rewrite (In_get _ _ _ Hnd1 He) in H1. injection H1 as ->.
    destruct (Cache.includes t (ce_tags entry)) eqn:Einc; trivial.
    apply includes_iff in Einc. simpl in Einc.
    destruct Einc as [Einc | Einc]; [now elim Howner | now elim Htags].
  - unfold Cache.delete. rewrite <- Hkey, H1. reflexivity.
  - unfold Cache.delete. rewrite <- Hkey, H1. cbn [snd].
    unfold Cache.get. cbn [mc_cache]. now rewrite get_delete_same.
Qed.

Lemma colon_in_tenant_id_shares_keys_witness :
  let owner := ("T" ++ ":" ++ "a")%string in
  let c1 := Cache.set (@Cache.new nat) 0 owner "b" 7%nat None (Some ["x"]) in
  Cache.generateKey owner "b" = Cache.generateKey "T" ("a" ++ ":" ++ "b")%string
  /\ fst (Cache.get c1 1 "T" ("a" ++ ":" ++ "b")%string) = Some 7%nat
  /\ fst (Cache.get (snd (Cache.invalidateTenant c1 "T")) 1 owner "b") = Some 7%nat
  /\ fst (Cache.delete c1 "T" ("a" ++ ":" ++ "b")%string) = true
  /\ fst (Cache.get (snd (Cache.delete c1 "T" ("a" ++ ":" ++ "b")%string)) 1 owner "b")
     = None.
Proof.
  apply (colon_in_tenant_id_shares_keys nat Cache.new 0 1 "T" "a" "b" 7%nat None ["x"]).
  - constructor.
  - simpl. lia.
  - simpl. intuition discriminate.
Defined.

(** X8. An entry stored by [set] is removed by [invalidateByTag] for each of
    its tags, the tenant id and every tag of the options alike, and by
    [invalidateByTags] for every tag list that holds one of them: the call
    returns a count of at least one and the following [get] of the same tenant
    and key returns [null], whatever the time. *)
Theorem invalidation_by_carried_tag
    (V : Type) (c : MemoryCache V) (now later : Z) (tenantId key : string)
    (data : V) (ttl : option Z) (tags : option (list string))
    (tag : string) (others : list string) :
  In tag (tenantId :: match tags with Some x => x | None => [] end) ->
  let c1 := Cache.set c now tenantId key data ttl tags in
  (1 <= fst (Cache.invalidateByTag c1 tag))%nat
  /\ fst (Cache.get (snd (Cache.invalidateByTag c1 tag)) later tenantId key) = None
  /\ (1 <= fst (Cache.invalidateByTags c1 (others ++ [tag])))%nat
  /\ fst (Cache.get (snd (Cache.invalidateByTags c1 (others ++ [tag]))) later
            tenantId key) = None.
Proof.
  intros Htag c1.
  set (entry := mkCacheEntry data (now + Cache.ttlOrDefault ttl)%Z now 1%Z
                  (tenantId :: match tags with Some x => x | None => [] end)).
  assert (H1 : OMap.get (Cache.generateKey tenantId key) (mc_cache c1) = Some entry).
  { unfold c1, Cache.set. cbn [mc_cache]. apply get_set_same. }
  assert (Hinc : Cache.includes tag (ce_tags entry) = true).
  { apply includes_iff. exact Htag. }
  assert (Hany : carriesAny (others ++ [tag]) entry = true).
  { apply existsb_exists. exists tag. split; [| exact Hinc].
    apply in_or_app. right. now left. }
  assert (Hcount : forall selected : CacheEntry V -> bool,
             selected entry = true ->
             (1 <= fst (Cache.invalidateWhere selected c1))%nat
             /\ fst (Cache.get (snd (Cache.invalidateWhere selected c1)) later
                       tenantId key) = None).
  { intros selected Hsel. split.
    - unfold Cache.invalidateWhere.
      destruct (Cache.deleteKeys _ _ _) as [cache' notified']. cbn [fst].
      rewrite length_map.
      assert (Hin : In (Cache.generateKey tenantId key, entry)
                      (filter (fun kv => selected (snd kv)) (mc_cache c1))).
      { apply filter_In. split; [now apply get_Some_In | exact Hsel]. }
      destruct (filter (fun kv => selected (snd kv)) (mc_cache c1));
        [destruct Hin | simpl; lia].
    - unfold Cache.get.
      now rewrite (invalidateWhere_removes selected c1 _ entry H1 Hsel). }
  destruct (Hcount (fun e => Cache.includes tag (ce_tags e)) Hinc) as [Ha Hb].
  destruct (Hcount (carriesAny (others ++ [tag])) Hany) as [Hc Hd].
  repeat split; trivial.
Qed.

Lemma invalidation_by_carried_tag_witness :
  let c1 := Cache.set (@Cache.new nat) 0 "A" "k" 1%nat None (Some ["x"; "y"]) in
  (1 <= fst (Cache.invalidateByTag c1 "y"))%nat
  /\ fst (Cache.get (snd (Cache.invalidateByTag c1 "y")) 5 "A" "k") = None
  /\ (1 <= fst (Cache.invalidateByTags c1 (["z"] ++ ["y"])))%nat
  /\ fst (Cache.get (snd (Cache.invalidateByTags c1 (["z"] ++ ["y"]))) 5 "A" "k") = None.
Proof.
  apply (invalidation_by_carried_tag nat Cache.new 0 5 "A" "k" 1%nat None
           (Some ["x"; "y"]) "y" ["z"]).
  simpl. tauto.
Defined.

(** ** Overwriting an entry *)

(** X25. A second [set] of the same tenant and key replaces the entry where it
    stands: the number of entries and the order of the keys stay as they were
    after the first [set]; a [get] returns the second data up to the second
    expiry time and [null] after it, whatever the first TTL was; and the tags
    of the first [set] are forgotten, so that invalidating by a tag that the
    second entry does not carry leaves the entry in place. *)
Theorem set_overwrites_entry
    (V : Type) (c : MemoryCache V) (now1 now2 later : Z) (tenantId key : string)
    (data1 data2 : V) (ttl1 ttl2 : option Z) (tags1 tags2 : option (list string))
    (tag : string) :
  NoDup (OMap.keys (mc_cache c)) ->
  ~ In tag (tenantId :: match tags2 with Some x => x | None => [] end) ->
  let c1 := Cache.set c now1 tenantId key data1 ttl1 tags1 in
  let c2 := Cache.set c1 now2 tenantId key data2 ttl2 tags2 in
  OMap.keys (mc_cache c2) = OMap.keys (mc_cache c1)
  /\ size (mc_stats c2) = size (mc_stats c1)
  /\ ((later <= now2 + Cache.ttlOrDefault ttl2)%Z ->
      fst (Cache.get c2 later tenantId key) = Some data2
      /\ fst (Cache.get (snd (Cache.invalidateByTag c2 tag)) later tenantId key)
         = Some data2)
  /\ ((now2 + Cache.ttlOrDefault ttl2 < later)%Z ->
      fst (Cache.get c2 later tenantId key) = None).
Proof.
  intros Hnd Htag c1 c2.
  set (fullKey := Cache.generateKey tenantId key).
  set (entry := mkCacheEntry data2 (now2 + Cache.ttlOrDefault ttl2)%Z now2 1%Z
                  (tenantId :: match tags2 with Some x => x | None => [] end)).
  assert (H1 : OMap.has fullKey (mc_cache c1) = true).
  { unfold OMap.has, c1, Cache.set. cbn [mc_cache]. fold fullKey.
    now rewrite get_set_same. }
  assert (Hkeys : OMap.keys (mc_cache c2) = OMap.keys (mc_cache c1)).
  { unfold c2 at 1, Cache.set at 1. cbn [mc_cache]. fold fullKey.
    now rewrite keys_set, H1. }
  assert (H2 : OMap.get fullKey (mc_cache c2) = Some entry).
  { unfold c2, Cache.set. cbn [mc_cache]. apply get_set_same. }
  assert (Hnd2 : NoDup (OMap.keys (mc_cache c2))).
  { rewrite Hkeys. unfold c1, Cache.set. cbn [mc_cache]. now apply NoDup_keys_set. }
  split; [exact Hkeys |]. split; [| split].
  - assert (Hs2 : size (mc_stats c2) = OMap.size (mc_cache c2)) by reflexivity.
    assert (Hs1 : size (mc_stats c1) = OMap.size (mc_cache c1)) by reflexivity.
    rewrite Hs1, Hs2. apply (f_equal (@List.length string)) in Hkeys.
    unfold OMap.keys in Hkeys. rewrite !length_map in Hkeys. exact Hkeys.
  - intros Hlive.
    assert (Hfresh : (ce_expiresAt entry <? later)%Z = false)
      by (apply Z.ltb_ge; exact Hlive).
    split.
    + unfold Cache.get. fold fullKey. rewrite H2. now rewrite Hfresh.
    + unfold Cache.get, Cache.invalidateByTag. fold fullKey.
      rewrite invalidateWhere_keeps, H2; [now rewrite Hfresh |].
      intros e He. rewrite (In_get _ _ _ Hnd2 He) in H2. injection H2 as ->.
      destruct (Cache.includes tag (ce_tags entry)) eqn:Einc; trivial.
      apply includes_iff in Einc. contradiction.
  - intros Hdead. unfold Cache.get. fold fullKey. rewrite H2.
    assert (Hexp : (ce_expiresAt entry <? later)%Z = true)
      by (apply Z.ltb_lt; exact Hdead).
    now rewrite Hexp.
Qed.

Lemma set_overwrites_entry_witness :
  let c1 := Cache.set (@Cache.new nat) 0 "A" "k" 1%nat (Some 100%Z) (Some ["x"]) in
  let c2 := Cache.set c1 5 "A" "k" 2%nat (Some 10%Z) (Some ["y"]) in
  OMap.keys (mc_cache c2) = OMap.keys (mc_cache c1)
  /\ size (mc_stats c2) = size (mc_stats c1)
  /\ ((12 <= 5 + Cache.ttlOrDefault (Some 10%Z))%Z ->
      fst (Cache.get c2 12 "A" "k") = Some 2%nat
      /\ fst (Cache.get (snd (Cache.invalidateByTag c2 "x")) 12 "A" "k") = Some 2%nat)
  /\ ((5 + Cache.ttlOrDefault (Some 10%Z) < 12)%Z ->
      fst (Cache.get c2 12 "A" "k") = None).
Proof.
  apply (set_overwrites_entry nat Cache.new 0 5 12 "A" "k" 1%nat 2%nat
           (Some 100%Z) (Some 10%Z) (Some ["x"]) (Some ["y"]) "x").
  - constructor.
  - simpl. intuition discriminate.
Defined.

Lemma get_counts_one_read {V : Type} (c : MemoryCache V) now tenantId key :
  readsOf (snd (Cache.get c now tenantId key)) = S (readsOf c).
Proof.
  unfold readsOf, Cache.get.
  destruct (OMap.get (Cache.generateKey tenantId key) (mc_cache c)) as [e |].
  - destruct (ce_expiresAt e <? now)%Z; cbn; lia.
  - cbn. lia.
Qed.

Lemma has_state {V : Type} (isNull : V -> bool) (c : MemoryCache V) now tenantId key :
  snd (Cache.has isNull c now tenantId key) = snd (Cache.get c now tenantId key).
Proof.
  unfold Cache.has. now destruct (Cache.get c now tenantId key).
Qed.

Lemma applyOp_reads {V : Type} (isNull : V -> bool) (c : MemoryCache V)
    (op : CacheOp V) :
  readsOf (applyOp isNull c op) = countRead (readsOf c) op.
Proof.
  destruct op; simpl; trivial.
  - apply get_counts_one_read.
  - rewrite has_state. apply get_counts_one_read.
  - unfold Cache.delete.
    now destruct (OMap.get (Cache.generateKey tenantId key) (mc_cache c)).
  - unfold Cache.invalidateTenant, Cache.invalidateWhere.
    now destruct (Cache.deleteKeys _ _ _).
  - unfold Cache.invalidateByTag, Cache.invalidateWhere.
    now destruct (Cache.deleteKeys _ _ _).
  - unfold Cache.invalidateByTags, Cache.invalidateWhere.
    now destruct (Cache.deleteKeys _ _ _).
  - unfold Cache.invalidateRegulation, Cache.invalidateByTags, Cache.invalidateWhere.
    now destruct (Cache.deleteKeys _ _ _).
  - unfold Cache.invalidateEntity, Cache.invalidateByTags, Cache.invalidateWhere.
    now destruct (Cache.deleteKeys _ _ _).
  - unfold Cache.invalidateEdge, Cache.invalidateByTag, Cache.invalidateWhere.
    now destruct (Cache.deleteKeys _ _ _).
  - unfold Cache.cleanup.
    now destruct (map fst _).
Qed.

(** X9. Every [get] and every [has] counts exactly one read, and no other
    method touches the two counters except [resetStats], which zeroes them:
    after any sequence of calls on a new cache, [hits + misses] is the number
    of [get] and [has] calls since the last [resetStats].  The read is a hit
    exactly when the key holds an entry that has not expired, whatever its
    data: [get] then returns the stored data, and [has] is [true] unless that
    data is [null], in which case it is [false] although a hit is counted.
    The read is a miss when the key is absent or its entry has expired: [get]
    returns [null] and [has] is [false].  [has] changes the cache as [get]
    does.  After [set("t", "k", null)] on a new cache, [get("t", "k")]
    returns the stored [null], [has("t", "k")] is [false], and the cache
    counts one hit and no miss. *)
Theorem hits_plus_misses_counts_reads :
  forall (V : Type) (isNull : V -> bool) (ops : list (CacheOp V)) (now : Z)
         (tenantId key : string),
    let c := applyOps isNull Cache.new ops in
    let entry := OMap.get (Cache.generateKey tenantId key) (mc_cache c) in
    let after := snd (Cache.get c now tenantId key) in
    (hits (mc_stats c) + misses (mc_stats c))%nat = readsSinceReset ops
    /\ snd (Cache.has isNull c now tenantId key) = after
    /\ (forall e,
          entry = Some e -> (now <= ce_expiresAt e)%Z ->
          hits (mc_stats after) = S (hits (mc_stats c))
          /\ misses (mc_stats after) = misses (mc_stats c)
          /\ fst (Cache.get c now tenantId key) = Some (ce_data e)
          /\ fst (Cache.has isNull c now tenantId key) = negb (isNull (ce_data e)))
    /\ (entry = None \/ (exists e, entry = Some e /\ (ce_expiresAt e < now)%Z) ->
        hits (mc_stats after) = hits (mc_stats c)
        /\ misses (mc_stats after) = S (misses (mc_stats c))
        /\ fst (Cache.get c now tenantId key) = None
        /\ fst (Cache.has isNull c now tenantId key) = false)
    /\ (let isNone (v : option nat) :=
          match v with None => true | Some _ => false end in
        let c0 := Cache.set Cache.new 0 "t" "k" None None None in
        fst (Cache.get c0 1 "t" "k") = Some None
        /\ fst (Cache.has isNone c0 1 "t" "k") = false
        /\ hits (mc_stats (snd (Cache.has isNone c0 1 "t" "k"))) = 1%nat
        /\ misses (mc_stats (snd (Cache.has isNone c0 1 "t" "k"))) = 0%nat).
Proof.
  intros V isNull ops now tenantId key c entry after.
  assert (Hfold : forall (l : list (CacheOp V)) (c0 : MemoryCache V),
             readsOf (applyOps isNull c0 l) = fold_left countRead l (readsOf c0)).
  { unfold applyOps. induction l as [| op l IH]; intros c0; simpl; trivial.
    rewrite IH. now rewrite applyOp_reads. }
  split; [exact (Hfold ops Cache.new) |]. split; [apply has_state |].
  split; [| split; [| repeat split]];
    unfold after, entry, Cache.has, Cache.get.
  - intros e -> Hlive.
    assert (Hfresh : (ce_expiresAt e <? now)%Z = false) by (apply Z.ltb_ge; exact Hlive).
    rewrite Hfresh. cbn. repeat split.
  - intros [-> | [e [-> Hdead]]]; [cbn; repeat split |].
    assert (Hexp : (ce_expiresAt e <? now)%Z = true) by (apply Z.ltb_lt; exact Hdead).
    rewrite Hexp. cbn. repeat split.
Qed.

(** ** The adjacency lists of [buildDependencyGraph] *)

Lemma pushEdge_get key edge m k :
  OMap.get k (pushEdge key edge m)
  = if String.eqb k key
    then Some (match OMap.get key m with Some b => b | None => [] end ++ [edge])
    else OMap.get k m.
Proof.
  unfold pushEdge, OMap.has.
  destruct (OMap.get key m) as [b |] eqn:E.
  - rewrite E. destruct (String.eqb k key) eqn:Ek.
    + apply String.eqb_eq in Ek. subst k. apply get_set_same.
    + apply String.eqb_neq in Ek. apply get_set_other. congruence.
  - rewrite get_set_same. destruct (String.eqb k key) eqn:Ek.
    + apply String.eqb_eq in Ek. subst k. apply get_set_same.
    + apply String.eqb_neq in Ek.
      rewrite !get_set_other by congruence. reflexivity.
Qed.

Lemma pushEdge_NoDup key edge m :
  NoDup (OMap.keys m) -> NoDup (OMap.keys (pushEdge key edge m)).
Proof.
  intros H. unfold pushEdge.
  destruct (OMap.has key m); [| apply (NoDup_keys_set key []) in H];
    destruct (OMap.get key _); trivial; now apply NoDup_keys_set.
Qed.

Lemma indexBy_get keyOf edges :
  forall m k,
    OMap.get k (indexBy keyOf edges m)
    = match OMap.get k m with
      | Some b => Some (b ++ filter (fun e => String.eqb (keyOf e) k) edges)
      | None => bucketOf (filter (fun e => String.eqb (keyOf e) k) edges)
      end.
Proof.
  unfold indexBy.
  induction edges as [| e edges IH]; intros m k; simpl.
  - destruct (OMap.get k m); [now rewrite app_nil_r | reflexivity].
  - rewrite IH, pushEdge_get. rewrite (String.eqb_sym k (keyOf e)).
    destruct (String.eqb (keyOf e) k) eqn:Ek.
    + apply String.eqb_eq in Ek. subst k.
      destruct (OMap.get (keyOf e) m) as [b |]; simpl; [now rewrite <- app_assoc | trivial].
    + reflexivity.
Qed.

Lemma indexBy_NoDup keyOf edges :
  forall m, NoDup (OMap.keys m) -> NoDup (OMap.keys (indexBy keyOf edges m)).
Proof.
  unfold indexBy. induction edges as [| e edges IH]; intros m H; simpl; trivial.
  apply IH. now apply pushEdge_NoDup.
Qed.

Lemma buildGraph_indexBy edges :
  buildGraph edges
  = mkDependencyGraph (indexBy sourceKeyOfEdge edges OMap.empty)
      (indexBy targetKeyOf edges OMap.empty) edges.
Proof.
  unfold buildGraph, indexBy.
  assert (H : forall l out inc,
             fold_left
               (fun acc edge =>
                  let '(out, inc) := acc in
                  (pushEdge (entityKey (ie_sourceType edge) (ie_sourceId edge)) edge out,
                   pushEdge (entityKey (ie_targetType edge) (ie_targetId edge)) edge inc))
               l (out, inc)
             = (fold_left (fun acc edge => pushEdge (sourceKeyOfEdge edge) edge acc) l out,
                fold_left (fun acc edge => pushEdge (targetKeyOf edge) edge acc) l inc)).
  { induction l as [| e l IH]; intros out inc; simpl; [reflexivity | apply IH]. }
  now rewrite H.
Qed.

Lemma flat_pushEdge key edge (m : OMap.t (list ImpactEdge)) :
  Permutation (flat_map snd (pushEdge key edge m)) (edge :: flat_map snd m).
Proof.
  assert (Hset : forall m b,
             OMap.get key m = Some b ->
             Permutation (flat_map snd (OMap.set key (b ++ [edge]) m))
               (edge :: flat_map snd m)).
  { clear m. induction m as [| [k' b'] m IH]; intros b; simpl; [discriminate |].
    destruct (String.eqb key k') eqn:E; simpl.
    - intros [= ->]. rewrite <- app_assoc. simpl.
      symmetry. apply Permutation_middle.
    - intros H. rewrite (IH b H).
      change (Permutation (b' ++ [edge] ++ flat_map snd m)
                ([edge] ++ b' ++ flat_map snd m)).
      rewrite !app_assoc. apply Permutation_app_tail. apply Permutation_app_comm. }
  assert (Hnew : forall m : OMap.t (list ImpactEdge),
             flat_map snd (OMap.set key [] m) = flat_map snd m
             \/ OMap.has key m = true).
  { clear m Hset. induction m as [| [k' b'] m IH]; simpl; [now left |].
    unfold OMap.has. simpl.
    destruct (String.eqb key k') eqn:E; simpl; [now right |].
    destruct IH as [IH | IH]; [left; now rewrite IH | right; exact IH]. }
  unfold pushEdge. destruct (OMap.has key m) eqn:Eh.
  - unfold OMap.has in Eh. destruct (OMap.get key m) as [b |] eqn:E; [| discriminate].
    now apply Hset.
  - rewrite get_set_same.
    rewrite (Hset (OMap.set key [] m) [] (get_set_same key [] m)).
    destruct (Hnew m) as [H | H]; [now rewrite H | congruence].
Qed.

Lemma flat_indexBy keyOf edges :
  forall m,
    Permutation (flat_map snd (indexBy keyOf edges m)) (flat_map snd m ++ edges).
Proof.
  unfold indexBy. induction edges as [| e edges IH]; intros m; simpl.
  - now rewrite app_nil_r.
  - rewrite IH, flat_pushEdge. simpl. apply Permutation_middle.
Qed.

Lemma graphPairs_edges graph :
  map snd (graphPairs graph) = flat_map snd (outgoing graph).
Proof.
  unfold graphPairs. induction (outgoing graph) as [| [k b] m IH]; simpl; trivial.
  rewrite map_app, IH, map_map. simpl. now rewrite map_id.
Qed.

Lemma outgoingEdges_buildGraph rows key :
  outgoingEdges (buildGraph rows) key = edgesFrom key rows.
Proof.
  rewrite buildGraph_indexBy. unfold outgoingEdges. cbn [outgoing].
  rewrite indexBy_get. simpl. fold (edgesFrom key rows).
  now destruct (edgesFrom key rows).
Qed.

(** X10. The adjacency lists that [buildDependencyGraph] builds from the
    fetched edges: the outgoing bucket of a key holds exactly the edges whose
    source has that key, the incoming bucket exactly those whose target has
    it, each in the order of the fetched rows; a key without such an edge has
    no bucket; the keys of each list are distinct; [allEdges] is the fetched
    list. *)
Theorem buildGraph_buckets :
  forall (edges : list ImpactEdge) (key : string),
    let graph := buildGraph edges in
    OMap.get key (outgoing graph) = bucketOf (edgesFrom key edges)
    /\ OMap.get key (incoming graph) = bucketOf (edgesInto key edges)
    /\ outgoingEdges graph key = edgesFrom key edges
    /\ NoDup (OMap.keys (outgoing graph))
    /\ NoDup (OMap.keys (incoming graph))
    /\ allEdges graph = edges.
Proof.
  intros edges key graph. unfold graph. rewrite buildGraph_indexBy. cbn.
  pose proof (indexBy_get sourceKeyOfEdge edges OMap.empty key) as Hout.
  pose proof (indexBy_get targetKeyOf edges OMap.empty key) as Hinc.
  simpl in Hout, Hinc. fold (edgesFrom key edges) in Hout.
  fold (edgesInto key edges) in Hinc.
  repeat split; trivial.
  - rewrite <- buildGraph_indexBy. apply outgoingEdges_buildGraph.
  - apply indexBy_NoDup. constructor.
  - apply indexBy_NoDup. constructor.
Qed.

(** X11. Every fetched edge sits in exactly one outgoing bucket and in exactly
    one incoming bucket: the buckets of either adjacency list, taken together,
    are a permutation of the fetched edges.  The index therefore holds as many
    (key, edge) pairs as there are edges, which bounds the recursion depth of
    a traversal by the number of edges plus one. *)
Theorem buildGraph_partitions_edges :
  forall edges : list ImpactEdge,
    let graph := buildGraph edges in
    Permutation (flat_map snd (outgoing graph)) edges
    /\ Permutation (flat_map snd (incoming graph)) edges
    /\ Permutation (map snd (graphPairs graph)) edges
    /\ fuelFor graph = S (List.length edges).
Proof.
  intros edges graph. unfold graph. rewrite buildGraph_indexBy. cbn [outgoing incoming].
  pose proof (flat_indexBy sourceKeyOfEdge edges OMap.empty) as Hout.
  pose proof (flat_indexBy targetKeyOf edges OMap.empty) as Hinc.
  simpl in Hout, Hinc.
  assert (Hpairs : Permutation
                     (map snd
                        (graphPairs
                           (mkDependencyGraph (indexBy sourceKeyOfEdge edges OMap.empty)
                              (indexBy targetKeyOf edges OMap.empty) edges)))
                     edges).
  { rewrite graphPairs_edges. exact Hout. }
  repeat split; trivial.
  unfold fuelFor. f_equal. rewrite <- (length_map snd).
  now apply Permutation_length.
Qed.

Lemma buildDependencyGraph_miss db c now tenantId :
  OMap.get (Cache.generateKey tenantId (CacheKeys.dependencyGraph tenantId))
    (mc_cache c) = None ->
  fst (buildDependencyGraph db c now tenantId)
  = buildGraph (findActiveEdges db tenantId).
Proof.
  intros H. unfold buildDependencyGraph, Cache.get. now rewrite H.
Qed.

(** X12. The cached graph hides later changes of the edge table.  When a call
    of [buildDependencyGraph] at time [t0] finds nothing usable in the cache,
    it returns the graph of the active edges of the tenant and stores it for
    one hour: a call up to [t0 + 3600000] returns that same graph whatever the
    table holds by then, a call after it reads the table again, and so does a
    call that follows [invalidateEdge] (for any tenant argument) or
    [invalidateTenant] of the tenant. *)
Theorem graph_cache_staleness
    (db db' : Db) (c : MemoryCache DependencyGraph) (t0 now : Z)
    (tenantId : string) :
  fst (Cache.get c t0 tenantId (CacheKeys.dependencyGraph tenantId)) = None ->
  let c0 := snd (buildDependencyGraph db c t0 tenantId) in
  fst (buildDependencyGraph db c t0 tenantId) = buildGraph (findActiveEdges db tenantId)
  /\ ((now <= t0 + 3600000)%Z ->
      fst (buildDependencyGraph db' c0 now tenantId)
      = buildGraph (findActiveEdges db tenantId))
  /\ ((t0 + 3600000 < now)%Z ->
      fst (buildDependencyGraph db' c0 now tenantId)
      = buildGraph (findActiveEdges db' tenantId))
  /\ (forall other,
        fst (buildDependencyGraph db' (Cache.invalidateEdge c0 other) now tenantId)
        = buildGraph (findActiveEdges db' tenantId))
  /\ fst (buildDependencyGraph db' (snd (Cache.invalidateTenant c0 tenantId)) now
            tenantId)
     = buildGraph (findActiveEdges db' tenantId).
Proof.
  intros Hmiss c0.
  set (key := Cache.generateKey tenantId (CacheKeys.dependencyGraph tenantId)).
  set (graph := buildGraph (findActiveEdges db tenantId)).
  set (entry := mkCacheEntry graph (t0 + 3600000)%Z t0 1%Z
                  [tenantId; CacheTags.dependencyGraph; tenantId]).
  assert (Hbuilt : fst (buildDependencyGraph db c t0 tenantId) = graph
                   /\ OMap.get key (mc_cache c0) = Some entry).
  { unfold c0, buildDependencyGraph.
    destruct (Cache.get c t0 tenantId (CacheKeys.dependencyGraph tenantId))
      as [r c1]. simpl in Hmiss. subst r. cbn [fst snd].
    split; [reflexivity |]. unfold Cache.set. cbn [mc_cache]. apply get_set_same. }
  destruct Hbuilt as [Hgraph Hentry].
  split; [exact Hgraph |]. split; [| split; [| split]].
  - intros Hnow. unfold buildDependencyGraph, Cache.get. fold key. rewrite Hentry.
    cbn [ce_expiresAt entry].
    destruct (t0 + 3600000 <? now)%Z eqn:E; [apply Z.ltb_lt in E; lia |].
    reflexivity.
  - intros Hnow. unfold buildDependencyGraph, Cache.get. fold key. rewrite Hentry.
    cbn [ce_expiresAt entry].
    destruct (t0 + 3600000 <? now)%Z eqn:E; [| apply Z.ltb_ge in E; lia].
    reflexivity.
  - intros other. apply buildDependencyGraph_miss. fold key.
    unfold Cache.invalidateEdge, Cache.invalidateByTag.
    apply (invalidateWhere_removes _ c0 key entry Hentry).
    apply includes_iff. simpl. tauto.
  - apply buildDependencyGraph_miss. fold key. unfold Cache.invalidateTenant.
    apply (invalidateWhere_removes _ c0 key entry Hentry).
    apply includes_iff. simpl. tauto.
Qed.

Lemma graph_cache_staleness_witness :
  let db := Scenario.db [] [] in
  let db' := Scenario.db [Scenario.edge REGULATION "R1" DEPARTMENT "D1" 1 "Direct"] [] in
  let c0 := snd (buildDependencyGraph db Cache.new 0 "T1") in
  fst (buildDependencyGraph db Cache.new 0 "T1") = buildGraph (findActiveEdges db "T1")
  /\ ((5 <= 0 + 3600000)%Z ->
      fst (buildDependencyGraph db' c0 5 "T1") = buildGraph (findActiveEdges db "T1"))
  /\ ((0 + 3600000 < 5)%Z ->
      fst (buildDependencyGraph db' c0 5 "T1") = buildGraph (findActiveEdges db' "T1"))
  /\ (forall other,
        fst (buildDependencyGraph db' (Cache.invalidateEdge c0 other) 5 "T1")
        = buildGraph (findActiveEdges db' "T1"))
  /\ fst (buildDependencyGraph db' (snd (Cache.invalidateTenant c0 "T1")) 5 "T1")
     = buildGraph (findActiveEdges db' "T1").
Proof.
  apply (graph_cache_staleness (Scenario.db [] [])
           (Scenario.db [Scenario.edge REGULATION "R1" DEPARTMENT "D1" 1 "Direct"] [])
           Cache.new 0 5 "T1").
  reflexivity.
Defined.

(** ** A stronger invariant of the traversal *)

Lemma extends_refl st : extends st st.
Proof. split; [apply incl_refl | exists []; now rewrite app_nil_r]. Qed.

Lemma extends_trans st1 st2 st3 :
  extends st1 st2 -> extends st2 st3 -> extends st1 st3.
Proof.
  intros [Hn1 [l1 He1]] [Hn2 [l2 He2]]. split.
  - eapply incl_tran; eassumption.
  - exists (l1 ++ l2). now rewrite He2, He1, app_assoc.
Qed.

Lemma extends_mark key st : extends st (markVisited key st).
Proof. split; [apply incl_refl | exists []; simpl; now rewrite app_nil_r]. Qed.

Lemma extends_accept db ct ci imp depth e st :
  extends st (acceptEdge db ct ci imp depth e st).
Proof.
  split; simpl.
  - intros k Hk. apply touchNode_keys. now right.
  - eexists. reflexivity.
Qed.

Lemma propagateBFS_extends eng db graph fuel ct ci imp depth st st' :
  propagateBFS fuel eng db graph ct ci imp depth st = Some st' ->
  extends st st'.
Proof.
  apply (propagateBFS_invariant eng db graph (fun s => extends st s)).
  - intros s ct' ci' e H _ _. eapply extends_trans; [exact H | apply extends_mark].
  - intros s ct' ci' imp' depth' e H _ _.
    eapply extends_trans; [exact H | apply extends_accept].
  - apply extends_refl.
Qed.

Section TraversalCallInvariant.
Variables (eng : PropagationEngine) (db : Db) (graph : DependencyGraph).

(** [P] is a property of the state, [C] one of the arguments of a call of
    [propagateBFS] in a state. *)
Variable P : TraversalState -> Prop.
Variable C : EntityType -> string -> Q -> nat -> TraversalState -> Prop.

Hypothesis P_mark : forall st key, P st -> P (markVisited key st).

Hypothesis C_mark : forall ct ci imp depth st key,
  C ct ci imp depth st -> C ct ci imp depth (markVisited key st).

Hypothesis C_extends : forall ct ci imp depth st st',
  C ct ci imp depth st -> extends st st' -> C ct ci imp depth st'.

Hypothesis P_accept : forall st ct ci imp depth e,
  P st -> C ct ci imp depth st ->
  In e (outgoingEdges graph (entityKey ct ci)) ->
  skipped eng e = false ->
  StrSet.has (visitedKeyOf (entityKey ct ci) (targetKeyOf e)) (ts_visited st) = false ->
  Qle_bool (eng_maxDepth eng) (inject_Z (Z.of_nat depth)) = false ->
  Qlt_bool imp (eng_impactThreshold eng) = false ->
  Qlt_bool (propagatedImpactOf imp e) (eng_impactThreshold eng) = false ->
  P (acceptEdge db ct ci imp depth e st)
  /\ C (ie_targetType e) (ie_targetId e) (propagatedImpactOf imp e) (depth + 1)%nat
       (acceptEdge db ct ci imp depth e st).

Lemma propagateBFS_call_invariant fuel :
  forall ct ci imp depth st st',
    P st -> C ct ci imp depth st ->
    propagateBFS fuel eng db graph ct ci imp depth st = Some st' ->
    P st'.
Proof.
  induction fuel as [| fuel IH]; intros ct ci imp depth st st' Hst Hc; simpl;
    [discriminate |].
  destruct (Qle_bool _ _) eqn:Hd; [intros [= <-]; exact Hst |].
  destruct (Qlt_bool _ _) eqn:Hi; [intros [= <-]; exact Hst |].
  intros Hrun.
  assert (Hbody : forall e s s',
             In e (outgoingEdges graph (entityKey ct ci)) ->
             P s /\ C ct ci imp depth s ->
             visitEdge eng db (propagateBFS fuel eng db graph) ct ci imp depth e s
             = Some s' ->
             P s' /\ C ct ci imp depth s').
  { intros e s s' He [Hs Hcs]. rewrite visitEdge_eq.
    destruct (skipped eng e) eqn:Hsk; [intros [= <-]; now split |].
    destruct (StrSet.has _ _) eqn:Hv; [intros [= <-]; now split |].
    destruct (Qlt_bool (propagatedImpactOf imp e) _) eqn:Hp.
    - intros [= <-]. split; [now apply P_mark | now apply C_mark].
    - intros Hrec.
      destruct (P_accept s ct ci imp depth e Hs Hcs He Hsk Hv Hd Hi Hp) as [Hs1 Hc1].
      split.
      + exact (IH _ _ _ _ _ _ Hs1 Hc1 Hrec).
      + apply (C_extends ct ci imp depth s s' Hcs).
        eapply extends_trans; [apply extends_accept |].
        eapply propagateBFS_extends. exact Hrec. }
  exact (proj1 (forOf_invariant _ (fun s => P s /\ C ct ci imp depth s) _ Hbody
                  st st' (conj Hst Hc) Hrun)).
Qed.
End TraversalCallInvariant.

(** ** What a propagation records *)

Lemma entityTypeName_plain t : hasColon (entityTypeName t) = false.
Proof. now destruct t. Qed.

Lemma entityTypeName_inj t1 t2 : entityTypeName t1 = entityTypeName t2 -> t1 = t2.
Proof. destruct t1, t2; simpl; trivial; discriminate. Qed.

Lemma entityKey_inj t1 t2 id1 id2 :
  entityKey t1 id1 = entityKey t2 id2 -> t1 = t2 /\ id1 = id2.
Proof.
  intros H.
  destruct (generateKey_inj (entityTypeName t1) (entityTypeName t2) id1 id2
              (entityTypeName_plain t1) (entityTypeName_plain t2) H) as [Ht Hid].
  split; [now apply entityTypeName_inj | exact Hid].
Qed.

Lemma skipped_false eng e :
  skipped eng e = false ->
  ie_isActive e = true
  /\ (ie_impactType e = "Indirect" -> eng_includeIndirect eng = true)
  /\ (ie_impactType e = "Conditional" ->
      forall conditions,
        ie_conditions e = Some conditions -> evaluateConditions conditions = true).
Proof.
  unfold skipped. intros H.
  apply orb_false_elim in H. destruct H as [H Hc].
  apply orb_false_elim in H. destruct H as [Ha Hi].
  split; [now destruct (ie_isActive e) |]. split.
  - intros Ht. rewrite Ht in Hi. simpl in Hi. now destruct (eng_includeIndirect eng).
  - intros Ht conditions Hcs. rewrite Ht, Hcs in Hc. simpl in Hc.
    now destruct (evaluateConditions conditions).
Qed.

(** X13. Every edge in the result of a propagation is the record of an edge of
    the graph that leaves the node the record names as its source: it copies
    that edge's target, weight and impact type, and the edge is active, is not
    Indirect unless the engine includes indirect edges, and is not Conditional
    with a condition object that [evaluateConditions] rejects.  On a graph
    built by [buildDependencyGraph] the edge is one of the fetched rows and
    has the recorded source. *)
Theorem recorded_edges_are_live_edges :
  forall eng db graph config,
  exists r,
    propagateOn eng db graph config = Some r
    /\ forall p, In p (pr_edges r) ->
         exists e,
           In e (outgoingEdges graph (pathSourceKey p))
           /\ p = pathEntryOf (pp_sourceType p) (pp_sourceId p) e
           /\ ie_isActive e = true
           /\ (pp_impactType p = "Indirect" -> eng_includeIndirect eng = true)
           /\ (pp_impactType p = "Conditional" ->
               forall conditions,
                 ie_conditions e = Some conditions ->
                 evaluateConditions conditions = true)
           /\ (forall rows, graph = buildGraph rows ->
                 In e rows
                 /\ ie_sourceType e = pp_sourceType p
                 /\ ie_sourceId e = pp_sourceId p).
Proof.
  intros eng db graph config.
  destruct (propagateOn_total eng db graph config) as [st [E ->]].
  eexists. split; [reflexivity |]. cbn [pr_edges].
  set (Q := fun p : PropagationPath =>
              exists e,
                In e (outgoingEdges graph (pathSourceKey p))
                /\ p = pathEntryOf (pp_sourceType p) (pp_sourceId p) e
                /\ skipped eng e = false).
  assert (H : forall p, In p (ts_edges st) -> Q p).
  { refine (propagateBFS_call_invariant eng db graph
              (fun s => forall p, In p (ts_edges s) -> Q p)
              (fun _ _ _ _ _ => True) _ _ _ _ _ _ _ _ _ _ _ _ _ E); trivial.
    - intros s ct ci imp depth e Hs _ He Hsk _ _ _ _. split; [| trivial].
      intros p Hp. simpl in Hp. apply in_app_iff in Hp.
      destruct Hp as [Hp | [<- | []]]; [now apply Hs |].
      exists e. repeat split; trivial.
    - intros p []. }
  intros p Hp. destruct (H p Hp) as [e [He [Hpe Hsk]]].
  destruct (skipped_false eng e Hsk) as [Ha [Hi Hc]].
  assert (Htype : pp_impactType p = ie_impactType e) by (rewrite Hpe; reflexivity).
  exists e. rewrite Htype. repeat split; trivial.
  - subst graph. rewrite outgoingEdges_buildGraph in He.
    apply filter_In in He. tauto.
  - subst graph. rewrite outgoingEdges_buildGraph in He.
    apply filter_In in He. destruct He as [_ He]. apply String.eqb_eq in He.
    now destruct (entityKey_inj _ _ _ _ He).
  - subst graph. rewrite outgoingEdges_buildGraph in He.
    apply filter_In in He. destruct He as [_ He]. apply String.eqb_eq in He.
    now destruct (entityKey_inj _ _ _ _ He).
Qed.

Lemma Qlt_bool_false_iff (a b : Q) : Qlt_bool a b = false <-> b <= a.
Proof.
  unfold Qlt_bool. rewrite negb_false_iff. apply Qle_bool_iff.
Qed.

Lemma Qle_bool_false_iff (a b : Q) : Qle_bool a b = false <-> b < a.
Proof.
  split.
  - intros H. apply Qnot_le_lt. intros Hle. apply Qle_bool_iff in Hle. congruence.
  - intros H. destruct (Qle_bool a b) eqn:E; trivial.
    apply Qle_bool_iff in E. apply Qlt_not_le in H. contradiction.
Qed.

Lemma js_max_upper (a b : Q) : b <= js_max a b.
Proof.
  unfold js_max. destruct (Qlt_bool a b) eqn:E; [apply Qle_refl |].
  now apply Qlt_bool_false_iff.
Qed.

Lemma touchNode_get_other db e p depth pathEntry nodes k :
  k <> targetKeyOf e ->
  OMap.get k (touchNode db e p depth pathEntry nodes) = OMap.get k nodes.
Proof.
  intros Hk. unfold touchNode.
  destruct (OMap.get (targetKeyOf e) nodes); apply get_set_other; congruence.
Qed.

Lemma touchNode_get_same db e p depth pathEntry nodes :
  OMap.get (targetKeyOf e) (touchNode db e p depth pathEntry nodes)
  = Some
      match OMap.get (targetKeyOf e) nodes with
      | Some existingNode =>
          mkPropagationNode (pn_id existingNode) (pn_type existingNode)
            (pn_name existingNode) (js_max (pn_impactScore existingNode) p)
            (pn_depth existingNode) (pn_path existingNode ++ [pathEntry])
      | None =>
          mkPropagationNode (ie_targetId e) (ie_targetType e)
            (entityNameOrId db (ie_targetType e) (ie_targetId e)) p (depth + 1)%nat
            [pathEntry]
      end.
Proof.
  unfold touchNode. destruct (OMap.get (targetKeyOf e) nodes); apply get_set_same.
Qed.

Lemma maxDepthOf_cases (nodes : OMap.t PropagationNode) :
  maxDepthOf nodes = 0%nat
  \/ exists k n, In (k, n) nodes /\ pn_depth n = maxDepthOf nodes.
Proof.
  unfold maxDepthOf, OMap.values.
  induction nodes as [| [k n] nodes IH]; simpl; [now left |].
  destruct (Nat.max_spec (pn_depth n)
              (fold_right Nat.max 0%nat (map pn_depth (map snd nodes))))
    as [[Hlt ->] | [Hle ->]].
  - destruct IH as [IH | [k' [n' [Hin Hd]]]]; [now left |].
    right. exists k', n'. split; [now right | exact Hd].
  - right. exists k, n. split; [now left | reflexivity].
Qed.

Lemma passesThreshold_kept eng db graph config fuel ct ci imp depth st st' :
  passesThreshold eng config (ts_nodes st) ->
  propagateBFS fuel eng db graph ct ci imp depth st = Some st' ->
  passesThreshold eng config (ts_nodes st').
Proof.
  intros H0 E.
  refine (propagateBFS_call_invariant eng db graph
            (fun s => passesThreshold eng config (ts_nodes s))
            (fun _ _ _ _ _ => True) _ _ _ _ _ _ _ _ _ _ _ H0 I E); trivial.
  intros s ct' ci' imp' depth' e Hs _ He Hsk _ Hd Hi Hp. split; [| trivial].
  intros k n Hget Hk. cbn [acceptEdge ts_nodes] in Hget.
  apply Qlt_bool_false_iff in Hp. apply Qle_bool_false_iff in Hd.
  destruct (String.eqb k (targetKeyOf e)) eqn:Ek.
  - apply String.eqb_eq in Ek. subst k. rewrite touchNode_get_same in Hget.
    injection Hget as <-.
    destruct (OMap.get (targetKeyOf e) (ts_nodes s)) as [n0 |] eqn:E0; cbn.
    + destruct (Hs _ _ E0 Hk) as [H1 [H2 H3]]. repeat split; trivial.
      eapply Qle_trans; [exact H1 | apply js_max_lower].
    + repeat split; trivial; [lia |].
      rewrite Nat2Z.inj_add, inject_Z_plus. simpl (inject_Z (Z.of_nat 1)).
      apply Qplus_lt_l. exact Hd.
  - apply String.eqb_neq in Ek. rewrite touchNode_get_other in Hget by exact Ek.
    exact (Hs k n Hget Hk).
Qed.

Lemma result_passesThreshold eng db graph config st :
  propagateBFS (fuelFor graph) eng db graph (cfg_sourceType config)
    (cfg_sourceId config) (initialImpactOf config) 0 (initialState db config)
  = Some st ->
  passesThreshold eng config (ts_nodes st).
Proof.
  apply passesThreshold_kept.
  intros k n Hget Hk. simpl in Hget.
  destruct (String.eqb k (sourceKeyOf config)) eqn:Ek; [| discriminate].
  apply String.eqb_eq in Ek. contradiction.
Qed.

(** X14. In the result of a propagation every node other than the source has
    a score at or above the threshold of the engine and a depth of at least 1
    and below [maxDepth + 1]; the [maxDepth] of the result is 0 or below the
    engine's [maxDepth + 1]; and when the engine's [maxDepth] is at most 0 or
    the initial impact is below the threshold, the result holds the source
    alone, with no edge. *)
Theorem reached_nodes_pass_threshold :
  forall eng db graph config,
  exists r,
    propagateOn eng db graph config = Some r
    /\ (forall k n,
          OMap.get k (pr_nodes r) = Some n -> k <> sourceKeyOf config ->
          eng_impactThreshold eng <= pn_impactScore n
          /\ (1 <= pn_depth n)%nat
          /\ inject_Z (Z.of_nat (pn_depth n)) < eng_maxDepth eng + 1)
    /\ (pr_maxDepth r = 0%nat
        \/ inject_Z (Z.of_nat (pr_maxDepth r)) < eng_maxDepth eng + 1)
    /\ (eng_maxDepth eng <= 0 \/ initialImpactOf config < eng_impactThreshold eng ->
        pr_nodes r = [(sourceKeyOf config, sourceNodeOf db config)]
        /\ pr_edges r = []
        /\ pr_totalAffected r = 0%Z
        /\ pr_maxDepth r = 0%nat).
Proof.
  intros eng db graph config.
  destruct (propagateOn_total eng db graph config) as [st [E ->]].
  eexists. split; [reflexivity |]. cbn [pr_nodes pr_edges pr_maxDepth pr_totalAffected].
  pose proof (result_passesThreshold _ _ _ _ _ E) as Hpass.
  assert (Hsrc : sourceKept config (initialState db config)).
  { exists (sourceNodeOf db config). simpl. rewrite String.eqb_refl.
    repeat split; trivial. apply Qle_refl. }
  pose proof (sourceKept_kept _ _ _ _ _ _ _ _ _ _ _ Hsrc E) as [src [Hs1 [Hs2 _]]].
  assert (Hnd : NoDup (OMap.keys (ts_nodes st))).
  { refine (nodes_unique _ _ _ _ _ _ _ _ _ _ _ E).
    simpl. constructor; [intros [] | constructor]. }
  split; [exact Hpass |]. split.
  - fold (maxDepthOf (ts_nodes st)).
    destruct (maxDepthOf_cases (ts_nodes st)) as [H | [k [n [Hin Hd]]]]; [now left |].
    apply (In_get _ _ _ Hnd) in Hin.
    destruct (String.eqb k (sourceKeyOf config)) eqn:Ek.
    + apply String.eqb_eq in Ek. subst k. rewrite Hs1 in Hin. injection Hin as <-.
      left. now rewrite <- Hd.
    + apply String.eqb_neq in Ek. right. rewrite <- Hd. apply (Hpass k n Hin Ek).
  - intros Hstop.
    assert (Hst : st = initialState db config).
    { destruct (fuelFor graph) as [| fuel] eqn:Ef; [discriminate |].
      cbn [propagateBFS] in E.
      destruct Hstop as [Hstop | Hstop].
      - assert (Hq : Qle_bool (eng_maxDepth eng) (inject_Z (Z.of_nat 0)) = true)
          by (apply Qle_bool_iff; exact Hstop).
        rewrite Hq in E. now injection E as <-.
      - destruct (Qle_bool _ _); [now injection E as <- |].
        assert (Hq : Qlt_bool (initialImpactOf config) (eng_impactThreshold eng) = true)
          by (apply Qlt_bool_iff; exact Hstop).
        rewrite Hq in E. now injection E as <-. }
    subst st. simpl. repeat split.
Qed.

Lemma pathsInto_app key edges1 edges2 :
  pathsInto key (edges1 ++ edges2) = pathsInto key edges1 ++ pathsInto key edges2.
Proof. apply filter_app. Qed.

Lemma pathsInto_none key edges :
  (forall p, In p edges -> pathTargetKey p <> key) -> pathsInto key edges = [].
Proof.
  intros H. apply filter_none. intros p Hp. apply String.eqb_neq. now apply H.
Qed.

Lemma nodesMatchEdges_kept eng db graph sourceKey fuel ct ci imp depth st st' :
  nodesMatchEdges sourceKey st ->
  propagateBFS fuel eng db graph ct ci imp depth st = Some st' ->
  nodesMatchEdges sourceKey st'.
Proof.
  intros H0 E.
  refine (propagateBFS_call_invariant eng db graph (nodesMatchEdges sourceKey)
            (fun _ _ _ _ _ => True) _ _ _ _ _ _ _ _ _ _ _ H0 I E); trivial.
  intros s ct' ci' imp' depth' e [Hnd [Hkeys Hnodes]] _ _ _ _ _ _ _.
  split; [| trivial].
  set (pe := mkPropagationPath ct' ci' (ie_targetType e) (ie_targetId e)
               (ie_impactWeight e) (ie_impactType e)).
  assert (Hpe : pathTargetKey pe = targetKeyOf e) by reflexivity.
  unfold nodesMatchEdges. cbn [acceptEdge ts_nodes ts_edges]. fold pe.
  split; [| split].
  - unfold touchNode. destruct (OMap.get _ _); now apply NoDup_keys_set.
  - intros k. rewrite touchNode_keys, Hkeys. split.
    + intros [-> | [-> | [p [Hp Hk]]]].
      * right. exists pe. split; [apply in_or_app; right; now left | exact Hpe].
      * now left.
      * right. exists p. split; [apply in_or_app; now left | exact Hk].
    + intros [-> | [p [Hp Hk]]]; [right; now left |].
      apply in_app_iff in Hp. destruct Hp as [Hp | [<- | []]].
      * right. right. now exists p.
      * left. now rewrite <- Hk.
  - intros k n Hget. rewrite pathsInto_app.
    destruct (String.eqb k (targetKeyOf e)) eqn:Ek.
    + apply String.eqb_eq in Ek. subst k. rewrite touchNode_get_same in Hget.
      injection Hget as <-.
      assert (Hlast : pathsInto (targetKeyOf e) [pe] = [pe]).
      { unfold pathsInto. simpl. rewrite Hpe. now rewrite String.eqb_refl. }
      rewrite Hlast.
      destruct (OMap.get (targetKeyOf e) (ts_nodes s)) as [n0 |] eqn:E0; cbn.
      * destruct (Hnodes _ _ E0) as [H1 H2]. now rewrite H1.
      * split; [| reflexivity].
        rewrite pathsInto_none; [reflexivity |].
        intros p Hp Hk. apply get_None_iff in E0. apply E0.
        apply Hkeys. right. now exists p.
    + apply String.eqb_neq in Ek. rewrite touchNode_get_other in Hget by exact Ek.
      destruct (Hnodes _ _ Hget) as [H1 H2]. split; [| exact H2].
      rewrite H1. unfold pathsInto at 3. simpl. rewrite Hpe.
      rewrite String.eqb_sym. apply String.eqb_neq in Ek. rewrite Ek.
      now rewrite app_nil_r.
Qed.

Lemma result_nodesMatchEdges eng db graph config st :
  propagateBFS (fuelFor graph) eng db graph (cfg_sourceType config)
    (cfg_sourceId config) (initialImpactOf config) 0 (initialState db config)
  = Some st ->
  nodesMatchEdges (sourceKeyOf config) st.
Proof.
  apply nodesMatchEdges_kept. split; [| split]; simpl.
  - constructor; [intros [] | constructor].
  - intros k. split.
    + intros [<- | []]. now left.
    + intros [-> | [p [[] _]]]. now left.
  - intros k n. destruct (String.eqb k (sourceKeyOf config)) eqn:Ek;
      [| discriminate].
    apply String.eqb_eq in Ek. intros [= <-]. split; [reflexivity | exact Ek].
Qed.

(** X15. The node map and the edge list of a result agree.  The keys of the
    map are distinct and are exactly the source key and the target keys of the
    recorded edges; every node is stored under the key of its own type and
    id, and its [path] is the list of the recorded edges that lead into it, in
    the order in which they were recorded; [totalAffected] lies between 0 and
    the number of recorded edges. *)
Theorem nodes_match_recorded_edges :
  forall eng db graph config,
  exists r,
    propagateOn eng db graph config = Some r
    /\ NoDup (OMap.keys (pr_nodes r))
    /\ (forall k,
          In k (OMap.keys (pr_nodes r))
          <-> k = sourceKeyOf config
              \/ exists p, In p (pr_edges r) /\ pathTargetKey p = k)
    /\ (forall k n,
          OMap.get k (pr_nodes r) = Some n ->
          pn_path n = pathsInto k (pr_edges r)
          /\ k = entityKey (pn_type n) (pn_id n))
    /\ (0 <= pr_totalAffected r <= Z.of_nat (List.length (pr_edges r)))%Z.
Proof.
  intros eng db graph config.
  destruct (propagateOn_total eng db graph config) as [st [E ->]].
  eexists. split; [reflexivity |]. cbn [pr_nodes pr_edges pr_totalAffected].
  destruct (result_nodesMatchEdges _ _ _ _ _ E) as [Hnd [Hkeys Hnodes]].
  split; [exact Hnd |]. split; [exact Hkeys |]. split; [exact Hnodes |]. split.
  - assert (Hin : In (sourceKeyOf config) (OMap.keys (ts_nodes st)))
      by (apply Hkeys; now left).
    unfold OMap.size. unfold OMap.keys in Hin. revert Hin.
    destruct (ts_nodes st); [intros [] | intros _; cbn [List.length]; lia].
  - assert (Hincl : incl (OMap.keys (ts_nodes st))
                      (sourceKeyOf config :: map pathTargetKey (ts_edges st))).
    { intros k Hk. apply Hkeys in Hk. destruct Hk as [-> | [p [Hp Hk]]]; [now left |].
      right. apply in_map_iff. now exists p. }
    apply (NoDup_incl_length Hnd) in Hincl. simpl in Hincl.
    rewrite length_map in Hincl. unfold OMap.keys in Hincl.
    rewrite length_map in Hincl. unfold OMap.size. lia.
Qed.

Lemma scale_down (a b : Q) : 0 <= a -> 0 <= b -> b <= 1 -> 0 <= a * b /\ a * b <= a.
Proof. intros Ha Hb Hb1. split; nra. Qed.

Lemma IMPACT_TYPE_MULTIPLIERS_range impactType :
  0 <= IMPACT_TYPE_MULTIPLIERS impactType /\ IMPACT_TYPE_MULTIPLIERS impactType <= 1.
Proof.
  unfold IMPACT_TYPE_MULTIPLIERS.
  repeat (destruct (String.eqb _ _)); split; unfold Qle; simpl; lia.
Qed.

Lemma SEVERITY_WEIGHTS_range t :
  t <> REGULATION -> 0 <= SEVERITY_WEIGHTS t /\ SEVERITY_WEIGHTS t <= 1.
Proof.
  destruct t; intros H; try congruence; split; unfold Qle; simpl; lia.
Qed.

Lemma propagatedImpactOf_range imp e :
  0 <= imp ->
  0 <= ie_impactWeight e -> ie_impactWeight e <= 1 ->
  ie_targetType e <> REGULATION ->
  0 <= propagatedImpactOf imp e /\ propagatedImpactOf imp e <= imp.
Proof.
  intros Himp Hw0 Hw1 Ht. unfold propagatedImpactOf.
  destruct (IMPACT_TYPE_MULTIPLIERS_range (ie_impactType e)) as [Hm0 Hm1].
  destruct (SEVERITY_WEIGHTS_range (ie_targetType e) Ht) as [Hs0 Hs1].
  destruct (scale_down imp (ie_impactWeight e) Himp Hw0 Hw1) as [H1 H2].
  destruct (scale_down _ (IMPACT_TYPE_MULTIPLIERS (ie_impactType e)) H1 Hm0 Hm1)
    as [H3 H4].
  destruct (scale_down _ (SEVERITY_WEIGHTS (ie_targetType e)) H3 Hs0 Hs1) as [H5 H6].
  split; [exact H5 |].
  eapply Qle_trans; [exact H6 |]. eapply Qle_trans; [exact H4 | exact H2].
Qed.

Lemma js_max_cases (a b : Q) : js_max a b = a \/ js_max a b = b.
Proof. unfold js_max. destruct (Qlt_bool a b); auto. Qed.

(** X16. Impact does not grow along edges that stay clear of regulations.
    When the initial impact is not negative, every edge of the graph has a
    weight between 0 and 1 and no edge leads into a REGULATION (the one type
    whose severity weight, 1.2, exceeds 1), every node of the result has a
    score between 0 and the initial impact. *)
Theorem impact_attenuates_without_regulation_targets
    (eng : PropagationEngine) (db : Db) (graph : DependencyGraph)
    (config : PropagationConfig) :
  0 <= initialImpactOf config ->
  (forall ke, In ke (graphPairs graph) ->
     0 <= ie_impactWeight (snd ke) /\ ie_impactWeight (snd ke) <= 1
     /\ ie_targetType (snd ke) <> REGULATION) ->
  exists r,
    propagateOn eng db graph config = Some r
    /\ forall k n,
         OMap.get k (pr_nodes r) = Some n ->
         0 <= pn_impactScore n /\ pn_impactScore n <= initialImpactOf config.
Proof.
  intros Hinit Hgraph.
  destruct (propagateOn_total eng db graph config) as [st [E ->]].
  eexists. split; [reflexivity |]. cbn [pr_nodes].
  set (bounded := fun x : Q => 0 <= x /\ x <= initialImpactOf config).
  refine (propagateBFS_call_invariant eng db graph
            (fun s => forall k n, OMap.get k (ts_nodes s) = Some n ->
                                  bounded (pn_impactScore n))
            (fun _ _ imp _ _ => bounded imp) _ _ _ _ _ _ _ _ _ _ _ _ _ E); trivial.
  - intros s ct ci imp depth e Hs [Hi0 Hi1] He _ _ _ _ _.
    apply outgoingEdges_pairs in He. destruct (Hgraph _ He) as [Hw0 [Hw1 Ht]].
    simpl in Hw0, Hw1, Ht.
    destruct (propagatedImpactOf_range imp e Hi0 Hw0 Hw1 Ht) as [Hp0 Hp1].
    assert (Hp : bounded (propagatedImpactOf imp e)).
    { split; [exact Hp0 | eapply Qle_trans; eassumption]. }
    split; [| exact Hp].
    intros k n Hget. cbn [acceptEdge ts_nodes] in Hget.
    destruct (String.eqb k (targetKeyOf e)) eqn:Ek.
    + apply String.eqb_eq in Ek. subst k. rewrite touchNode_get_same in Hget.
      injection Hget as <-.
      destruct (OMap.get (targetKeyOf e) (ts_nodes s)) as [n0 |] eqn:E0; cbn;
        [| exact Hp].
      destruct (js_max_cases (pn_impactScore n0) (propagatedImpactOf imp e)) as [-> | ->];
        [exact (Hs _ _ E0) | exact Hp].
    + apply String.eqb_neq in Ek. rewrite touchNode_get_other in Hget by exact Ek.
      exact (Hs _ _ Hget).
  - intros k n. simpl. destruct (String.eqb k (sourceKeyOf config)); [| discriminate].
    intros [= <-]. simpl. split; [exact Hinit | apply Qle_refl].
  - split; [exact Hinit | apply Qle_refl].
Qed.

Lemma impact_attenuates_without_regulation_targets_witness :
  0 <= initialImpactOf (Scenario.config REGULATION "R1")
  /\ exists r,
       propagateOn Scenario.engine (Scenario.db [] []) Scenario.twoHop
         (Scenario.config REGULATION "R1") = Some r
       /\ forall k n,
            OMap.get k (pr_nodes r) = Some n ->
            0 <= pn_impactScore n
            /\ pn_impactScore n <= initialImpactOf (Scenario.config REGULATION "R1").
Proof.
  assert (H0 : 0 <= initialImpactOf (Scenario.config REGULATION "R1"))
    by (unfold Qle; simpl; lia).
  split; [exact H0 |].
  apply (impact_attenuates_without_regulation_targets Scenario.engine
           (Scenario.db [] []) Scenario.twoHop (Scenario.config REGULATION "R1") H0).
  intros ke Hke. vm_compute in Hke.
  destruct Hke as [<- | [<- | []]]; simpl;
    (split; [unfold Qle; simpl; lia | split; [unfold Qle; simpl; lia | discriminate]]).
Defined.

Lemma reached_more sourceKey edges added k :
  reached sourceKey edges k -> reached sourceKey (edges ++ added) k.
Proof.
  induction 1 as [| p Hp _ IH]; [constructor |].
  apply reached_step; [apply in_or_app; now left | exact IH].
Qed.

(** X17. The result of a propagation is connected: every recorded edge joins
    two nodes of the node map, and every node of the map is the source or is
    reached from the source along recorded edges. *)
Theorem result_is_connected_to_source :
  forall eng db graph config,
  exists r,
    propagateOn eng db graph config = Some r
    /\ (forall p, In p (pr_edges r) ->
          In (pathSourceKey p) (OMap.keys (pr_nodes r))
          /\ In (pathTargetKey p) (OMap.keys (pr_nodes r)))
    /\ (forall k, In k (OMap.keys (pr_nodes r)) ->
          reached (sourceKeyOf config) (pr_edges r) k).
Proof.
  intros eng db graph config.
  destruct (propagateOn_total eng db graph config) as [st [E ->]].
  eexists. split; [reflexivity |]. cbn [pr_nodes pr_edges].
  refine (propagateBFS_call_invariant eng db graph
            (fun s =>
               (forall p, In p (ts_edges s) ->
                  In (pathSourceKey p) (OMap.keys (ts_nodes s))
                  /\ In (pathTargetKey p) (OMap.keys (ts_nodes s)))
               /\ (forall k, In k (OMap.keys (ts_nodes s)) ->
                     reached (sourceKeyOf config) (ts_edges s) k))
            (fun ct ci _ _ s =>
               In (entityKey ct ci) (OMap.keys (ts_nodes s))
               /\ reached (sourceKeyOf config) (ts_edges s) (entityKey ct ci))
            _ _ _ _ _ _ _ _ _ _ _ _ _ E); trivial.
  - intros ct ci _ _ s s' [Hin Hr] [Hnodes [added ->]].
    split; [now apply Hnodes | now apply reached_more].
  - intros s ct ci imp depth e [Hedges Hnodes] [Hin Hr] _ _ _ _ _ _.
    set (pe := mkPropagationPath ct ci (ie_targetType e) (ie_targetId e)
                 (ie_impactWeight e) (ie_impactType e)).
    cbn [acceptEdge ts_nodes ts_edges]. fold pe.
    assert (Hstep : reached (sourceKeyOf config) (ts_edges s ++ [pe]) (targetKeyOf e)).
    { apply (reached_step _ _ pe); [apply in_or_app; right; now left |].
      now apply reached_more. }
    split; [split | split].
    + intros p Hp. apply in_app_iff in Hp. rewrite !touchNode_keys.
      destruct Hp as [Hp | [<- | []]].
      * destruct (Hedges p Hp) as [Hps Hpt]. split; right; assumption.
      * split; [right; exact Hin | now left].
    + intros k Hk. apply touchNode_keys in Hk.
      destruct Hk as [-> | Hk]; [exact Hstep |].
      apply reached_more. now apply Hnodes.
    + apply touchNode_keys. now left.
    + exact Hstep.
  - split.
    + intros p [].
    + intros k [<- | []]. constructor.
  - split; [now left | constructor].
Qed.

(** ** Skipped edges *)

Lemma outgoingEdges_pruned eng graph key :
  outgoingEdges (pruned eng graph) key
  = filter (fun e => negb (skipped eng e)) (outgoingEdges graph key).
Proof.
  unfold outgoingEdges, pruned. cbn [outgoing].
  rewrite (get_map_values (fun _ => filter (fun e => negb (skipped eng e)))).
  now destruct (OMap.get key (outgoing graph)).
Qed.

Lemma forOf_eq {A S : Type} (body1 body2 : A -> S -> option S) (l : list A) :
  (forall x s, body1 x s = body2 x s) ->
  forall s, forOf body1 l s = forOf body2 l s.
Proof.
  intros H. induction l as [| x l IH]; intros s; simpl; trivial.
  rewrite H. destruct (body2 x s); trivial.
Qed.

Lemma propagateBFS_pruned eng db graph fuel :
  forall ct ci imp depth st,
    propagateBFS fuel eng db (pruned eng graph) ct ci imp depth st
    = propagateBFS fuel eng db graph ct ci imp depth st.
Proof.
  induction fuel as [| fuel IH]; intros ct ci imp depth st; [reflexivity |].
  cbn [propagateBFS].
  destruct (Qle_bool _ _); trivial.
  destruct (Qlt_bool _ _); trivial.
  rewrite outgoingEdges_pruned, forOf_skipped.
  apply forOf_eq. intros e s. rewrite !visitEdge_eq.
  destruct (skipped eng e); trivial.
  destruct (StrSet.has _ _); trivial.
  destruct (Qlt_bool _ _); trivial.
Qed.

(** X26. The edges that the loop body of [propagateBFS] skips are invisible:
    a propagation gives the same result on the graph and on the graph from
    which the inactive edges, the Indirect edges (when the engine leaves them
    out) and the Conditional edges with a rejected condition object have been
    removed.  In particular the graph after the removal holds, for an engine
    with [includeIndirect = false], no Indirect edge. *)
Theorem skipped_edges_are_invisible :
  forall eng db graph config,
    propagateOn eng db (pruned eng graph) config = propagateOn eng db graph config
    /\ (forall key e,
          In e (outgoingEdges (pruned eng graph) key) ->
          In e (outgoingEdges graph key)
          /\ ie_isActive e = true
          /\ (eng_includeIndirect eng = false -> ie_impactType e <> "Indirect")).
Proof.
  intros eng db graph config. split.
  - destruct (propagateOn_total eng db (pruned eng graph) config) as [st1 [E1 ->]].
    destruct (propagateOn_total eng db graph config) as [st2 [E2 ->]].
    set (fuel := Nat.max (fuelFor (pruned eng graph)) (fuelFor graph)).
    apply (propagateBFS_fuel_mono _ _ _ _ fuel) in E1; [| apply Nat.le_max_l].
    apply (propagateBFS_fuel_mono _ _ _ _ fuel) in E2; [| apply Nat.le_max_r].
    rewrite propagateBFS_pruned, E2 in E1. injection E1 as <-. reflexivity.
  - intros key e He. rewrite outgoingEdges_pruned in He. apply filter_In in He.
    destruct He as [He Hsk]. apply negb_true_iff in Hsk.
    split; [exact He |]. unfold skipped in Hsk.
    apply orb_false_elim in Hsk. destruct Hsk as [Hsk _].
    apply orb_false_elim in Hsk. destruct Hsk as [Ha Hi].
    split; [now destruct (ie_isActive e) |].
    intros Hoff Ht. rewrite Ht, Hoff in Hi. discriminate.
Qed.

(** ** The entry points around [propagate] *)

(** [propagate] runs the traversal on the graph the engine holds, or on the
    graph it loads through the cache when it holds none. *)
Lemma propagate_runs eng db c now config :
  exists graph,
    propagate eng db c now config
    = (propagateOn
         (mkPropagationEngine (eng_tenantId eng) (Some graph) (eng_maxDepth eng)
            (eng_impactThreshold eng) (eng_includeIndirect eng))
         db graph config,
       mkPropagationEngine (eng_tenantId eng) (Some graph) (eng_maxDepth eng)
         (eng_impactThreshold eng) (eng_includeIndirect eng),
       match eng_graph eng with
       | Some _ => c
       | None => snd (buildDependencyGraph db c now (eng_tenantId eng))
       end)
    /\ graph = match eng_graph eng with
               | Some g => g
               | None => fst (buildDependencyGraph db c now (eng_tenantId eng))
               end.
Proof.
  unfold propagate, initialize. destruct eng as [t g d th ii]. simpl.
  destruct g as [g |]; simpl.
  - exists g. split; reflexivity.
  - destruct (buildDependencyGraph db c now t) as [graph c1]. simpl.
    exists graph. split; reflexivity.
Qed.

Lemma findRegulation_None db regulationId :
  findRegulation db regulationId = None
  <-> forall r, In r (db_regulations db) -> reg_id r <> regulationId.
Proof.
  unfold findRegulation. split.
  - intros H r Hr Hid.
    apply (find_none _ _ H) in Hr. apply String.eqb_neq in Hr. contradiction.
  - intros H. destruct (find _ _) as [r |] eqn:E; trivial.
    apply find_some in E. destruct E as [Hr Hid]. apply String.eqb_eq in Hid.
    now apply H in Hr.
Qed.

Lemma getInitialImpactFromSeverity_range severity :
  3 # 10 <= getInitialImpactFromSeverity severity
  /\ getInitialImpactFromSeverity severity <= 1.
Proof.
  unfold getInitialImpactFromSeverity. destruct severity as [s |].
  - repeat (destruct (String.eqb s _)); split; unfold Qle; simpl; lia.
  - split; unfold Qle; simpl; lia.
Qed.

(** X18. [getRegulationImpact] returns [null] exactly when no regulation of
    the store has the id, whatever the tenant and the status of the
    regulations: the lookup is by id alone.  For a regulation that it finds it
    returns the result of a propagation from [REGULATION:<id>] whose source
    node has depth 0 and a score at or above the seed of the regulation's
    severity, a value between 0.3 and 1, and equal to the seed when no
    recorded edge leads back into the regulation. *)
Theorem getRegulationImpact_seeds_from_severity :
  forall eng db c now regulationId,
    (fst (fst (getRegulationImpact eng db c now regulationId)) = None
     <-> forall r, In r (db_regulations db) -> reg_id r <> regulationId)
    /\ forall regulation,
         findRegulation db regulationId = Some regulation ->
         let seed := getInitialImpactFromSeverity (reg_severity regulation) in
         In regulation (db_regulations db)
         /\ reg_id regulation = regulationId
         /\ 3 # 10 <= seed /\ seed <= 1
         /\ exists r node,
              fst (fst (getRegulationImpact eng db c now regulationId)) = Some (Some r)
              /\ pr_sourceType r = REGULATION
              /\ pr_sourceId r = regulationId
              /\ OMap.get (entityKey REGULATION regulationId) (pr_nodes r) = Some node
              /\ pn_depth node = 0%nat
              /\ seed <= pn_impactScore node
              /\ ((forall p, In p (pr_edges r) ->
                     pathTargetKey p <> entityKey REGULATION regulationId) ->
                  pn_impactScore node = seed).
Proof.
  intros eng db c now regulationId. split.
  - rewrite <- findRegulation_None. unfold getRegulationImpact.
    destruct (findRegulation db regulationId) as [regulation |]; [| tauto].
    destruct (propagate _ _ _ _ _) as [[result eng1] c1]. simpl.
    split; discriminate.
  - intros regulation Hfind seed.
    pose proof Hfind as Hin. unfold findRegulation in Hin. apply find_some in Hin.
    destruct Hin as [Hin Hid]. apply String.eqb_eq in Hid.
    destruct (getInitialImpactFromSeverity_range (reg_severity regulation)) as [H1 H2].
    repeat split; trivial.
    unfold getRegulationImpact. rewrite Hfind.
    destruct (propagate_runs eng db c now
                (impactConfig (eng_tenantId eng) regulationId regulation))
      as [graph [-> _]].
    destruct (propagateOn_source_node
                (mkPropagationEngine (eng_tenantId eng) (Some graph) (eng_maxDepth eng)
                   (eng_impactThreshold eng) (eng_includeIndirect eng))
                db graph (impactConfig (eng_tenantId eng) regulationId regulation))
      as [r [E [[node [Hn1 [Hn2 [Hn3 Hn4]]]] _]]].
    exists r, node. cbn [fst]. rewrite E.
    pose proof E as E'. rewrite propagateOn_eq in E'.
    destruct (propagateBFS _ _ _ _ _ _ _ _ _) as [st |]; [| discriminate].
    injection E' as <-. cbn [pr_sourceType pr_sourceId].
    repeat split; trivial.
Qed.

Lemma propagateImpact_eq db c now config :
  propagateImpact db c now config
  = (propagateOn
       (loadedEngine (cfg_tenantId config)
          (fst (buildDependencyGraph db c now (cfg_tenantId config))))
       db (fst (buildDependencyGraph db c now (cfg_tenantId config))) config,
     snd (buildDependencyGraph db c now (cfg_tenantId config))).
Proof.
  unfold propagateImpact. now rewrite propagate_newEngine.
Qed.

(** X19. [propagateImpact] builds its engine without options, and [propagate]
    reads only the source and the initial impact of the configuration: the
    [maxDepth], [impactThreshold] and [includeIndirect] of the configuration
    have no effect.  Two configurations that agree on tenant, source and
    initial impact give the same result, and in it every node other than the
    source has a score of at least 0.01 and a depth of at most 10, the
    defaults of the engine. *)
Theorem propagateImpact_ignores_config_options
    (db : Db) (c : MemoryCache DependencyGraph) (now : Z)
    (config config' : PropagationConfig) :
  cfg_tenantId config = cfg_tenantId config' ->
  cfg_sourceType config = cfg_sourceType config' ->
  cfg_sourceId config = cfg_sourceId config' ->
  cfg_initialImpact config = cfg_initialImpact config' ->
  propagateImpact db c now config = propagateImpact db c now config'
  /\ exists r,
       fst (propagateImpact db c now config) = Some r
       /\ forall k n,
            OMap.get k (pr_nodes r) = Some n -> k <> sourceKeyOf config ->
            1 # 100 <= pn_impactScore n /\ (1 <= pn_depth n <= 10)%nat.
Proof.
  intros Ht Hs Hi Him. split.
  - rewrite !propagateImpact_eq, <- Ht. f_equal.
    rewrite !propagateOn_eq. unfold initialImpactOf, initialState, sourceKeyOf,
      sourceNodeOf, initialImpactOf.
    now rewrite Hs, Hi, Him.
  - rewrite propagateImpact_eq. cbn [fst].
    set (graph := fst (buildDependencyGraph db c now (cfg_tenantId config))).
    destruct (propagateOn_total (loadedEngine (cfg_tenantId config) graph) db graph
                config) as [st [E ->]].
    eexists. split; [reflexivity |]. cbn [pr_nodes].
    intros k n Hget Hk.
    destruct (result_passesThreshold _ _ _ _ _ E k n Hget Hk) as [H1 [H2 H3]].
    cbn [loadedEngine eng_impactThreshold eng_maxDepth] in H1, H3.
    split; [exact H1 |]. split; [exact H2 |].
    assert (H4 : (Z.of_nat (pn_depth n) < 11)%Z).
    { rewrite Zlt_Qlt. exact H3. }
    lia.
Qed.

Lemma propagateImpact_ignores_config_options_witness :
  let config := mkPropagationConfig "T1" REGULATION "R1" (Some 1) None None None in
  let config' :=
    mkPropagationConfig "T1" REGULATION "R1" (Some 1) (Some 0) (Some 2) (Some false) in
  let db :=
    Scenario.db [Scenario.edge REGULATION "R1" DEPARTMENT "D1" 1 "Indirect"] [] in
  propagateImpact db Cache.new 0 config = propagateImpact db Cache.new 0 config'
  /\ exists r,
       fst (propagateImpact db Cache.new 0 config) = Some r
       /\ forall k n,
            OMap.get k (pr_nodes r) = Some n -> k <> sourceKeyOf config ->
            1 # 100 <= pn_impactScore n /\ (1 <= pn_depth n <= 10)%nat.
Proof.
  apply (propagateImpact_ignores_config_options
           (Scenario.db [Scenario.edge REGULATION "R1" DEPARTMENT "D1" 1 "Indirect"] [])
           Cache.new 0
           (mkPropagationConfig "T1" REGULATION "R1" (Some 1) None None None)
           (mkPropagationConfig "T1" REGULATION "R1" (Some 1) (Some 0) (Some 2)
              (Some false)));
    reflexivity.
Defined.

(** X20. [getRiskLevel] is monotone: a higher score never gets a lower level
    in the order Low, Medium, High, Critical.  The bands are cut at 0.5, 0.7
    and 0.9; below 0.5 every score, negative ones included, is Low, so the
    [Low] entry 0.3 of [RISK_THRESHOLDS] plays no part. *)
Theorem getRiskLevel_monotone (x y : Q) :
  x <= y ->
  (riskRank (getRiskLevel x) <= riskRank (getRiskLevel y))%nat
  /\ (getRiskLevel x = "Low" <-> x < 5 # 10)
  /\ (getRiskLevel x = "Critical" <-> 9 # 10 <= x).
Proof.
  intros Hxy. unfold getRiskLevel.
  destruct (Qle_bool (9 # 10) x) eqn:X9;
    [apply Qle_bool_iff in X9 | apply Qle_bool_false_iff in X9];
    (destruct (Qle_bool (7 # 10) x) eqn:X7;
     [apply Qle_bool_iff in X7 | apply Qle_bool_false_iff in X7]);
    (destruct (Qle_bool (5 # 10) x) eqn:X5;
     [apply Qle_bool_iff in X5 | apply Qle_bool_false_iff in X5]);
    (destruct (Qle_bool (9 # 10) y) eqn:Y9;
     [apply Qle_bool_iff in Y9 | apply Qle_bool_false_iff in Y9]);
    (destruct (Qle_bool (7 # 10) y) eqn:Y7;
     [apply Qle_bool_iff in Y7 | apply Qle_bool_false_iff in Y7]);
    (destruct (Qle_bool (5 # 10) y) eqn:Y5;
     [apply Qle_bool_iff in Y5 | apply Qle_bool_false_iff in Y5]);
    try (exfalso; lra);
    (split; [apply Nat.leb_le; reflexivity |]);
    (split; split; intros H; try discriminate H; trivial; exfalso; lra).
Qed.

Lemma getRiskLevel_monotone_witness :
  (riskRank (getRiskLevel (6 # 10)) <= riskRank (getRiskLevel (8 # 10)))%nat
  /\ (getRiskLevel (6 # 10) = "Low" <-> 6 # 10 < 5 # 10)
  /\ (getRiskLevel (6 # 10) = "Critical" <-> 9 # 10 <= 6 # 10).
Proof.
  apply (getRiskLevel_monotone (6 # 10) (8 # 10)). unfold Qle. simpl. lia.
Defined.

(** ** The timeline comparison *)

Lemma set_absent {V : Type} (k : string) (v : V) (m : OMap.t V) :
  OMap.get k m = None -> OMap.set k v m = m ++ [(k, v)].
Proof.
  induction m as [| [k' v'] m IH]; simpl; trivial.
  destruct (String.eqb k k'); [discriminate |]. intros H. now rewrite IH.
Qed.

Lemma get_app_absent {V : Type} (k : string) (m1 m2 : OMap.t V) :
  OMap.get k (m1 ++ m2)
  = match OMap.get k m1 with Some v => Some v | None => OMap.get k m2 end.
Proof.
  induction m1 as [| [k' v'] m1 IH]; simpl; trivial.
  destruct (String.eqb k k'); trivial.
Qed.

Lemma get_scoresOf nodes k :
  OMap.get k (scoresOf nodes)
  = match OMap.get k nodes with
    | Some node => Some (pn_impactScore node)
    | None => None
    end.
Proof.
  unfold scoresOf. induction nodes as [| [k' n] nodes IH]; simpl; trivial.
  destruct (String.eqb k k'); trivial.
Qed.

Lemma keys_scoresOf nodes : OMap.keys (scoresOf nodes) = OMap.keys nodes.
Proof. unfold scoresOf, OMap.keys. rewrite map_map. reflexivity. Qed.

(** The map [calculateStateAfter] fills is the node map with the scores in
    place of the nodes. *)
Lemma stateAfter_scores nodes :
  NoDup (OMap.keys nodes) ->
  forall m,
    (forall k, In k (OMap.keys nodes) -> OMap.get k m = None) ->
    fold_left
      (fun entityImpacts (kn : string * PropagationNode) =>
         OMap.set (fst kn) (pn_impactScore (snd kn)) entityImpacts)
      nodes m
    = m ++ scoresOf nodes.
Proof.
  unfold OMap.keys.
  induction nodes as [| [k n] nodes IH]; intros Hnd m Hm; simpl.
  - now rewrite app_nil_r.
  - inversion Hnd as [| ? ? Hnot Hnd']; subst.
    rewrite set_absent by (apply Hm; now left).
    rewrite IH; trivial.
    + now rewrite <- app_assoc.
    + intros k' Hk'. rewrite get_app_absent, (Hm k') by now right.
      simpl. destruct (String.eqb k' k) eqn:E; trivial.
      apply String.eqb_eq in E. subst. contradiction.
Qed.

Lemma addHalfImpact_get_same aggregated key node :
  OMap.get key (addHalfImpact aggregated (key, node))
  = Some (impactOr0 key aggregated + pn_impactScore node * (5 # 10)).
Proof. apply get_set_same. Qed.

Lemma addHalfImpact_get_other aggregated key key' node :
  key <> key' ->
  OMap.get key' (addHalfImpact aggregated (key, node)) = OMap.get key' aggregated.
Proof. intros H. now apply get_set_other. Qed.

Lemma addHalfImpacts_get nodes :
  NoDup (OMap.keys nodes) ->
  forall aggregated key,
    OMap.get key (fold_left addHalfImpact nodes aggregated)
    = match OMap.get key nodes with
      | Some node =>
          Some (impactOr0 key aggregated + pn_impactScore node * (5 # 10))
      | None => OMap.get key aggregated
      end.
Proof.
  unfold OMap.keys.
  induction nodes as [| [k n] nodes IH]; intros Hnd aggregated key; [reflexivity |].
  inversion Hnd as [| ? ? Hnot Hnd']; subst.
  cbn [fold_left OMap.get]. rewrite (IH Hnd').
  destruct (String.eqb key k) eqn:E.
  - apply String.eqb_eq in E. subst k.
    assert (Hnone : OMap.get key nodes = None) by now apply get_None_iff.
    rewrite Hnone. apply addHalfImpact_get_same.
  - apply String.eqb_neq in E.
    assert (Hother : OMap.get key (addHalfImpact aggregated (k, n))
                     = OMap.get key aggregated)
      by (apply addHalfImpact_get_other; congruence).
    destruct (OMap.get key nodes) as [node |]; [| exact Hother].
    unfold impactOr0. now rewrite Hother.
Qed.

Lemma addHalfImpacts_keys nodes :
  forall aggregated key,
    In key (OMap.keys (fold_left addHalfImpact nodes aggregated))
    <-> In key (OMap.keys aggregated) \/ In key (OMap.keys nodes).
Proof.
  induction nodes as [| [k n] nodes IH]; intros aggregated key; [simpl; tauto |].
  cbn [fold_left]. rewrite IH. unfold addHalfImpact. rewrite In_keys_set.
  simpl. intuition (subst; auto).
Qed.

Section HalfImpacts.
Variables (tenantId : string) (db : Db) (graph : DependencyGraph).

Lemma halfImpactsAfter_keys regulations :
  forall aggregated key,
    In key (OMap.keys (halfImpactsAfter tenantId db graph regulations aggregated))
    <-> In key (OMap.keys aggregated)
        \/ exists regulation,
             In regulation regulations
             /\ In key (OMap.keys (regulationNodes tenantId db graph regulation)).
Proof.
  unfold halfImpactsAfter.
  induction regulations as [| regulation rest IH]; intros aggregated key.
  - simpl. split; [tauto | intros [H | [r [[] _]]]; exact H].
  - cbn [fold_left]. rewrite IH, addHalfImpacts_keys. split.
    + intros [[H | H] | [r [Hr Hk]]]; [tauto | right | right].
      * exists regulation. split; [now left | exact H].
      * exists r. split; [now right | exact Hk].
    + intros [H | [r [[<- | Hr] Hk]]]; [tauto | tauto |].
      right. now exists r.
Qed.

Lemma halfTotal_proper key regulations :
  forall x y,
    x == y ->
    fold_left (fun acc regulation => acc + halfScore tenantId db graph key regulation)
      regulations x
    == fold_left (fun acc regulation => acc + halfScore tenantId db graph key regulation)
         regulations y.
Proof.
  induction regulations as [| regulation rest IH]; intros x y Hxy; simpl; trivial.
  apply IH. now rewrite Hxy.
Qed.

Lemma halfImpactsAfter_total regulations :
  forall aggregated key,
    impactOr0 key (halfImpactsAfter tenantId db graph regulations aggregated)
    == fold_left
         (fun acc regulation => acc + halfScore tenantId db graph key regulation)
         regulations (impactOr0 key aggregated).
Proof.
  unfold halfImpactsAfter.
  induction regulations as [| regulation rest IH]; intros aggregated key.
  - simpl. reflexivity.
  - cbn [fold_left]. rewrite IH. apply halfTotal_proper.
    unfold impactOr0 at 1.
    rewrite (addHalfImpacts_get _ (regulationNodes_unique tenantId db graph regulation)).
    unfold halfScore.
    destruct (OMap.get key (regulationNodes tenantId db graph regulation)) as [node |].
    + reflexivity.
    + fold (impactOr0 key aggregated). lra.
Qed.

(** With the graph loaded the engine leaves the cache alone, and the depth
    the timeline asks for is not read: every turn of the loop of
    [calculateStateBefore] runs the propagation of [calculateAllRisks]. *)
Lemma aggregateImpacts_loaded c now regulations :
  forall aggregated,
    aggregateImpacts tenantId (loadedEngine tenantId graph) db c now regulations
      aggregated
    = (Some (halfImpactsAfter tenantId db graph regulations aggregated),
       loadedEngine tenantId graph, c).
Proof.
  induction regulations as [| regulation rest IH]; intros aggregated; [reflexivity |].
  cbn [aggregateImpacts]. unfold propagate. cbn [loadedEngine eng_graph].
  fold (loadedEngine tenantId graph).
  destruct (regulationNodes_eq tenantId db graph regulation) as [r [E [Hn _]]].
  change (propagateOn (loadedEngine tenantId graph) db graph
            (timelineConfig tenantId regulation))
    with (propagateOn (loadedEngine tenantId graph) db graph
            (riskConfig tenantId regulation)).
  rewrite E, IH. unfold halfImpactsAfter. cbn [fold_left]. now rewrite Hn.
Qed.
End HalfImpacts.

Lemma findExistingRegulations_In db effectiveDate tenantId regulation date r :
  In r (findExistingRegulations db effectiveDate tenantId regulation date)
  <-> In r (db_regulations db)
      /\ reg_tenantId r = tenantId
      /\ (effectiveDate r < date)%Z
      /\ reg_id r <> reg_id regulation
      /\ reg_status r = "Active".
Proof.
  unfold findExistingRegulations. rewrite filter_In, !andb_true_iff, negb_true_iff.
  rewrite !String.eqb_eq, String.eqb_neq, Z.ltb_lt. tauto.
Qed.

(** X21. [compareImpact] throws exactly when no regulation has the id (and
    has then already loaded the graph into the cache).  Otherwise: the
    after-state holds the scores of the nodes of the regulation's own
    propagation and counts one regulation; the before-state counts the active
    regulations of the tenant with an earlier effective date and another id,
    its keys are the nodes those regulations reach, and the value of a key is
    the sum over those regulations of half the score of the node; the deltas
    are those of [calculateDeltas] on the two states.  The [maxDepth: 5] of
    both states is not read, so the propagations are those of
    [calculateAllRisks].  The regulation itself has an after-value of at least
    1, and when no earlier regulation reaches it, it is among the deltas with
    before-value 0 and percent change 100. *)
Theorem compareImpact_states :
  forall tenantId db c now effectiveDate regulationId beforeDate afterDate,
    let graph := fst (buildDependencyGraph db c now tenantId) in
    let run :=
      compareImpact tenantId db c now effectiveDate regulationId beforeDate afterDate in
    (fst run = None <-> findRegulation db regulationId = None)
    /\ snd run = snd (buildDependencyGraph db c now tenantId)
    /\ forall regulation,
         findRegulation db regulationId = Some regulation ->
         let existing :=
           findExistingRegulations db effectiveDate tenantId regulation beforeDate in
         let own := entityKey REGULATION (reg_id regulation) in
         exists cmp,
           fst run = Some cmp
           /\ sc_deltas cmp = calculateDeltas (sc_beforeState cmp) (sc_afterState cmp)
           /\ ss_entityImpacts (sc_afterState cmp)
              = scoresOf (regulationNodes tenantId db graph regulation)
           /\ ss_regulationCount (sc_afterState cmp) = 1%nat
           /\ ss_regulationCount (sc_beforeState cmp) = List.length existing
           /\ ~ In regulation existing
           /\ (forall key,
                 In key (OMap.keys (ss_entityImpacts (sc_beforeState cmp)))
                 <-> exists r,
                       In r existing
                       /\ In key (OMap.keys (regulationNodes tenantId db graph r)))
           /\ (forall key,
                 impactOr0 key (ss_entityImpacts (sc_beforeState cmp))
                 == halfTotalOf tenantId db graph existing key)
           /\ 1 <= impactOr0 own (ss_entityImpacts (sc_afterState cmp))
           /\ ((forall r, In r existing ->
                  ~ In own (OMap.keys (regulationNodes tenantId db graph r))) ->
               exists d,
                 In d (sc_deltas cmp)
                 /\ sd_entityKey d = own
                 /\ sd_beforeValue d = 0
                 /\ 1 <= sd_afterValue d
                 /\ sd_percentChange d = 100).
Proof.
  intros tenantId db c now effectiveDate regulationId beforeDate afterDate graph run.
  assert (Hinit : initialize (newEngine tenantId None None None) db c now
                  = (loadedEngine tenantId graph,
                     snd (buildDependencyGraph db c now tenantId))).
  { unfold initialize, graph. simpl.
    now destruct (buildDependencyGraph db c now tenantId). }
  assert (Hrun : run
                 = match findRegulation db regulationId with
                   | None => (None, snd (buildDependencyGraph db c now tenantId))
                   | Some regulation =>
                       let beforeState :=
                         mkSimulationState beforeDate
                           (halfImpactsAfter tenantId db graph
                              (findExistingRegulations db effectiveDate tenantId
                                 regulation beforeDate) OMap.empty)
                           (List.length
                              (findExistingRegulations db effectiveDate tenantId
                                 regulation beforeDate)) in
                       let afterState :=
                         mkSimulationState afterDate
                           (scoresOf (regulationNodes tenantId db graph regulation)) 1 in
                       (Some
                          (mkSimulationComparison regulationId beforeDate afterDate
                             beforeState afterState
                             (calculateDeltas beforeState afterState)),
                        snd (buildDependencyGraph db c now tenantId))
                   end).
  { unfold run, compareImpact. rewrite Hinit.
    destruct (findRegulation db regulationId) as [regulation |]; [| reflexivity].
    unfold calculateStateBefore. rewrite aggregateImpacts_loaded.
    unfold calculateStateAfter, propagate. cbn [loadedEngine eng_graph].
    fold (loadedEngine tenantId graph).
    destruct (regulationNodes_eq tenantId db graph regulation) as [r [E [Hn _]]].
    change (propagateOn (loadedEngine tenantId graph) db graph
              (timelineConfig tenantId regulation))
      with (propagateOn (loadedEngine tenantId graph) db graph
              (riskConfig tenantId regulation)).
    rewrite E. cbv zeta.
    rewrite stateAfter_scores.
    - simpl. now rewrite Hn.
    - rewrite <- Hn. apply regulationNodes_unique.
    - reflexivity. }
  rewrite Hrun. split; [| split].
  - destruct (findRegulation db regulationId); simpl; split; trivial; discriminate.
  - now destruct (findRegulation db regulationId).
  - intros regulation Hfind existing own. rewrite Hfind. cbv zeta.
    eexists. split; [reflexivity |].
    cbn [fst sc_deltas sc_beforeState sc_afterState ss_entityImpacts ss_regulationCount].
    fold existing.
    assert (Hown : exists node,
               OMap.get own (regulationNodes tenantId db graph regulation) = Some node
               /\ 1 <= pn_impactScore node).
    { destruct (regulationNodes_eq tenantId db graph regulation) as [r [E [Hn _]]].
      destruct (propagateOn_source_node (loadedEngine tenantId graph) db graph
                  (riskConfig tenantId regulation))
        as [r' [E' [[node [Hn1 [_ [Hn3 _]]]] _]]].
      rewrite E in E'. injection E' as <-.
      exists node. rewrite Hn. split; [exact Hn1 | exact Hn3]. }
    destruct Hown as [node [Hnode Hscore]].
    assert (Hafter : impactOr0 own
                       (scoresOf (regulationNodes tenantId db graph regulation))
                     = pn_impactScore node).
    { unfold impactOr0. now rewrite get_scoresOf, Hnode. }
    split; [reflexivity |]. split; [reflexivity |]. split; [reflexivity |].
    split; [reflexivity |]. split.
    { intros Hin. apply findExistingRegulations_In in Hin. tauto. }
    split.
    { intros key. rewrite halfImpactsAfter_keys. simpl. tauto. }
    split.
    { intros key. rewrite halfImpactsAfter_total. reflexivity. }
    split; [now rewrite Hafter |].
    intros Hnone.
    assert (Hbefore : OMap.get own (halfImpactsAfter tenantId db graph existing OMap.empty)
                      = None).
    { apply get_None_iff. rewrite halfImpactsAfter_keys. simpl.
      intros [[] | [r [Hr Hk]]]. now apply (Hnone r). }
    eexists. split; [| split; [| split; [| split]]].
    + apply calculateDeltas_In. exists own. split.
      * right. simpl. rewrite keys_scoresOf. apply (get_In_keys _ _ _ Hnode).
      * apply deltaFor_In. split; [| reflexivity].
        cbn [ss_entityImpacts]. rewrite Hafter. unfold impactOr0 at 1.
        rewrite Hbefore. unfold js_abs.
        destruct (Qlt_bool (pn_impactScore node - 0) 0) eqn:E.
        -- apply Qlt_bool_iff in E. lra.
        -- lra.
    + reflexivity.
    + cbn [sd_beforeValue ss_entityImpacts]. unfold impactOr0. now rewrite Hbefore.
    + cbn [sd_afterValue ss_entityImpacts]. now rewrite Hafter.
    + cbn [sd_percentChange ss_entityImpacts]. unfold impactOr0 at 1.
      now rewrite Hbefore.
Qed.

(** ** What the routes report *)

Lemma getRiskLevel_cases x :
  getRiskLevel x = "Critical" \/ getRiskLevel x = "High"
  \/ getRiskLevel x = "Medium" \/ getRiskLevel x = "Low".
Proof.
  unfold getRiskLevel. repeat (destruct (Qle_bool _ x)); tauto.
Qed.

Lemma countLevel_partition (risks : list RiskCalculationResult) :
  (forall r, In r risks ->
     rr_riskLevel r = "Critical" \/ rr_riskLevel r = "High"
     \/ rr_riskLevel r = "Medium" \/ rr_riskLevel r = "Low") ->
  (countLevel "Critical" risks + countLevel "High" risks
   + countLevel "Medium" risks + countLevel "Low" risks)%nat
  = List.length risks.
Proof.
  unfold countLevel. induction risks as [| r risks IH]; intros H; [reflexivity |].
  assert (IH' := IH (fun r' Hr' => H r' (or_intror Hr'))).
  destruct (H r (or_introl eq_refl)) as [E | [E | [E | E]]];
    cbn [filter]; rewrite E; cbn; lia.
Qed.

(** X22. The summary of the risks route partitions the results of
    [calculateAllRisks]: every result carries one of the four levels, the
    level [getRiskLevel] gives its base score, so the four counts add up to
    [totalEntities]; the [risks] array of the response holds the first 100
    results at most. *)
Theorem risk_summary_partitions_results :
  forall tenantId db c now,
  exists risks,
    fst (calculateAllRisks tenantId db c now) = Some risks
    /\ (forall r, In r risks -> rr_riskLevel r = getRiskLevel (rr_baseRiskScore r))
    /\ (rs_criticalCount (riskSummary risks) + rs_highCount (riskSummary risks)
        + rs_mediumCount (riskSummary risks) + rs_lowCount (riskSummary risks))%nat
       = rs_totalEntities (riskSummary risks)
    /\ List.length (firstn 100 risks) = Nat.min 100 (rs_totalEntities (riskSummary risks)).
Proof.
  intros tenantId db c now. rewrite calculateAllRisks_eq.
  eexists. split; [reflexivity |].
  assert (Hlevel : forall r,
             In r (js_sort (fun a b => rr_adjustedRiskScore b - rr_adjustedRiskScore a)
                     (map (toResult
                             (List.length (findActiveRegulations db tenantId)))
                        (risksAfter tenantId db
                           (fst (buildDependencyGraph db c now tenantId))
                           (findActiveRegulations db tenantId) OMap.empty))) ->
             rr_riskLevel r = getRiskLevel (rr_baseRiskScore r)).
  { intros r Hr. apply js_sort_In in Hr. apply in_map_iff in Hr.
    destruct Hr as [[key data] [<- _]]. reflexivity. }
  split; [exact Hlevel |]. split.
  - cbn [riskSummary rs_criticalCount rs_highCount rs_mediumCount rs_lowCount
          rs_totalEntities].
    apply countLevel_partition. intros r Hr. rewrite (Hlevel r Hr).
    apply getRiskLevel_cases.
  - cbn [riskSummary rs_totalEntities]. apply length_firstn.
Qed.

Lemma filter_all {A : Type} (p : A -> bool) (l : list A) :
  (forall x, In x l -> p x = true) -> filter p l = l.
Proof.
  induction l as [| x l IH]; simpl; trivial. intros H.
  rewrite (H x (or_introl eq_refl)). f_equal. apply IH.
  intros y Hy. apply H. now right.
Qed.

Lemma filter_key_length {V : Type} (m : OMap.t V) k :
  NoDup (OMap.keys m) -> In k (OMap.keys m) ->
  S (List.length (filter (fun kv => negb (String.eqb (fst kv) k)) m)) = List.length m.
Proof.
  unfold OMap.keys. induction m as [| [k' v] m IH]; intros Hnd Hin; [destruct Hin |].
  inversion Hnd as [| ? ? Hnot Hnd']; subst. cbn [filter fst List.length].
  destruct (String.eqb k' k) eqn:E; cbn [negb].
  - apply String.eqb_eq in E. subst k'. f_equal.
    rewrite filter_all; [reflexivity |].
    intros [k' v'] Hkv. simpl. apply negb_true_iff. apply String.eqb_neq.
    intros ->. apply Hnot. apply in_map_iff. now exists (k, v').
  - cbn [List.length]. f_equal. apply IH; trivial.
    destruct Hin as [Hin | Hin]; [| exact Hin].
    simpl in Hin. apply String.eqb_neq in E. congruence.
Qed.

Lemma StronglySorted_firstn {A : Type} (R : A -> A -> Prop) (n : nat) (l : list A) :
  StronglySorted R l -> StronglySorted R (firstn n l).
Proof.
  revert l. induction n as [| n IH]; intros l Hs; [constructor |].
  destruct l as [| x l]; [constructor |]. simpl.
  inversion Hs as [| ? ? Hs' Hall]; subst. constructor; [now apply IH |].
  apply Forall_forall. intros y Hy. rewrite Forall_forall in Hall.
  apply Hall. rewrite <- (firstn_skipn n l). apply in_or_app. now left.
Qed.

Lemma values_filter_key (nodes : OMap.t PropagationNode) sourceType sourceId :
  (forall k n, In (k, n) nodes -> k = entityKey (pn_type n) (pn_id n)) ->
  filter (fun n => negb (isSource sourceType sourceId n)) (OMap.values nodes)
  = OMap.values
      (filter (fun kn => negb (String.eqb (fst kn) (entityKey sourceType sourceId)))
         nodes).
Proof.
  unfold OMap.values. induction nodes as [| [k n] nodes IH]; intros Hkey; [reflexivity |].
  cbn [map filter fst snd].
  assert (Hsame : isSource sourceType sourceId n
                  = String.eqb k (entityKey sourceType sourceId)).
  { rewrite (Hkey k n (or_introl eq_refl)). unfold isSource.
    destruct (String.eqb (entityKey (pn_type n) (pn_id n))
                (entityKey sourceType sourceId)) eqn:E.
    - apply String.eqb_eq in E. destruct (entityKey_inj _ _ _ _ E) as [-> ->].
      now rewrite !String.eqb_refl.
    - apply String.eqb_neq in E.
      destruct (String.eqb (entityTypeName (pn_type n)) (entityTypeName sourceType))
        eqn:Et; trivial.
      destruct (String.eqb (pn_id n) sourceId) eqn:Ei; trivial.
      apply String.eqb_eq in Et, Ei. apply entityTypeName_inj in Et.
      exfalso. apply E. now rewrite Et, Ei. }
  rewrite Hsame, IH by (intros k' n' H; apply Hkey; now right).
  now destruct (String.eqb k (entityKey sourceType sourceId)).
Qed.

(** X23. The [affectedEntities] of the propagation route are the nodes of the
    result without the source, by decreasing score: exactly one node of the
    result has the type and id of the source, so the list has [totalAffected]
    entries, cut at 200; every entry is a node of the result stored under a
    key other than the source key, with a score at or above the threshold of
    the engine. *)
Theorem affectedEntities_are_the_reached_nodes :
  forall eng db graph config,
  exists r,
    propagateOn eng db graph config = Some r
    /\ let shown := affectedEntities (cfg_sourceType config) (cfg_sourceId config) r in
       Z.of_nat (List.length shown) = Z.min 200 (pr_totalAffected r)
       /\ StronglySorted (fun a b => pn_impactScore b <= pn_impactScore a) shown
       /\ forall n, In n shown ->
            exists k,
              OMap.get k (pr_nodes r) = Some n
              /\ k <> sourceKeyOf config
              /\ eng_impactThreshold eng <= pn_impactScore n.
Proof.
  intros eng db graph config.
  destruct (propagateOn_total eng db graph config) as [st [E ->]].
  eexists. split; [reflexivity |].
  destruct (result_nodesMatchEdges _ _ _ _ _ E) as [Hnd [Hkeys Hnodes]].
  pose proof (result_passesThreshold _ _ _ _ _ E) as Hpass.
  assert (Hkey : forall k n, In (k, n) (ts_nodes st) ->
                             k = entityKey (pn_type n) (pn_id n)).
  { intros k n Hin. apply (In_get _ _ _ Hnd) in Hin. now apply Hnodes. }
  unfold affectedEntities.
  cbn [pr_nodes pr_totalAffected].
  rewrite (values_filter_key _ _ _ Hkey). fold (sourceKeyOf config).
  set (others := filter (fun kn => negb (String.eqb (fst kn) (sourceKeyOf config)))
                   (ts_nodes st)).
  cbv zeta. split; [| split].
  - rewrite length_firstn.
    rewrite (Permutation_length (js_sort_perm _ (OMap.values others))).
    unfold OMap.values. rewrite length_map.
    assert (Hlen : S (List.length others) = List.length (ts_nodes st)).
    { apply filter_key_length; [exact Hnd |]. apply Hkeys. now left. }
    unfold OMap.size. lia.
  - apply StronglySorted_firstn.
    apply (js_sort_sorted _ pn_impactScore). intros x y. reflexivity.
  - intros n Hn.
    assert (Hin : In n (OMap.values others)).
    { apply (js_sort_In (fun a b => pn_impactScore b - pn_impactScore a)).
      rewrite <- (firstn_skipn 200 (js_sort _ _)). apply in_or_app. now left. }
    unfold OMap.values in Hin. apply in_map_iff in Hin.
    destruct Hin as [[k n'] [Hn' Hin]]. simpl in Hn'. subst n'.
    apply filter_In in Hin. destruct Hin as [Hin Hk]. simpl in Hk.
    apply negb_true_iff, String.eqb_neq in Hk.
    apply (In_get _ _ _ Hnd) in Hin.
    exists k. split; [exact Hin |]. split; [exact Hk |].
    now apply (Hpass k n).
Qed.

(** ** The department ranking *)

Lemma splitColon_nonempty acc s : splitColon acc s <> [].
Proof.
  revert acc. induction s as [| ch s IH]; intros acc; simpl; [discriminate |].
  destruct (Ascii.eqb ch ":"%char); [discriminate | apply IH].
Qed.

Lemma entityKey_id t id : exists part, nth_error (split (entityKey t id)) 1 = Some part.
Proof.
  rewrite split_entityKey. unfold split.
  destruct (splitColon EmptyString id) as [| part parts] eqn:E.
  - now apply splitColon_nonempty in E.
  - now exists part.
Qed.

Lemma regulationNodes_keyform tenantId db graph regulation k :
  In k (OMap.keys (regulationNodes tenantId db graph regulation)) ->
  exists t id, k = entityKey t id.
Proof.
  intros Hk. unfold regulationNodes in Hk.
  destruct (propagateOn_total (loadedEngine tenantId graph) db graph
              (riskConfig tenantId regulation)) as [st [E Hr]].
  rewrite Hr in Hk. cbn [pr_nodes] in Hk.
  destruct (result_nodesMatchEdges _ _ _ _ _ E) as [_ [_ Hnodes]].
  apply In_keys_get in Hk. destruct Hk as [n Hn].
  exists (pn_type n), (pn_id n). now apply Hnodes.
Qed.

Lemma groupDepartments_spec risks :
  (forall r, In r risks -> rr_entityId r <> None) ->
  forall m,
    NoDup (OMap.keys m) ->
    exists m',
      groupDepartments risks m = Some m'
      /\ NoDup (OMap.keys m')
      /\ incl (OMap.keys m) (OMap.keys m')
      /\ (forall id d,
            OMap.get id m' = Some d ->
            OMap.get id m = Some d
            \/ exists r,
                 In r risks
                 /\ rr_entityType r = "DEPARTMENT"
                 /\ rr_entityId r = Some id
                 /\ d = mkDepartmentRisk (rr_adjustedRiskScore r) 1 [id])
      /\ (forall r id,
            In r risks -> rr_entityType r = "DEPARTMENT" -> rr_entityId r = Some id ->
            In id (OMap.keys m')).
Proof.
  induction risks as [| risk rest IH]; intros Hid m Hnd.
  - exists m. simpl. repeat split; trivial; [apply incl_refl | auto | intros r id []].
  - cbn [groupDepartments].
    assert (Hrest : forall r, In r rest -> rr_entityId r <> None)
      by (intros r Hr; apply Hid; now right).
    destruct (String.eqb (rr_entityType risk) "DEPARTMENT") eqn:Et.
    + apply String.eqb_eq in Et.
      destruct (rr_entityId risk) as [entityId |] eqn:Ei;
        [| now elim (Hid risk (or_introl eq_refl))].
      destruct (IH Hrest
                  (OMap.set entityId
                     (mkDepartmentRisk (rr_adjustedRiskScore risk) 1 [entityId]) m)
                  (NoDup_keys_set _ _ _ Hnd))
        as [m' [E [Hnd' [Hincl [Hget Hall]]]]].
      exists m'. split; [exact E |]. split; [exact Hnd' |]. split; [| split].
      * intros k Hk. apply Hincl. apply In_keys_set. now right.
      * intros id d Hd. destruct (Hget id d Hd) as [H | [r [Hr H]]].
        -- destruct (String.eqb entityId id) eqn:Eid.
           ++ apply String.eqb_eq in Eid. subst id. rewrite get_set_same in H.
              injection H as <-. right. exists risk. repeat split; trivial. now left.
           ++ apply String.eqb_neq in Eid. rewrite get_set_other in H by exact Eid.
              now left.
        -- right. exists r. split; [now right | exact H].
      * intros r id [<- | Hr] Ht Hi.
        -- rewrite Ei in Hi. injection Hi as <-. apply Hincl.
           apply In_keys_set. now left.
        -- now apply (Hall r id).
    + destruct (IH Hrest m Hnd) as [m' [E [Hnd' [Hincl [Hget Hall]]]]].
      exists m'. split; [exact E |]. split; [exact Hnd' |]. split; [exact Hincl |].
      split.
      * intros id d Hd. destruct (Hget id d Hd) as [H | [r [Hr H]]]; [now left |].
        right. exists r. split; [now right | exact H].
      * intros r id [<- | Hr] Ht Hi.
        -- apply String.eqb_neq in Et. contradiction.
        -- now apply (Hall r id).
Qed.

(** X24. [getDepartmentRiskRanking] ranks exactly the DEPARTMENT results of
    [calculateAllRisks]: every result has an id, so the grouping always goes
    through; every ranking stands for a DEPARTMENT result with its id, carries
    that result's adjusted (total) risk score as [riskScore], the level of
    that total, not of the base score, as [riskLevel], and 1 as
    [affectedEntityCount]; name and code fall back to the id when the
    department row is missing; every DEPARTMENT result has a ranking under its
    id; no id is ranked twice; the rankings are sorted by decreasing score. *)
Theorem department_ranking :
  forall tenantId db department c now,
  exists results rankings,
    fst (calculateAllRisks tenantId db c now) = Some results
    /\ fst (getDepartmentRiskRanking tenantId db department c now) = Some rankings
    /\ (forall r, In r results -> rr_entityId r <> None)
    /\ (forall k, In k rankings ->
          (exists r,
              In r results
              /\ rr_entityType r = "DEPARTMENT"
              /\ rr_entityId r = Some (rk_departmentId k)
              /\ rk_riskScore k = rr_adjustedRiskScore r
              /\ rk_riskLevel k = getRiskLevel (rr_adjustedRiskScore r))
          /\ rk_affectedEntityCount k = 1%nat
          /\ (department (rk_departmentId k) = None ->
              rk_departmentName k = rk_departmentId k
              /\ rk_departmentCode k = rk_departmentId k))
    /\ (forall r, In r results -> rr_entityType r = "DEPARTMENT" ->
          exists k, In k rankings /\ rr_entityId r = Some (rk_departmentId k))
    /\ NoDup (map rk_departmentId rankings)
    /\ StronglySorted (fun a b => rk_riskScore b <= rk_riskScore a) rankings.
Proof.
  intros tenantId db department c now.
  destruct (calculateAllRisks_spec tenantId db c now) as [results [E [Hres _]]].
  assert (Hid : forall r, In r results -> rr_entityId r <> None).
  { intros r Hr. destruct (Hres r Hr) as [key [[regulation [_ Hkey]] [_ [Hi _]]]].
    apply regulationNodes_keyform in Hkey. destruct Hkey as [t [id ->]].
    destruct (entityKey_id t id) as [part Hpart]. rewrite Hi, Hpart. discriminate. }
  destruct (groupDepartments_spec results Hid OMap.empty (NoDup_nil _))
    as [m [Eg [Hnd [_ [Hget Hall]]]]].
  exists results,
    (js_sort (fun a b => rk_riskScore b - rk_riskScore a) (map (toRanking department) m)).
  split; [exact E |]. split.
  { unfold getDepartmentRiskRanking.
    destruct (calculateAllRisks tenantId db c now) as [risks c']. simpl in E.
    subst risks. now rewrite Eg. }
  split; [exact Hid |]. split; [| split; [| split]].
  - intros k Hk. apply js_sort_In in Hk. apply in_map_iff in Hk.
    destruct Hk as [[id d] [<- Hin]]. apply (In_get _ _ _ Hnd) in Hin.
    destruct (Hget id d Hin) as [H | [r [Hr [Ht [Hi ->]]]]]; [discriminate |].
    cbn. split; [| split; [reflexivity |]].
    + exists r. repeat split; trivial.
    + intros ->. split; reflexivity.
  - intros r Hr Ht.
    destruct (rr_entityId r) as [id |] eqn:Ei; [| now elim (Hid r Hr)].
    pose proof (Hall r id Hr Ht Ei) as Hin. apply In_keys_get in Hin.
    destruct Hin as [d Hd].
    exists (toRanking department (id, d)). split; [| reflexivity].
    apply js_sort_In. apply in_map. now apply get_Some_In.
  - eapply Permutation_NoDup.
    + apply Permutation_map. symmetry. apply js_sort_perm.
    + rewrite map_map.
      replace (map (fun x => rk_departmentId (toRanking department x)) m)
        with (OMap.keys m); [exact Hnd |].
      unfold OMap.keys. apply map_ext. now intros [id d].
  - apply (js_sort_sorted _ rk_riskScore). intros x y. reflexivity.
Qed.
